(** * PeTI item connections ([connections.py])

    A shallow embedding of the connection-graph pass: the item-type
    configuration parser ([ItemType.parse]), the [Item] / [Connection]
    objects with their two membership sets, and [calc_connections], which
    rebuilds the graph from the instance outputs of a map, repairs the
    indicator panels and the connection counters and frames repeated
    signage shapes.

    Python objects live in stores (lists indexed by reference); sets of
    objects are [gset]s of references, so two names for one object see the
    same updates.  Dicts whose iteration order is used are association
    lists in insertion order.  A raised exception is the left injection of
    the [result] type. *)

From Stdlib Require Import ZArith String Ascii Lia Permutation Sorted.
From stdpp Require Import base option list sorting gmap sets strings.

Local Open Scope string_scope.
Local Open Scope list_scope.
Local Open Scope Z_scope.
Local Open Scope nat_scope.

#[local] Set Warnings "-clear-no-such-hyp".

(** ** Exceptions *)

(** The exceptions the module lets escape: the [ValueError]s it raises
    itself, the [IndexError] of a configuration lookup without a default
    and the [KeyError] of a dict lookup outside a [try]. *)
Inductive exn : Type :=
  | ValueError (msg : string)
  | IndexError (key : string)
  | KeyError (key : string).

Definition result (A : Type) : Type := exn + A.

Definition ok {A} (a : A) : result A := inr a.
Definition raise {A} (e : exn) : result A := inl e.

Global Instance result_ret : MRet result := fun A a => inr a.

Global Instance result_bind : MBind result := fun A B k m =>
  match m with
  | inl e => inl e
  | inr a => k a
  end.

Definition is_ok {A} (m : result A) : bool :=
  match m with inr _ => true | inl _ => false end.

(** A [for] loop whose body may raise: the loop stops at the first
    exception. *)
Fixpoint for_each {A S} (body : A -> S -> result S) (xs : list A) (s : S)
  : result S :=
  match xs with
  | [] => ok s
  | x :: xs' => s' ← body x s; for_each body xs' s'
  end.

(** ** Strings *)

Definition dquote : string := String (ascii_of_nat 34) EmptyString.

(** [str.endswith] *)
Fixpoint endswith (s suffix : string) : bool :=
  if String.eqb s suffix then true
  else match s with
       | EmptyString => false
       | String _ s' => endswith s' suffix
       end.

(** ** Enumerations *)

(** Kind of Input A/B type, or TBeam type. *)
Inductive ConnType : Type :=
  | DEFAULT    (* 'default':   normal / unconfigured input *)
  | PRIMARY    (* 'primary':   A type, also TBEAM_IO *)
  | SECONDARY  (* 'secondary': B type, also TBEAM_DIR *)
  | BOTH.      (* 'both':      trigger both simultaneously *)

Definition TBEAM_IO : ConnType := PRIMARY.
Definition TBEAM_DIR : ConnType := SECONDARY.

Global Instance ConnType_eq_dec : EqDecision ConnType.
Proof. solve_decision. Defined.

Definition ConnType_value (t : ConnType) : string :=
  match t with
  | DEFAULT => "default"
  | PRIMARY => "primary"
  | SECONDARY => "secondary"
  | BOTH => "both"
  end.

(** [ConnType(value)]: the member with that value; [None] stands for the
    [ValueError] the enum lookup raises. *)
Definition ConnType_of_value (v : string) : option ConnType :=
  if String.eqb v "default" then Some DEFAULT
  else if String.eqb v "primary" then Some PRIMARY
  else if String.eqb v "secondary" then Some SECONDARY
  else if String.eqb v "both" then Some BOTH
  else None.

(** Indicates the kind of input behaviour to use. *)
Inductive InputType : Type :=
  | IN_DEFAULT | IN_AND | IN_OR | IN_OR_LOGIC | IN_AND_LOGIC | IN_DAISYCHAIN.

Definition CONN_NAMES (t : ConnType) : string :=
  match t with
  | DEFAULT => EmptyString
  | PRIMARY => "A"
  | SECONDARY => "B"
  | BOTH => "A+B"
  end.

(** The members of [const.FixupVars] this module touches, and the plain
    fixup name ['indicator_name'] of a toggle instance. *)
Inductive FixupVars : Type :=
  | TIM_ENABLED | TIM_DELAY | CONN_COUNT | CONN_COUNT_TBEAM | INDICATOR_NAME.

Global Instance FixupVars_eq_dec : EqDecision FixupVars.
Proof. solve_decision. Defined.

Definition FixupVars_code (v : FixupVars) : nat :=
  match v with
  | TIM_ENABLED => 0 | TIM_DELAY => 1 | CONN_COUNT => 2
  | CONN_COUNT_TBEAM => 3 | INDICATOR_NAME => 4
  end.

Definition FixupVars_decode (n : nat) : option FixupVars :=
  match n with
  | 0 => Some TIM_ENABLED | 1 => Some TIM_DELAY | 2 => Some CONN_COUNT
  | 3 => Some CONN_COUNT_TBEAM | 4 => Some INDICATOR_NAME | _ => None
  end.

Global Instance FixupVars_countable : Countable FixupVars.
Proof.
  apply (inj_countable FixupVars_code FixupVars_decode).
  intros []; reflexivity.
Defined.

(** ** What the module imports

    Library functions and constants of the other modules, taken as they
    are: the theorems hold whatever they compute. *)
Record Externals : Type := mkExternals {
  (* str.casefold *)
  casefold : string -> string;
  (* srctools.Output.parse_name: 'instance:name;Command' to a pair *)
  parse_name : string -> option string * string;
  (* srctools conversions behind fixup.bool(), fixup.int() and the
     string stored by an assignment of a bool or an int *)
  conv_bool : string -> bool;
  conv_int : string -> Z;
  kv_bool : bool -> string;
  kv_int : Z -> string;
  (* instanceLocs.resolve_one('[indPanTimer]'), ('[indPanCheck]') *)
  panel_timer : string;
  panel_check : string;
  (* conditions.TBEAM_CONN_ACT, TBEAM_CONN_DEACT and the in_act, in_deact
     of conditions.CONNECTIONS['item_tbeam'] *)
  TBEAM_CONN_ACT : option string * string;
  TBEAM_CONN_DEACT : option string * string;
  tbeam_in_act : option string * string;
  tbeam_in_deact : option string * string;
  (* the ten const.Signage shape materials, in map order *)
  SIGN_ORDER : list string;
}.

(** ** Item types *)

(** A configuration block, used as a mapping from (case-folded) key to
    value, with the name of the block as it was written. *)
Record Property : Type := mkProperty {
  real_name : string;
  children : gmap string string;
}.

(** [conf[key, default]] *)
Definition conf_get (E : Externals) (conf : Property) (key default : string)
  : string :=
  match children conf !! casefold E key with
  | Some v => v
  | None => default
  end.

(** [conf[key]]: raises when the key is absent. *)
Definition conf_index (E : Externals) (conf : Property) (key : string)
  : result string :=
  match children conf !! casefold E key with
  | Some v => ok v
  | None => raise (IndexError key)
  end.

(** [key in conf] *)
Definition conf_contains (E : Externals) (conf : Property) (key : string)
  : bool :=
  bool_decide (is_Some (children conf !! casefold E key)).

Module ItemType.


Definition Cmd : Type := (option string * string)%type.

(** Represents an item, with inputs and outputs. *)
Record t : Type := mk {
  id : string;
  default_dual : option ConnType;
  invert_var : string;
  enable_cmd : Cmd;
  disable_cmd : Cmd;
  sec_invert_var : option string;
  sec_enable_cmd : option Cmd;
  sec_disable_cmd : option Cmd;
  output_type : ConnType;
}.

Definition invalid_default_msg (name tok : string) : string :=
  "Invalid default type for " +:+ dquote +:+ name +:+ dquote +:+ ": " +:+ tok.

Definition invalid_affinity_msg (name tok : string) : string :=
  "Invalid output affinity for " +:+ dquote +:+ name +:+ dquote +:+ ": " +:+ tok.

(** The [try] around [ConnType(conf['default_dual', 'default'].casefold())]
    and its handler. *)
Definition parse_default_dual (E : Externals) (conf : Property)
  : result ConnType :=
  match ConnType_of_value
          (casefold E (conf_get E conf "default_dual" "default")) with
  | Some t => ok t
  | None =>
      tok ← conf_index E conf "default_dual";
      raise (ValueError (invalid_default_msg (real_name conf) tok))
  end.

(** The [try] around [ConnType(conf['DualType', 'default'].casefold())]
    and its handler, which formats [conf['default_dual']]. *)
Definition parse_output_type (E : Externals) (conf : Property)
  : result ConnType :=
  match ConnType_of_value
          (casefold E (conf_get E conf "DualType" "default")) with
  | Some t => ok t
  | None =>
      tok ← conf_index E conf "default_dual";
      raise (ValueError (invalid_affinity_msg (real_name conf) tok))
  end.

(** [ItemType.parse]: read the item type info from the given config. *)
Definition parse (E : Externals) (conf : Property) : result t :=
  let enable_cmd :=
    parse_name E (conf_get E conf "sec_enable_cmd" EmptyString) in
  let disable_cmd :=
    parse_name E (conf_get E conf "sec_disable_cmd" EmptyString) in
  let has_sec := conf_contains E conf "sec_enable_cmd"
                 || conf_contains E conf "sec_disable_cmd" in
  let invert_var := conf_get E conf "invertVar" "0" in
  sec ← (if has_sec then
           (let sec_enable_cmd :=
              parse_name E (conf_get E conf "sec_enable_cmd" EmptyString) in
            let sec_disable_cmd :=
              parse_name E (conf_get E conf "sec_disable_cmd" EmptyString) in
            default_dual ← parse_default_dual E conf;
            let sec_invert_var := conf_get E conf "sec_invertVar" "0" in
            ok (Some sec_enable_cmd, Some sec_disable_cmd,
                Some default_dual, Some sec_invert_var))
         else ok (None, None, None, None));
  let '(sec_enable_cmd, sec_disable_cmd, default_dual, sec_invert_var) := sec in
  output_type ← parse_output_type E conf;
  ok (mk (real_name conf) default_dual invert_var
        enable_cmd disable_cmd
        sec_invert_var sec_enable_cmd sec_disable_cmd output_type).

End ItemType.

(** ** Dicts in insertion order *)

Section Dict.
Context {K V : Type} `{EqDecision K}.

(** [d[k]], [None] for a missing key *)
Fixpoint dict_get (d : list (K * V)) (k : K) : option V :=
  match d with
  | [] => None
  | (k', v) :: d' => if decide (k = k') then Some v else dict_get d' k
  end.

(** [d[k] = v]: a key already present keeps its place, a new key goes
    last. *)
Fixpoint dict_set (k : K) (v : V) (d : list (K * V)) : list (K * V) :=
  match d with
  | [] => [(k, v)]
  | (k', v') :: d' =>
      if decide (k = k') then (k, v) :: d' else (k', v') :: dict_set k v d'
  end.

Definition dict_keys (d : list (K * V)) : list K := d.*1.
Definition dict_values (d : list (K * V)) : list V := d.*2.

End Dict.

(** [d[k].append(x)] on a [defaultdict(list)] *)
Definition dict_append {K A} `{EqDecision K} (k : K) (x : A)
    (d : list (K * list A)) : list (K * list A) :=
  dict_set k (default [] (dict_get d k) ++ [x]) d.

(** [enumerate(l)], counting from [n] *)
Fixpoint enumerate_from {A} (n : nat) (l : list A) : list (nat * A) :=
  match l with
  | [] => []
  | x :: l' => (n, x) :: enumerate_from (S n) l'
  end.

Definition enumerate {A} (l : list A) : list (nat * A) := enumerate_from 0 l.

(** ** Objects of the map *)

Module Output.

(** The fields of a [srctools.Output] this module reads. *)
Record t : Type := mk {
  target : string;
  inst_in : option string;
  input : string;
}.

End Output.

Module Entity.

(** A map entity: keyvalues, instance fixups and outputs, with what
    [instance_traits] answers for it. *)
Record t : Type := mk {
  keys : gmap string string;
  fixup : gmap FixupVars string;
  outputs : list Output.t;
  traits : gset string;
  item_id : string;
}.

Definition empty : t := mk ∅ ∅ [] ∅ EmptyString.

(** [ent[key]]: the empty string when the key is absent *)
Definition get (e : t) (key : string) : string :=
  default EmptyString (keys e !! key).

(** [ent[key] = value] *)
Definition set (key value : string) (e : t) : t :=
  mk (<[key := value]> (keys e)) (fixup e) (outputs e) (traits e) (item_id e).

(** [del ent[key]] *)
Definition del (key : string) (e : t) : t :=
  mk (delete key (keys e)) (fixup e) (outputs e) (traits e) (item_id e).

(** [ent.fixup[var]]: the empty string when the variable is absent *)
Definition fixup_get (e : t) (var : FixupVars) : string :=
  default EmptyString (fixup e !! var).

(** [ent.fixup.bool(var)], [False] when the variable is absent *)
Definition fixup_bool (E : Externals) (e : t) (var : FixupVars) : bool :=
  match fixup e !! var with
  | Some v => conv_bool E v
  | None => false
  end.

(** [ent.fixup.int(var)], [0] when the variable is absent *)
Definition fixup_int (E : Externals) (e : t) (var : FixupVars) : Z :=
  match fixup e !! var with
  | Some v => conv_int E v
  | None => 0%Z
  end.

(** [ent.fixup[var] = value] *)
Definition fixup_set (var : FixupVars) (value : string) (e : t) : t :=
  mk (keys e) (<[var := value]> (fixup e)) (outputs e) (traits e) (item_id e).

(** [var in ent.fixup] *)
Definition fixup_has (e : t) (var : FixupVars) : bool :=
  bool_decide (is_Some (fixup e !! var)).

End Entity.

Global Instance Entity_inhabited : Inhabited Entity.t := populate Entity.empty.

Module ShapeSignage.

(** Represents a pair of signage shapes.  [overlays] holds references
    into the overlay store, [overlay_frames] the frame entities made for
    the shape. *)
Record t : Type := mk {
  overlays : list nat;
  name : string;
  index : nat;
  repeat_group : nat;
  overlay_frames : list Entity.t;
}.

Definition empty : t := mk [] EmptyString 0 0 [].

Definition set_repeat_group (n : nat) (s : t) : t :=
  mk (overlays s) (name s) (index s) n (overlay_frames s).

Definition add_frame (frame : Entity.t) (s : t) : t :=
  mk (overlays s) (name s) (index s) (repeat_group s)
     (overlay_frames s ++ [frame]).

End ShapeSignage.

Global Instance ShapeSignage_inhabited : Inhabited ShapeSignage.t :=
  populate ShapeSignage.empty.

Module Item.

(** Represents one item/instance with IO.  [inst], [ind_panels] and
    [ind_toggle] are references to instances, [antlines] to overlays,
    [inputs] and [outputs] to connections. *)
Record t : Type := mk {
  inst : nat;
  item_type : ItemType.t;
  ind_panels : gset nat;
  ind_toggle : option nat;
  antlines : gset nat;
  shape_signs : list nat;
  timer : option Z;
  outputs : gset nat;
  inputs : gset nat;
}.

(** [Item(inst, item_type)] with the default arguments. *)
Definition new (inst : nat) (item_type : ItemType.t) : t :=
  mk inst item_type ∅ None ∅ [] None ∅ ∅.

Definition set_ind_panels (x : gset nat) (i : t) : t :=
  mk (inst i) (item_type i) x (ind_toggle i) (antlines i)
     (shape_signs i) (timer i) (outputs i) (inputs i).

Definition set_antlines (x : gset nat) (i : t) : t :=
  mk (inst i) (item_type i) (ind_panels i) (ind_toggle i) x
     (shape_signs i) (timer i) (outputs i) (inputs i).

Definition set_timer (x : option Z) (i : t) : t :=
  mk (inst i) (item_type i) (ind_panels i) (ind_toggle i) (antlines i)
     (shape_signs i) x (outputs i) (inputs i).

Definition set_outputs (x : gset nat) (i : t) : t :=
  mk (inst i) (item_type i) (ind_panels i) (ind_toggle i) (antlines i)
     (shape_signs i) (timer i) x (inputs i).

Definition set_inputs (x : gset nat) (i : t) : t :=
  mk (inst i) (item_type i) (ind_panels i) (ind_toggle i) (antlines i)
     (shape_signs i) (timer i) (outputs i) x.

End Item.

Module Connection.

(** Represents a connection between two items: [inp] is the item this is
    triggering, [out] the item this comes from. *)
Record t : Type := mk {
  inp : nat;
  out : nat;
  type : ConnType;
  outputs : list Output.t;
}.

Definition set_inp (x : nat) (c : t) : t := mk x (out c) (type c) (outputs c).
Definition set_out (x : nat) (c : t) : t := mk (inp c) x (type c) (outputs c).

End Connection.

(** The two object stores a connection's methods work on: a reference is
    a position in its store. *)
Record Graph : Type := mkGraph {
  items : list Item.t;
  conns : list Connection.t;
}.

Definition empty_graph : Graph := mkGraph [] [].

(** An [Item(...)] call: the new object and its reference. *)
Definition alloc_item (it : Item.t) (g : Graph) : Graph * nat :=
  (mkGraph (items g ++ [it]) (conns g), length (items g)).

(** A [Connection(...)] call. *)
Definition alloc_conn (c : Connection.t) (g : Graph) : Graph * nat :=
  (mkGraph (items g) (conns g ++ [c]), length (conns g)).

(** [Connection.add]: add this to the directories. *)
Definition Connection_add (c : nat) (g : Graph) : Graph :=
  match conns g !! c with
  | None => g
  | Some self =>
      let items1 :=
        alter (fun i => Item.set_inputs ({[c]} ∪ Item.inputs i) i)
              (Connection.inp self) (items g) in
      let items2 :=
        alter (fun i => Item.set_outputs ({[c]} ∪ Item.outputs i) i)
              (Connection.out self) items1 in
      mkGraph items2 (conns g)
  end.

(** [Connection.remove]: remove this from the directories. *)
Definition Connection_remove (c : nat) (g : Graph) : Graph :=
  match conns g !! c with
  | None => g
  | Some self =>
      let items1 :=
        alter (fun i => Item.set_inputs (Item.inputs i ∖ {[c]}) i)
              (Connection.inp self) (items g) in
      let items2 :=
        alter (fun i => Item.set_outputs (Item.outputs i ∖ {[c]}) i)
              (Connection.out self) items1 in
      mkGraph items2 (conns g)
  end.

(** [Connection.set_item]: set the input or output used for this item. *)
Definition Connection_set_item (c : nat) (input output : option nat)
    (g : Graph) : Graph :=
  let g1 := Connection_remove c g in
  let conns2 :=
    match input with
    | Some i => alter (Connection.set_inp i) c (conns g1)
    | None => conns g1
    end in
  let conns3 :=
    match output with
    | Some o => alter (Connection.set_out o) c conns2
    | None => conns2
    end in
  Connection_add c (mkGraph (items g1) conns3).

Definition ItemType_empty : ItemType.t :=
  ItemType.mk EmptyString None EmptyString (None, EmptyString)
    (None, EmptyString) None None None DEFAULT.

Global Instance Item_inhabited : Inhabited Item.t :=
  populate (Item.new 0 ItemType_empty).

Global Instance Connection_inhabited : Inhabited Connection.t :=
  populate (Connection.mk 0 0 DEFAULT []).

(** [item.name]: the targetname of the item's instance. *)
Definition Item_name (insts : list Entity.t) (i : Item.t) : string :=
  Entity.get (insts !!! Item.inst i) "targetname".

(** [item.traits] *)
Definition Item_traits (insts : list Entity.t) (i : Item.t) : gset string :=
  Entity.traits (insts !!! Item.inst i).

(** ** [calc_connections] *)

(** The map file: the entities of the two classes the pass iterates, in
    the order the iteration yields them. *)
Record VMF : Type := mkVMF {
  func_instance : list Entity.t;
  info_overlay : list Entity.t;
}.

(** *** Matching targetnames to item types *)

Record Scan : Type := mkScan {
  toggles : gmap string nat;
  panels : gmap string nat;
  scan_graph : Graph;
  scan_ITEMS : list (string * nat);
}.

Definition no_connections_msg (item_id : string) : string :=
  "No connections for item " +:+ dquote +:+ item_id +:+ dquote
  +:+ ", but connections in the map!".

(** The body of the loop over [vmf.by_class['func_instance']]; [i] is the
    reference of [inst]. *)
Definition scan_instance (E : Externals) (ITEM_TYPES : gmap string ItemType.t)
    (ie : nat * Entity.t) (sc : Scan) : result Scan :=
  let '(i, inst) := ie in
  let inst_name := Entity.get inst "targetname" in
  if decide (inst_name = EmptyString) then ok sc
  else if decide ("indicator_toggle" ∈ Entity.traits inst) then
    ok (mkScan (<[inst_name := i]> (toggles sc)) (panels sc)
               (scan_graph sc) (scan_ITEMS sc))
  else if decide ("indicator_panel" ∈ Entity.traits inst) then
    ok (mkScan (toggles sc) (<[inst_name := i]> (panels sc))
               (scan_graph sc) (scan_ITEMS sc))
  else
    match ITEM_TYPES !! casefold E (Entity.item_id inst) with
    | None => raise (ValueError (no_connections_msg (Entity.item_id inst)))
    | Some item_type =>
        let '(g, r) := alloc_item (Item.new i item_type) (scan_graph sc) in
        ok (mkScan (toggles sc) (panels sc) g
                   (dict_set inst_name r (scan_ITEMS sc)))
    end.

(** The module starts with [ITEMS = {}]. *)
Definition scan_start : Scan := mkScan ∅ ∅ empty_graph [].

Definition scan_instances (E : Externals) (ITEM_TYPES : gmap string ItemType.t)
    (insts : list Entity.t) : result Scan :=
  for_each (scan_instance E ITEM_TYPES) (enumerate insts) scan_start.

(** *** Overlays: antlines and signage shapes *)

(** [SIGN_ORDER_LOOKUP]: sign to its index in [SIGN_ORDER]. *)
Definition SIGN_ORDER_LOOKUP (E : Externals) : list (string * nat) :=
  foldl (fun d '(index, sign) => dict_set sign index d) []
        (enumerate (SIGN_ORDER E)).

Record Overlays : Type := mkOverlays {
  overlays : gmap string (gset nat);
  sign_shape_overlays : list ((string * string) * list nat);
}.

(** The body of the loop over [vmf.by_class['info_overlay']]. *)
Definition scan_overlay (E : Externals) (acc : Overlays)
    (io : nat * Entity.t) : Overlays :=
  let '(i, over) := io in
  let name := Entity.get over "targetname" in
  let mat := Entity.get over "material" in
  if decide (is_Some (dict_get (SIGN_ORDER_LOOKUP E) mat)) then
    mkOverlays (overlays acc)
      (dict_append (name, casefold E mat) i (sign_shape_overlays acc))
  else
    mkOverlays
      (<[name := default ∅ (overlays acc !! name) ∪ {[i]}]> (overlays acc))
      (sign_shape_overlays acc).

Definition scan_overlays (E : Externals) (overs : list Entity.t) : Overlays :=
  foldl (scan_overlay E) (mkOverlays ∅ []) (enumerate overs).

(** [ShapeSignage(overlays)]: the new object and the overlay store after
    the targetnames were deleted. *)
Definition ShapeSignage_new (E : Externals) (overs : list nat)
    (store : list Entity.t) : result (ShapeSignage.t * list Entity.t) :=
  match overs with
  | [] => raise (ValueError "No overlays")
  | first :: _ =>
      let name := Entity.get (store !!! first) "targetname" in
      let mat := Entity.get (store !!! first) "material" in
      match dict_get (SIGN_ORDER_LOOKUP E) mat with
      | None => raise (KeyError mat)
      | Some index =>
          ok (ShapeSignage.mk overs name index 0 [],
              foldl (fun st o => alter (Entity.del "targetname") o st)
                    store overs)
      end
  end.

Record Signs : Type := mkSigns {
  sign_overlays : list Entity.t;          (* the overlay store *)
  shapes : list ShapeSignage.t;           (* the ShapeSignage store *)
  sign_shapes : list (string * list nat);
  sign_shape_by_index : list (nat * list nat);
}.

(** The body of the loop over [sign_shape_overlays.items()]. *)
Definition make_shape (E : Externals)
    (entry : (string * string) * list nat) (sg : Signs) : result Signs :=
  let '((name, mat), sign_pair) := entry in
  '(shape, store) ← ShapeSignage_new E sign_pair (sign_overlays sg);
  let r := length (shapes sg) in
  ok (mkSigns store (shapes sg ++ [shape])
        (dict_append name r (sign_shapes sg))
        (dict_append (ShapeSignage.index shape) r (sign_shape_by_index sg))).

Definition make_shapes (E : Externals) (overs : list Entity.t)
    (ov : Overlays) : result Signs :=
  for_each (make_shape E) (sign_shape_overlays ov) (mkSigns overs [] [] []).

(** *** Building the connections and items *)

(** [inputs]: the outputs of an instance grouped by target, in the order
    the targets first appear. *)
Definition group_outputs (outs : list Output.t)
  : list (string * list Output.t) :=
  foldl (fun inputs out => dict_append (Output.target out) out inputs) [] outs.

(** Fizzler base to model/brush outputs. *)
Definition is_model_or_brush (out_name : string) : bool :=
  endswith out_name "_modelStart" || endswith out_name "_modelEnd"
  || endswith out_name "_brush".

Definition unknown_instance_msg (out_name : string) : string :=
  dquote +:+ out_name +:+ dquote +:+ " is not a known instance!".

(** The timer a panel gives the item. *)
Definition panel_timer_value (E : Externals) (pan : Entity.t) : option Z :=
  if Entity.fixup_bool E pan TIM_ENABLED then
    let tim := Entity.fixup_int E pan TIM_DELAY in
    if (1 <=? tim)%Z && (tim <=? 30)%Z then Some tim else None
  else None.

(** The body of the loop [for out_name in inputs], on the item and the
    list [input_items]. *)
Definition link_target (E : Externals) (sc : Scan) (ov : Overlays)
    (insts : list Entity.t) (out_name : string)
    (acc : Item.t * list nat) : result (Item.t * list nat) :=
  let '(item, input_items) := acc in
  if is_model_or_brush out_name then ok acc
  else
    match toggles sc !! out_name with
    | Some inst_toggle =>
        let ind := Entity.fixup_get (insts !!! inst_toggle) INDICATOR_NAME in
        ok (Item.set_antlines
              (Item.antlines item ∪ default ∅ (overlays ov !! ind)) item,
            input_items)
    | None =>
        match panels sc !! out_name with
        | Some pan =>
            ok (Item.set_timer (panel_timer_value E (insts !!! pan))
                  (Item.set_ind_panels (Item.ind_panels item ∪ {[pan]}) item),
                input_items)
        | None =>
            match dict_get (scan_ITEMS sc) out_name with
            | Some r => ok (item, input_items ++ [r])
            | None => raise (ValueError (unknown_instance_msg out_name))
            end
        end
    end.

(** What the loop over [item.ind_panels] does to one panel. *)
Definition reconcile_panel (E : Externals) (timer : option Z)
    (pan : Entity.t) : Entity.t :=
  let desired_panel_inst :=
    match timer with None => panel_check E | Some _ => panel_timer E end in
  Entity.fixup_set TIM_ENABLED (kv_bool E (bool_decide (timer ≠ None)))
    (Entity.set "file" desired_panel_inst pan).

Definition reconcile_panels (E : Externals) (item : Item.t)
    (insts : list Entity.t) : list Entity.t :=
  foldr (fun pan st => alter (reconcile_panel E (Item.timer item)) pan st)
        insts (elements (Item.ind_panels item)).

Definition tbeam_polarity (E : Externals) : gset (option string * string) :=
  {[ TBEAM_CONN_ACT E; TBEAM_CONN_DEACT E ]}.

Definition tbeam_io (E : Externals) : gset (option string * string) :=
  {[ tbeam_in_act E; tbeam_in_deact E ]}.

(** The [for out in in_outputs] loop of a funnel: the type at the
    [break], [None] when the loop runs to its [else]. *)
Fixpoint funnel_type (E : Externals) (in_outputs : list Output.t)
  : option ConnType :=
  match in_outputs with
  | [] => None
  | out :: rest =>
      let input_tuple := (Output.inst_in out, Output.input out) in
      if decide (input_tuple ∈ tbeam_polarity E) then Some TBEAM_DIR
      else if decide (input_tuple ∈ tbeam_io E) then Some TBEAM_IO
      else funnel_type E rest
  end.

Definition funnel_msg (name : string) : string :=
  "Excursion Funnel " +:+ dquote +:+ name +:+ dquote
  +:+ " has inputs, but no valid types!".

(** The connection type for the outputs to one target item. *)
Definition conn_type_of (E : Externals) (traits : gset string)
    (name : string) (in_outputs : list Output.t) : result ConnType :=
  if decide ("tbeam_emitter" ∈ traits) then
    match funnel_type E in_outputs with
    | Some t => ok t
    | None => raise (ValueError (funnel_msg name))
    end
  else ok DEFAULT.

(** The body of the loop [for inp_item in input_items]; [item] is the
    reference of the item whose outputs are read. *)
Definition connect_input (E : Externals)
    (inputs : list (string * list Output.t)) (insts : list Entity.t)
    (item : nat) (inp_item : nat) (g : Graph) : result Graph :=
  let target := items g !!! inp_item in
  let in_outputs := default [] (dict_get inputs (Item_name insts target)) in
  conn_type ← conn_type_of E (Item_traits insts target)
                 (Item_name insts target) in_outputs;
  let '(g1, conn) :=
    alloc_conn (Connection.mk inp_item item conn_type in_outputs) g in
  ok (Connection_add conn g1).

(** The body of the loop [for item in ITEMS.values()] that builds the
    connections, on the instance store and the graph. *)
Definition build_item (E : Externals) (sc : Scan) (ov : Overlays)
    (r : nat) (st : list Entity.t * Graph) : result (list Entity.t * Graph) :=
  let '(insts, g) := st in
  let item := items g !!! r in
  let inputs := group_outputs (Entity.outputs (insts !!! Item.inst item)) in
  '(item1, input_items) ←
    for_each (link_target E sc ov insts) (dict_keys inputs) (item, []);
  let g1 := mkGraph (<[r := item1]> (items g)) (conns g) in
  let insts1 := reconcile_panels E item1 insts in
  g2 ← for_each (connect_input E inputs insts1 r) input_items g1;
  ok (insts1, g2).

Definition build_items (E : Externals) (sc : Scan) (ov : Overlays)
    (insts : list Entity.t) : result (list Entity.t * Graph) :=
  for_each (build_item E sc ov) (dict_values (scan_ITEMS sc))
           (insts, scan_graph sc).

(** *** Connection counts *)

(** [sum(1 for conn in item.inputs if keep(conn.type))] *)
Definition count_inputs (g : Graph) (item : Item.t)
    (keep : ConnType -> bool) : nat :=
  length (filter (fun c => keep (Connection.type (conns g !!! c)) = true)
                 (elements (Item.inputs item))).

Definition not_tbeam_dir (t : ConnType) : bool := negb (bool_decide (t = TBEAM_DIR)).
Definition is_tbeam_dir (t : ConnType) : bool := bool_decide (t = TBEAM_DIR).

(** The body of the loop that corrects the connection counts. *)
Definition fix_counts (E : Externals) (g : Graph)
    (insts : list Entity.t) (r : nat) : list Entity.t :=
  let item := items g !!! r in
  let i := Item.inst item in
  let insts1 :=
    if Entity.fixup_has (insts !!! i) CONN_COUNT then
      alter (Entity.fixup_set CONN_COUNT
               (kv_int E (Z.of_nat (count_inputs g item not_tbeam_dir))))
            i insts
    else insts in
  if Entity.fixup_has (insts1 !!! i) CONN_COUNT_TBEAM then
    alter (Entity.fixup_set CONN_COUNT_TBEAM
             (kv_int E (Z.of_nat (count_inputs g item is_tbeam_dir))))
          i insts1
  else insts1.

Definition fix_all_counts (E : Externals) (g : Graph)
    (ITEMS : list (string * nat)) (insts : list Entity.t) : list Entity.t :=
  foldl (fix_counts E g) insts (dict_values ITEMS).

(** *** Signage frames *)

(** [list.sort(key=lambda shape: shape.name)]: a stable sort of shape
    references by the name of the shape. *)
Fixpoint insert_by_name (store : list ShapeSignage.t) (x : nat)
    (l : list nat) : list nat :=
  match l with
  | [] => [x]
  | y :: l' =>
      if String.leb (ShapeSignage.name (store !!! x))
                    (ShapeSignage.name (store !!! y))
      then x :: l
      else y :: insert_by_name store x l'
  end.

Definition sort_by_name (store : list ShapeSignage.t) (l : list nat)
  : list nat :=
  foldr (insert_by_name store) [] l.

(** The frame made for one overlay of a shape. *)
Definition make_frame (E : Externals) (frame_mat : string)
    (overlay : Entity.t) : Entity.t :=
  Entity.set "renderorder" (kv_int E 1)
    (Entity.set "material" frame_mat overlay).

Record Framing : Type := mkFraming {
  fr_shapes : list ShapeSignage.t;
  fr_by_index : list (nat * list nat);
  fr_added : list Entity.t;               (* vmf.add_ent *)
}.

(** The body of [for index, shape in enumerate(shape_mat)]. *)
Definition frame_shape (E : Externals) (shape_frame_tex : list string)
    (overs : list Entity.t) (st : list ShapeSignage.t * list Entity.t)
    (ix : nat * nat) : list ShapeSignage.t * list Entity.t :=
  let '(index, shape) := ix in
  let '(store, added) := st in
  let store1 := alter (ShapeSignage.set_repeat_group index) shape store in
  if decide (index = 0) then (store1, added)
  else
    let frame_mat :=
      shape_frame_tex !!! ((index - 1) mod length shape_frame_tex) in
    foldl (fun '(store2, added2) overlay =>
             let frame := make_frame E frame_mat (overs !!! overlay) in
             (alter (ShapeSignage.add_frame frame) shape store2,
              added2 ++ [frame]))
          (store1, added)
          (ShapeSignage.overlays (store1 !!! shape)).

(** The body of [for shape_mat in sign_shape_by_index.values()], with
    the sorted list put back under its index. *)
Definition frame_group (E : Externals) (shape_frame_tex : list string)
    (overs : list Entity.t) (fr : Framing) (entry : nat * list nat)
  : Framing :=
  let '(idx, shape_mat) := entry in
  let sorted := sort_by_name (fr_shapes fr) shape_mat in
  let '(store, added) :=
    foldl (frame_shape E shape_frame_tex overs)
          (fr_shapes fr, fr_added fr) (enumerate sorted) in
  mkFraming store (dict_set idx sorted (fr_by_index fr)) added.

Definition make_frames (E : Externals) (shape_frame_tex : list string)
    (enable_shape_frame : bool) (sg : Signs) : Framing :=
  let start := mkFraming (shapes sg) (sign_shape_by_index sg) [] in
  let shape_frame_tex :=
    filter (fun mat => mat ≠ EmptyString) shape_frame_tex in
  if negb (bool_decide (shape_frame_tex = [])) && enable_shape_frame then
    foldl (frame_group E shape_frame_tex (sign_overlays sg)) start
          (sign_shape_by_index sg)
  else start.

(** *** The whole pass *)

(** What the pass leaves behind: the map's entities, the entities added
    to the map, the item and connection objects with the [ITEMS] dict,
    and the signage shapes by name and by index. *)
Record State : Type := mkState {
  st_func_instance : list Entity.t;
  st_info_overlay : list Entity.t;
  st_added : list Entity.t;
  st_graph : Graph;
  ITEMS : list (string * nat);
  st_shapes : list ShapeSignage.t;
  st_sign_shapes : list (string * list nat);
  st_by_index : list (nat * list nat);
}.

(** [calc_connections]: compute item connections from the map file. *)
Definition calc_connections (E : Externals)
    (ITEM_TYPES : gmap string ItemType.t) (vmf : VMF)
    (shape_frame_tex : list string) (enable_shape_frame : bool)
  : result State :=
  sc ← scan_instances E ITEM_TYPES (func_instance vmf);
  let ov := scan_overlays E (info_overlay vmf) in
  sg ← make_shapes E (info_overlay vmf) ov;
  '(insts, g) ← build_items E sc ov (func_instance vmf);
  let insts1 := fix_all_counts E g (scan_ITEMS sc) insts in
  let fr := make_frames E shape_frame_tex enable_shape_frame sg in
  ok (mkState insts1 (sign_overlays sg) (fr_added fr) g (scan_ITEMS sc)
        (fr_shapes fr) (sign_shapes sg) (fr_by_index fr)).

(** ** A concrete instance of the imports

    Used by the examples: ASCII case folding, the
    ['instance:name;Command'] syntax of [parse_name], decimal fixups. *)

Definition ascii_fold (c : ascii) : ascii :=
  let n := nat_of_ascii c in
  if (65 <=? n) && (n <=? 90) then ascii_of_nat (n + 32) else c.

Fixpoint ascii_casefold (s : string) : string :=
  match s with
  | EmptyString => EmptyString
  | String c s' => String (ascii_fold c) (ascii_casefold s')
  end.

(** [s.split(';', 1)] when [s] has a semicolon. *)
Fixpoint split_semicolon (s : string) : option (string * string) :=
  match s with
  | EmptyString => None
  | String c s' =>
      if Ascii.eqb c ";"%char then Some (EmptyString, s')
      else match split_semicolon s' with
           | Some (a, b) => Some (String c a, b)
           | None => None
           end
  end.

Definition instance_parse_name (name : string) : option string * string :=
  if String.prefix "instance:" name then
    match split_semicolon name with
    | Some (inst_part, command) =>
        (Some (String.substring 9 (String.length inst_part - 9) inst_part),
         command)
    | None => (None, name)
    end
  else (None, name).

Definition digit_value (c : ascii) : option Z :=
  let n := nat_of_ascii c in
  if (48 <=? n) && (n <=? 57) then Some (Z.of_nat (n - 48)) else None.

Fixpoint decimal_value (acc : Z) (s : string) : option Z :=
  match s with
  | EmptyString => Some acc
  | String c s' =>
      match digit_value c with
      | Some d => decimal_value (10 * acc + d)%Z s'
      | None => None
      end
  end.

Definition decimal_conv_int (s : string) : Z :=
  match s with
  | EmptyString => 0%Z
  | String "-"%char s' => default 0%Z (Z.opp <$> decimal_value 0 s')
  | _ => default 0%Z (decimal_value 0 s)
  end.

Definition simple_conv_bool (s : string) : bool :=
  bool_decide (ascii_casefold s ∈ ["1"; "yes"; "true"; "y"; "t"]).

Definition demo_externals : Externals :=
  mkExternals
    ascii_casefold instance_parse_name
    simple_conv_bool decimal_conv_int
    (fun b : bool => if b then "1" else "0") (fun z => pretty.pretty z)
    "instances/indicator_panel_timer.vmf"
    "instances/indicator_panel_check.vmf"
    (Some "instance:tbeam_polarity", "Trigger")
    (Some "instance:tbeam_polarity", "Untrigger")
    (Some "instance:tbeam_io", "Enable")
    (Some "instance:tbeam_io", "Disable")
    ["signage/shape01"; "signage/shape02"; "signage/shape03";
     "signage/shape04"; "signage/shape05"].

(** An entity written down as lists. *)
Definition entity (kv : list (string * string))
    (fixups : list (FixupVars * string)) (outs : list Output.t)
    (tr : list string) (item : string) : Entity.t :=
  Entity.mk (list_to_map kv) (list_to_map fixups) outs (list_to_set tr) item.

Definition config (name : string) (kv : list (string * string)) : Property :=
  mkProperty name (list_to_map kv).

(** ** Predicates and examples for item type parsing *)

(** A configuration with a secondary command. *)
Definition has_sec (E : Externals) (conf : Property) : bool :=
  conf_contains E conf "sec_enable_cmd" || conf_contains E conf "sec_disable_cmd".

(** The field [key] of the configuration holds the token [tok]. *)
Definition holds (E : Externals) (conf : Property) (key tok : string) : Prop :=
  children conf !! casefold E key = Some tok.

(** The token names none of the four connection types, also after case
    folding. *)
Definition invalid_token (E : Externals) (tok : string) : Prop :=
  ConnType_of_value (casefold E tok) = None.

Definition conf_button : Property :=
  config "ITEM_BUTTON"
    [("enable_cmd", "instance:relay;TurnOn");
     ("disable_cmd", "instance:relay;TurnOff")].

Definition conf_button_sec : Property :=
  config "ITEM_BUTTON"
    [("enable_cmd", "instance:relay;TurnOn");
     ("disable_cmd", "instance:relay;TurnOff");
     ("sec_enable_cmd", "instance:relay;SetB");
     ("sec_disable_cmd", "instance:relay;ClearB")].

Definition conf_unused_default : Property :=
  config "ITEM_CUBE" [("default_dual", "bogus")].

Definition conf_bad_default : Property :=
  config "ITEM_CUBE"
    [("sec_enable_cmd", "instance:relay;SetB"); ("default_dual", "Bogus")].

Definition conf_bad_affinity : Property :=
  config "ITEM_CUBE" [("default_dual", "primary"); ("dualtype", "bogus")].

(** ** The operations on connections as a transition system *)

(** The [inputs] and the [outputs] set of the item object at [i] (empty
    when there is no such object). *)
Definition inputs_of (g : Graph) (i : nat) : gset nat :=
  from_option Item.inputs ∅ (items g !! i).

Definition outputs_of (g : Graph) (i : nat) : gset nat :=
  from_option Item.outputs ∅ (items g !! i).

(** What a program does with items and connections: it creates them and
    calls the three methods of a connection. *)
Inductive op : Type :=
  | NewItem (it : Item.t)
  | NewConn (c : Connection.t)
  | Add (c : nat)
  | Remove (c : nat)
  | SetItem (c : nat) (input output : option nat).

Definition is_item_ref (g : Graph) (r : option nat) : Prop :=
  forall i, r = Some i -> i < length (items g).

(** The operation is well-formed in [g]: a new item starts with empty
    sets, as [Item.__init__] leaves it, and every reference is to an
    object that exists. *)
Definition op_ok (g : Graph) (o : op) : Prop :=
  match o with
  | NewItem it => Item.inputs it = ∅ /\ Item.outputs it = ∅
  | NewConn c =>
      Connection.inp c < length (items g) /\ Connection.out c < length (items g)
  | Add c | Remove c => c < length (conns g)
  | SetItem c input output =>
      c < length (conns g) /\ is_item_ref g input /\ is_item_ref g output
  end.

Definition run_op (o : op) (g : Graph) : Graph :=
  match o with
  | NewItem it => (alloc_item it g).1
  | NewConn c => (alloc_conn c g).1
  | Add c => Connection_add c g
  | Remove c => Connection_remove c g
  | SetItem c input output => Connection_set_item c input output g
  end.

Inductive reachable : Graph -> Prop :=
  | reach_empty : reachable empty_graph
  | reach_op g o : reachable g -> op_ok g o -> reachable (run_op o g).

(** Every connection in a set of an item is a connection of that item,
    registered on its other end as well. *)
Record registered (g : Graph) : Prop := mkRegistered {
  reg_inp : forall c conn,
    conns g !! c = Some conn -> Connection.inp conn < length (items g);
  reg_out : forall c conn,
    conns g !! c = Some conn -> Connection.out conn < length (items g);
  reg_inputs : forall i c,
    c ∈ inputs_of g i ->
    exists conn, conns g !! c = Some conn /\ Connection.inp conn = i
                 /\ c ∈ outputs_of g (Connection.out conn);
  reg_outputs : forall i c,
    c ∈ outputs_of g i ->
    exists conn, conns g !! c = Some conn /\ Connection.out conn = i
                 /\ c ∈ inputs_of g (Connection.inp conn);
}.

(** The connection [set_item] registers: [conn] with the endpoints that
    were given replaced. *)
Definition moved (conn : Connection.t) (input output : option nat)
  : Connection.t :=
  Connection.mk (default (Connection.inp conn) input)
                (default (Connection.out conn) output)
                (Connection.type conn) (Connection.outputs conn).

Definition demo_item (inst : nat) : Item.t := Item.new inst ItemType_empty.

(** Two items, a connection from the first to the second, added. *)
Definition demo_graph : Graph :=
  run_op (Add 0)
    (run_op (NewConn (Connection.mk 1 0 DEFAULT []))
       (run_op (NewItem (demo_item 1))
          (run_op (NewItem (demo_item 0)) empty_graph))).

(** ** Reading the outputs of an item *)

(** The pair a funnel output is recognised by. *)
Definition input_tuple (out : Output.t) : option string * string :=
  (Output.inst_in out, Output.input out).

(** An output a funnel knows: its pair is a polarity input or an on/off
    input. *)
Definition recognised (E : Externals) (out : Output.t) : Prop :=
  input_tuple out ∈ tbeam_polarity E \/ input_tuple out ∈ tbeam_io E.

(** The target names of an item's outputs that take the panel branch of
    the loop: no model or brush suffix, not the name of a toggle, the
    name of a panel. *)
Definition is_panel_link (sc : Scan) (out_name : string) : bool :=
  negb (is_model_or_brush out_name)
  && bool_decide (toggles sc !! out_name = None)
  && bool_decide (is_Some (panels sc !! out_name)).

(** The panel such a target name stands for. *)
Definition panel_of (sc : Scan) (out_name : string) : option nat :=
  if is_panel_link sc out_name then panels sc !! out_name else None.

(** The panels the loop over the target names reaches, in its order. *)
Definition linked_panels (sc : Scan) (out_names : list string) : list nat :=
  omap (panel_of sc) out_names.

(** The target names that reach the lookup in [ITEMS]. *)
Definition is_item_link (sc : Scan) (out_name : string) : bool :=
  negb (is_model_or_brush out_name)
  && bool_decide (toggles sc !! out_name = None)
  && bool_decide (panels sc !! out_name = None).

(** A target name that is nothing the pass knows. *)
Definition unknown_target (sc : Scan) (out_name : string) : Prop :=
  is_item_link sc out_name = true /\ dict_get (scan_ITEMS sc) out_name = None.

(** The target names of the outputs of an instance, in the order the
    loop [for out_name in inputs] visits them. *)
Definition out_names (inst : Entity.t) : list string :=
  dict_keys (group_outputs (Entity.outputs inst)).

(** Everything an item holds but its two sets of connections. *)
Definition same_fields (a b : Item.t) : Prop :=
  Item.inst a = Item.inst b /\ Item.item_type a = Item.item_type b
  /\ Item.ind_panels a = Item.ind_panels b
  /\ Item.ind_toggle a = Item.ind_toggle b
  /\ Item.antlines a = Item.antlines b
  /\ Item.shape_signs a = Item.shape_signs b
  /\ Item.timer a = Item.timer b.

(** What building the items never changes in an instance: its name, its
    outputs, what [instance_traits] knows of it, and its fixups other than
    the timer flag. *)
Definition same_instance (a b : Entity.t) : Prop :=
  Entity.get a "targetname" = Entity.get b "targetname"
  /\ Entity.outputs a = Entity.outputs b
  /\ Entity.traits a = Entity.traits b
  /\ Entity.item_id a = Entity.item_id b
  /\ forall var, var <> TIM_ENABLED ->
                 Entity.fixup a !! var = Entity.fixup b !! var.

(** A timer an item may have: none, or a delay from 1 to 30. *)
Definition valid_timer (t : option Z) : Prop :=
  match t with
  | None => True
  | Some tim => (1 <= tim <= 30)%Z
  end.

(** ** Example maps *)

(** What the examples look at in the result of the pass. *)
Definition result_conns (r : result State) : option (list Connection.t) :=
  match r with
  | inr st => Some (conns (st_graph st))
  | inl _ => None
  end.

Definition result_timers (r : result State)
  : option (list (string * option Z)) :=
  match r with
  | inr st =>
      Some ((fun '(name, i) => (name, Item.timer (items (st_graph st) !!! i)))
              <$> ITEMS st)
  | inl _ => None
  end.

Definition result_error {A} (r : result A) : option exn :=
  match r with
  | inr _ => None
  | inl e => Some e
  end.

Definition plain_type (name : string) : ItemType.t :=
  ItemType.mk name None "0" (None, EmptyString) (None, EmptyString)
    None None None DEFAULT.

Definition demo_types : gmap string ItemType.t :=
  {[ "item_button" := plain_type "ITEM_BUTTON";
     "item_tbeam" := plain_type "ITEM_TBEAM" ]}.

Definition named (name : string) : list (string * string) :=
  [("targetname", name)].

Definition out_io : Output.t :=
  Output.mk "funnel" (Some "instance:tbeam_io") "Enable".

Definition out_polarity : Output.t :=
  Output.mk "funnel" (Some "instance:tbeam_polarity") "Trigger".

(** A button whose outputs to a funnel are an on/off input first and a
    polarity input second. *)
Definition funnel_scene : VMF :=
  mkVMF
    [ entity (named "button") [] [out_io; out_polarity] [] "ITEM_BUTTON";
      entity (named "funnel") [] [] ["tbeam_emitter"] "ITEM_TBEAM" ]
    [].

(** A button wired to a panel without timer and then to a panel with a
    timer of five seconds. *)
Definition two_panel_scene : VMF :=
  mkVMF
    [ entity (named "button") []
        [Output.mk "panel_off" None "Trigger";
         Output.mk "panel_on" None "Trigger"] [] "ITEM_BUTTON";
      entity (named "panel_off") [(TIM_ENABLED, "0"); (TIM_DELAY, "0")] []
        ["indicator_panel"] EmptyString;
      entity (named "panel_on") [(TIM_ENABLED, "1"); (TIM_DELAY, "5")] []
        ["indicator_panel"] EmptyString ]
    [].

(** The item [reverser_1] with its timer panel, three seconds. *)
Definition reverser_scene : VMF :=
  mkVMF
    [ entity (named "reverser_1") []
        [Output.mk "reverser_1_timer" None "Trigger"] [] "ITEM_BUTTON";
      entity (("file", "instances/indicator_panel_check.vmf")
              :: named "reverser_1_timer")
        [(TIM_ENABLED, "1"); (TIM_DELAY, "3")] []
        ["indicator_panel"] EmptyString ]
    [].

(** A button with outputs to two names that nothing in the map has. *)
Definition ghost_scene : VMF :=
  mkVMF
    [ entity (named "button") []
        [Output.mk "ghost_a" None "Trigger";
         Output.mk "ghost_b" None "Trigger"] [] "ITEM_BUTTON" ]
    [].

(** Two buttons named [twin] and a third button wired to that name. *)
Definition twin_scene : VMF :=
  mkVMF
    [ entity (named "twin") [] [] [] "ITEM_BUTTON";
      entity (named "twin") [] [] [] "ITEM_BUTTON";
      entity (named "source") [] [Output.mk "twin" None "Trigger"] []
        "ITEM_BUTTON" ]
    [].

(** An instance the scan makes an item of: it has a name and is neither
    an indicator toggle nor an indicator panel. *)
Definition is_normal_item (inst : Entity.t) : Prop :=
  Entity.get inst "targetname" <> EmptyString
  /\ ("indicator_toggle" ∉ Entity.traits inst)
  /\ ("indicator_panel" ∉ Entity.traits inst).

(** The state of the scan after the instances [l]. *)
Record scanned (l : list Entity.t) (sc : Scan) : Prop := mkScanned {
  sc_toggles : forall n p, toggles sc !! n = Some p -> p < length l;
  sc_panels : forall n p, panels sc !! n = Some p -> p < length l;
  sc_conns : conns (scan_graph sc) = [];
  sc_fresh : Forall (fun it => exists i ty, it = Item.new i ty /\ i < length l)
                    (items (scan_graph sc));
  sc_keys : NoDup (dict_keys (scan_ITEMS sc));
  sc_values : NoDup (dict_values (scan_ITEMS sc));
  sc_items : forall n r,
    dict_get (scan_ITEMS sc) n = Some r ->
    exists it e,
      items (scan_graph sc) !! r = Some it /\ l !! Item.inst it = Some e
      /\ Entity.get e "targetname" = n /\ is_normal_item e;
  sc_inj : forall r1 r2 it1 it2,
    items (scan_graph sc) !! r1 = Some it1 ->
    items (scan_graph sc) !! r2 = Some it2 ->
    Item.inst it1 = Item.inst it2 -> r1 = r2;
  sc_last : forall k e,
    l !! k = Some e -> is_normal_item e ->
    exists r it,
      dict_get (scan_ITEMS sc) (Entity.get e "targetname") = Some r
      /\ items (scan_graph sc) !! r = Some it /\ k <= Item.inst it;
}.

(** The state of the loop that builds the items, after the items [done]
    of a map whose instances were [insts0] and whose scan gave [sc]. *)
Record built (insts0 : list Entity.t) (sc : Scan) (done : list nat)
    (insts : list Entity.t) (g : Graph) : Prop := mkBuilt {
  b_insts : Forall2 same_instance insts0 insts;
  b_inst : Forall2 (fun a b => Item.inst a = Item.inst b)
                   (items (scan_graph sc)) (items g);
  b_pending : forall r a b,
    r ∉ done -> items (scan_graph sc) !! r = Some a -> items g !! r = Some b ->
    same_fields a b;
  b_timers : Forall (fun it => valid_timer (Item.timer it)) (items g);
  b_conns : Forall (fun conn =>
                      Connection.inp conn ∈ dict_values (scan_ITEMS sc)
                      /\ Connection.out conn ∈ done) (conns g);
  b_panels : Forall (fun it => forall pan, pan ∈ Item.ind_panels it ->
                                           pan < length insts0) (items g);
}.

(** A button wired to a panel with a timer of three seconds and then to
    a panel without timer. *)
Definition timer_then_check_scene : VMF :=
  mkVMF
    [ entity (named "button") []
        [Output.mk "panel_on" None "Trigger";
         Output.mk "panel_off" None "Trigger"] [] "ITEM_BUTTON";
      entity (named "panel_on") [(TIM_ENABLED, "1"); (TIM_DELAY, "3")] []
        ["indicator_panel"] EmptyString;
      entity (named "panel_off") [(TIM_ENABLED, "0"); (TIM_DELAY, "0")] []
        ["indicator_panel"] EmptyString ]
    [].

(** The file of each instance after the pass. *)
Definition result_files (r : result State) : option (list string) :=
  match r with
  | inr st => Some ((fun e => Entity.get e "file") <$> st_func_instance st)
  | inl _ => None
  end.

(** The scan of an example map. *)
Definition scan_of (E : Externals) (T : gmap string ItemType.t) (vmf : VMF)
  : Scan :=
  match scan_instances E T (func_instance vmf) with
  | inr sc => sc
  | inl _ => scan_start
  end.

(** What the loop that corrects the counts does to the instance of an
    item. *)
Definition count_update (E : Externals) (g : Graph) (item : Item.t)
    (inst : Entity.t) : Entity.t :=
  let inst1 :=
    if Entity.fixup_has inst CONN_COUNT then
      Entity.fixup_set CONN_COUNT
        (kv_int E (Z.of_nat (count_inputs g item not_tbeam_dir))) inst
    else inst in
  if Entity.fixup_has inst1 CONN_COUNT_TBEAM then
    Entity.fixup_set CONN_COUNT_TBEAM
      (kv_int E (Z.of_nat (count_inputs g item is_tbeam_dir))) inst1
  else inst1.

(** What it does to the instance at [j] over the items [rs]: the update
    of the first item of [rs] whose instance that is. *)
Fixpoint counts_at (E : Externals) (g : Graph) (rs : list nat) (j : nat)
    (inst : Entity.t) : Entity.t :=
  match rs with
  | [] => inst
  | r :: rs' =>
      if decide (Item.inst (items g !!! r) = j)
      then count_update E g (items g !!! r) inst
      else counts_at E g rs' j inst
  end.



(** ** Signage shapes in order *)

(** The order [list.sort] puts names in, and its strict part. *)
Definition name_le (a b : string) : Prop := String.leb a b = true.
Definition name_lt (a b : string) : Prop := String.ltb a b = true.




(** The name of the shape at [r], and the strict order of shapes by
    name. *)
Definition shape_name (store : list ShapeSignage.t) (r : nat) : string :=
  ShapeSignage.name (store !!! r).

Definition before (store : list ShapeSignage.t) (a b : nat) : Prop :=
  name_lt (shape_name store a) (shape_name store b).

Global Instance before_dec store a b : Decision (before store a b).
Proof. unfold before, name_lt. apply _. Defined.

(** The overlays after the scan: the signs under one (name, material)
    key have that name and that material, case folded. *)
Record overlaid (E : Externals) (overs : list Entity.t) (ov : Overlays)
  : Prop := mkOverlaid {
  ov_keys : NoDup (dict_keys (sign_shape_overlays ov));
  ov_members : forall key l,
    dict_get (sign_shape_overlays ov) key = Some l ->
    l <> [] /\
    forall o, o ∈ l ->
      exists e, overs !! o = Some e
                /\ Entity.get e "targetname" = key.1
                /\ casefold E (Entity.get e "material") = key.2;
}.

(** The shape made for an entry of [sign_shape_overlays]. *)
Definition shape_of_entry (E : Externals)
    (entry : (string * string) * list nat) (s : ShapeSignage.t) : Prop :=
  ShapeSignage.name s = entry.1.1
  /\ ShapeSignage.overlays s = entry.2
  /\ ShapeSignage.repeat_group s = 0
  /\ ShapeSignage.overlay_frames s = []
  /\ exists mat, casefold E mat = entry.1.2
                 /\ dict_get (SIGN_ORDER_LOOKUP E) mat
                    = Some (ShapeSignage.index s).

(** The shapes after the entries [done] of [sign_shape_overlays]: one
    shape for each entry, and every shape in the list of its index. *)
Record shaping (E : Externals) (overs : list Entity.t)
    (done : list ((string * string) * list nat)) (sg : Signs) : Prop :=
  mkShaping {
  sh_shapes : Forall2 (shape_of_entry E) done (shapes sg);
  sh_store : forall o,
    (forall entry, entry ∈ done -> o ∉ entry.2) ->
    sign_overlays sg !! o = overs !! o;
  sh_keys : NoDup (dict_keys (sign_shape_by_index sg));
  sh_groups : forall idx l,
    dict_get (sign_shape_by_index sg) idx = Some l ->
    NoDup l /\
    forall r, r ∈ l ->
      r < length (shapes sg) /\ ShapeSignage.index (shapes sg !!! r) = idx;
  sh_complete : forall r,
    r < length (shapes sg) ->
    exists l, dict_get (sign_shape_by_index sg)
                (ShapeSignage.index (shapes sg !!! r)) = Some l
              /\ r ∈ l;
}.

(** Signs of one shape named [c], [d], [a] and [b], met in that order, and
    a sign of another shape. *)
Definition sign (name mat : string) : Entity.t :=
  entity [("targetname", name); ("material", mat); ("renderorder", "0")]
    [] [] [] EmptyString.




(** ** Reading the item types ([read_configs]) *)

Definition duplicate_type_msg (name : string) : string :=
  "Duplicate item type " +:+ dquote +:+ name +:+ dquote.

(** [prop.name]: the name of a block, case folded. *)
Definition Property_name (E : Externals) (prop : Property) : string :=
  casefold E (real_name prop).

(** The configuration tree [read_configs] is given: its blocks in file
    order, each with its name as written and the blocks inside it. *)
Definition Config : Type := list (string * list Property).

(** [conf.find_children(key)]: the children of every block of that name,
    in order. *)
Definition find_children (E : Externals) (conf : Config) (key : string)
  : list Property :=
  concat (snd <$> filter (fun b => casefold E b.1 = casefold E key) conf).

(** The body of the loop of [read_configs], on the dict [ITEM_TYPES]. *)
Definition read_config (E : Externals) (prop : Property)
    (ITEM_TYPES : gmap string ItemType.t) : result (gmap string ItemType.t) :=
  if decide (is_Some (ITEM_TYPES !! Property_name E prop)) then
    raise (ValueError (duplicate_type_msg (real_name prop)))
  else
    item_type ← ItemType.parse E prop;
    ok (<[Property_name E prop := item_type]> ITEM_TYPES).

(** [read_configs]: build the connection configuration from the config
    files. *)
Definition read_configs (E : Externals) (conf : Config)
    (ITEM_TYPES : gmap string ItemType.t) : result (gmap string ItemType.t) :=
  for_each (read_config E) (find_children E conf "Items") ITEM_TYPES.

(** The token a configuration gives for a type field, with the default
    the parser reads when the key is absent, and whether it names one of
    the four connection types. *)
Definition type_token (E : Externals) (conf : Property) (key : string)
  : string :=
  casefold E (conf_get E conf key "default").

Definition valid_type (E : Externals) (conf : Property) (key : string)
  : Prop :=
  is_Some (ConnType_of_value (type_token E conf key)).

(** A configuration whose output affinity is no type and which has no
    default-dual entry. *)
Definition conf_affinity_only : Property :=
  config "ITEM_CUBE" [("dualtype", "bogus")].

(** A configuration file with two [Items] blocks, written in different
    case, and a block of another name between them. *)
Definition conf_cube : Property := config "ITEM_CUBE" [("invertvar", "1")].

Definition conf_file : Config :=
  [ ("Items", [conf_button]);
    ("Options", [conf_bad_default]);
    ("items", [conf_cube]) ].

Definition conf_file_twice : Config :=
  [ ("Items", [conf_button; conf_cube]);
    ("ITEMS", [config "Item_Button" []]) ].

(** ** What a call on a connection leaves alone *)

(** From [g] to [g'] nothing changed but where the connection [c] is
    registered and where it leads: the items keep their other fields, the
    other connections their object and their places in the sets, and [c]
    its type and its outputs. *)
Definition only_moved (c : nat) (g g' : Graph) : Prop :=
  Forall2 same_fields (items g) (items g')
  /\ length (conns g') = length (conns g)
  /\ (forall c', c' <> c -> conns g' !! c' = conns g !! c')
  /\ Connection.type <$> conns g' !! c = Connection.type <$> conns g !! c
  /\ Connection.outputs <$> conns g' !! c = Connection.outputs <$> conns g !! c
  /\ forall c' i, c' <> c ->
       (c' ∈ inputs_of g' i <-> c' ∈ inputs_of g i)
       /\ (c' ∈ outputs_of g' i <-> c' ∈ outputs_of g i).

(** ** What the scan files an instance as *)

(** An instance the scan files as an indicator toggle, and one it files
    as an indicator panel. *)
Definition is_toggle (inst : Entity.t) : Prop :=
  Entity.get inst "targetname" <> EmptyString
  /\ "indicator_toggle" ∈ Entity.traits inst.

Definition is_panel (inst : Entity.t) : Prop :=
  Entity.get inst "targetname" <> EmptyString
  /\ ("indicator_toggle" ∉ Entity.traits inst)
  /\ "indicator_panel" ∈ Entity.traits inst.

(** [i] is the last instance of [l] with the name [n] among those that
    satisfy [P]; [None] when there is none. *)
Definition last_named (P : Entity.t -> Prop) (l : list Entity.t)
    (n : string) (i : option nat) : Prop :=
  match i with
  | Some i =>
      exists e, l !! i = Some e /\ P e /\ Entity.get e "targetname" = n
                /\ forall k e', i < k -> l !! k = Some e' -> P e' ->
                                Entity.get e' "targetname" <> n
  | None =>
      forall k e', l !! k = Some e' -> P e' -> Entity.get e' "targetname" <> n
  end.

(** The instance of the item registered under a name. *)
Definition registered_instance (sc : Scan) (n : string) : option nat :=
  (fun r => Item.inst (items (scan_graph sc) !!! r))
    <$> dict_get (scan_ITEMS sc) n.

(** A box of a type that no configuration describes, after a button. *)
Definition untyped_scene : VMF :=
  mkVMF
    [ entity (named "button") [] [] [] "ITEM_BUTTON";
      entity (named "box") [] [] [] "ITEM_CUBE";
      entity (named "crate") [] [] [] "ITEM_CRATE" ]
    [].

(** ** Overlays of signage shapes *)

(** An overlay the scan takes for a sign: its material is a key of
    [SIGN_ORDER_LOOKUP]. *)
Definition is_sign (E : Externals) (over : Entity.t) : Prop :=
  is_Some (dict_get (SIGN_ORDER_LOOKUP E) (Entity.get over "material")).

(** The key a sign is grouped under. *)
Definition sign_key (E : Externals) (over : Entity.t) : string * string :=
  (Entity.get over "targetname", casefold E (Entity.get over "material")).

(** What making the shapes does to an overlay. *)
Definition unnamed (E : Externals) (over : Entity.t) : Entity.t :=
  if decide (is_sign E over) then Entity.del "targetname" over else over.

(** Signs and antlines of two names; the sign materials of [ring] differ
    in case. *)
Definition overlay_scene : VMF :=
  mkVMF []
    [ sign "ring" "signage/shape02";
      sign "antline_1" "signage/indicator_lights";
      sign "disc" "signage/shape02";
      sign "ring" "signage/shape02";
      sign "antline_1" "signage/indicator_corner";
      sign "ring" "Signage/Shape02" ].

(** Name and keys of each overlay after the pass. *)
Definition result_overlays (r : result State)
  : option (list (string * string)) :=
  match r with
  | inr st =>
      Some ((fun e => (Entity.get e "targetname", Entity.get e "material"))
              <$> st_info_overlay st)
  | inl _ => None
  end.

(** ** The connections the pass builds *)

(** The item a target name stands for in the loop over the target
    names: the item registered under the name, unless the name has a model
    or brush suffix or is the name of a toggle or of a panel. *)
Definition item_of (sc : Scan) (out_name : string) : option nat :=
  if is_item_link sc out_name then dict_get (scan_ITEMS sc) out_name
  else None.

(** [input_items] after the loop over the target names. *)
Definition linked_items (sc : Scan) (out_names : list string) : list nat :=
  omap (item_of sc) out_names.

(** The toggle a target name stands for. *)
Definition toggle_of (sc : Scan) (out_name : string) : option nat :=
  if is_model_or_brush out_name then None else toggles sc !! out_name.

(** [overlays[inst_toggle.fixup['indicator_name']]] *)
Definition toggle_antlines (ov : Overlays) (insts : list Entity.t)
    (inst_toggle : nat) : gset nat :=
  default ∅ (overlays ov
             !! Entity.fixup_get (insts !!! inst_toggle) INDICATOR_NAME).

(** The antlines of the toggles the target names reach. *)
Definition linked_antlines (sc : Scan) (ov : Overlays)
    (insts : list Entity.t) (out_names : list string) : gset nat :=
  ⋃ (toggle_antlines ov insts <$> omap (toggle_of sc) out_names).

(** The instance of a registered item, as a reference and as it is in
    the map. *)
Definition inst_of (sc : Scan) (r : nat) : nat :=
  Item.inst (items (scan_graph sc) !!! r).

Definition source_of (sc : Scan) (insts0 : list Entity.t) (r : nat)
  : Entity.t :=
  insts0 !!! inst_of sc r.

(** The outputs of an instance to a target name, in their order. *)
Definition outputs_to (e : Entity.t) (n : string) : list Output.t :=
  filter (fun o => Output.target o = n) (Entity.outputs e).

(** The connection [connect_input] makes to the target item [t], from
    the items as they are. *)
Definition conn_for (E : Externals) (inputs : list (string * list Output.t))
    (insts : list Entity.t) (its : list Item.t) (item t : nat)
  : result Connection.t :=
  let target := its !!! t in
  let in_outputs := default [] (dict_get inputs (Item_name insts target)) in
  conn_type ← conn_type_of E (Item_traits insts target)
                 (Item_name insts target) in_outputs;
  ok (Connection.mk t item conn_type in_outputs).

(** The connection the pass makes from the registered item [r] to the
    registered item [t], read off the map as it was given. *)
Definition expected_conn (E : Externals) (sc : Scan)
    (insts0 : list Entity.t) (r t : nat) : result Connection.t :=
  conn_for E (group_outputs (Entity.outputs (source_of sc insts0 r)))
    insts0 (items (scan_graph sc)) r t.

(** The pairs (source item, target item) the pass connects, in its
    order: for each registered item the items its target names stand
    for. *)
Definition item_pairs (sc : Scan) (insts0 : list Entity.t) (rs : list nat)
  : list (nat * nat) :=
  r ← rs; (fun t => (r, t)) <$> linked_items sc (out_names (source_of sc insts0 r)).

(** Every output of a registered item leads somewhere the pass knows,
    and every funnel a registered item is wired to gets an output it
    recognises. *)
Definition well_wired (E : Externals) (sc : Scan) (insts0 : list Entity.t)
  : Prop :=
  forall r, r ∈ dict_values (scan_ITEMS sc) ->
    let src := source_of sc insts0 r in
    forall n, n ∈ out_names src ->
      ~ unknown_target sc n
      /\ forall t, item_of sc n = Some t ->
           "tbeam_emitter" ∈ Entity.traits (source_of sc insts0 t) ->
           Exists (recognised E) (outputs_to src n).

(** The facts about a connection [conn] of the result: it runs from a
    registered item to the item its target's name stands for, with the
    outputs of the source to that name, and with the type the funnel
    loop gives or the default. *)
Definition read_off (E : Externals) (sc : Scan) (insts0 : list Entity.t)
    (conn : Connection.t) : Prop :=
  let src := source_of sc insts0 (Connection.out conn) in
  let tgt := source_of sc insts0 (Connection.inp conn) in
  let n := Entity.get tgt "targetname" in
  Connection.out conn ∈ dict_values (scan_ITEMS sc)
  /\ item_of sc n = Some (Connection.inp conn)
  /\ Connection.outputs conn = outputs_to src n
  /\ Connection.outputs conn <> []
  /\ (if decide ("tbeam_emitter" ∈ Entity.traits tgt)
      then funnel_type E (Connection.outputs conn)
           = Some (Connection.type conn)
      else Connection.type conn = DEFAULT).

(** A map whose funnel gets outputs it does not know. *)
Definition bad_funnel_scene : VMF :=
  mkVMF
    [ entity (named "button") []
        [Output.mk "funnel" None "Toggle"] [] "ITEM_BUTTON";
      entity (named "funnel") [] [] ["tbeam_emitter"] "ITEM_TBEAM" ]
    [].

(** A lever and a button wired to a door; the button is also wired to
    the lever, twice, and to a fizzler brush. *)
Definition door_scene : VMF :=
  mkVMF
    [ entity (named "lever") []
        [Output.mk "door" None "Open"] [] "ITEM_BUTTON";
      entity (named "button") []
        [Output.mk "lever" None "Press"; Output.mk "door" None "Open";
         Output.mk "fizz_brush" None "Enable";
         Output.mk "lever" None "Release"] [] "ITEM_BUTTON";
      entity (named "door") [] [] [] "ITEM_BUTTON" ]
    [].

(** The registry after the pass. *)
Definition result_items (r : result State) : option (list (string * nat)) :=
  match r with
  | inr st => Some (ITEMS st)
  | inl _ => None
  end.

(** ** What the pass leaves of an instance *)

(** From [a] to [b] nothing changed but, possibly, the file, the timer
    flag and the values of the two counts. *)
Definition only_repaired (a b : Entity.t) : Prop :=
  Entity.outputs b = Entity.outputs a
  /\ Entity.traits b = Entity.traits a
  /\ Entity.item_id b = Entity.item_id a
  /\ (forall key, key <> "file" -> Entity.keys b !! key = Entity.keys a !! key)
  /\ (forall var, var <> TIM_ENABLED -> var <> CONN_COUNT ->
                  var <> CONN_COUNT_TBEAM ->
                  Entity.fixup b !! var = Entity.fixup a !! var)
  /\ Entity.fixup_has b CONN_COUNT = Entity.fixup_has a CONN_COUNT
  /\ Entity.fixup_has b CONN_COUNT_TBEAM = Entity.fixup_has a CONN_COUNT_TBEAM.

(** A button with a toggle and a panel: the toggle has fixups and keys
    of its own. *)
Definition toggle_scene : VMF :=
  mkVMF
    [ entity (named "button") [(CONN_COUNT, "3")]
        [Output.mk "toggle_1" None "Trigger";
         Output.mk "panel_1" None "Trigger"] [] "ITEM_BUTTON";
      entity (("file", "instances/toggle.vmf") :: named "toggle_1")
        [(INDICATOR_NAME, "antline_1"); (TIM_ENABLED, "1"); (CONN_COUNT, "8")]
        [] ["indicator_toggle"] EmptyString;
      entity (named "panel_1") [(TIM_ENABLED, "1"); (TIM_DELAY, "4")] []
        ["indicator_panel"] EmptyString ]
    [ sign "antline_1" "signage/indicator_lights" ].

(** ** The entities added for the frames *)


(** ** The two sets of the items and the list of connections *)

(** Every connection of the graph is registered at both of its items,
    which exist, and the sets of the items hold nothing else. *)
Definition fully_registered (g : Graph) : Prop :=
  (forall i c, c ∈ inputs_of g i
               <-> exists conn, conns g !! c = Some conn
                                /\ Connection.inp conn = i)
  /\ (forall i c, c ∈ outputs_of g i
                  <-> exists conn, conns g !! c = Some conn
                                   /\ Connection.out conn = i)
  /\ Forall (fun conn => Connection.inp conn < length (items g)
                         /\ Connection.out conn < length (items g))
            (conns g).

(** ** Panels that several items reach *)

(** The item processed last, among the items [rs], of those whose
    outputs reach the panel [pan]. *)
Definition last_reaching (sc : Scan) (insts0 : list Entity.t) (pan : nat)
    (rs : list nat) : option nat :=
  last (filter (fun r => pan ∈ linked_panels sc
                                  (out_names (source_of sc insts0 r))) rs).

(** Two buttons wired to the panel [shared], which has no timer in the
    map; the first button is wired, after it, to a panel with a timer of
    five seconds. *)
Definition shared_panel_scene : VMF :=
  mkVMF
    [ entity (named "first") []
        [Output.mk "shared" None "Trigger";
         Output.mk "panel_on" None "Trigger"] [] "ITEM_BUTTON";
      entity (named "second") []
        [Output.mk "shared" None "Trigger"] [] "ITEM_BUTTON";
      entity (named "shared") [(TIM_ENABLED, "0"); (TIM_DELAY, "7")] []
        ["indicator_panel"] EmptyString;
      entity (named "panel_on") [(TIM_ENABLED, "1"); (TIM_DELAY, "5")] []
        ["indicator_panel"] EmptyString ]
    [].

(** Two instances named [twin], the later one of a type that no
    configuration describes. *)
Definition twin_untyped_scene : VMF :=
  mkVMF
    [ entity (named "twin") [] [] [] "ITEM_BUTTON";
      entity (named "twin") [] [] [] "ITEM_CRATE" ]
    [].

(** * Item type parsing *)

Lemma conf_get_holds E conf key tok d :
  holds E conf key tok -> conf_get E conf key d = tok.
Proof. unfold holds, conf_get. by intros ->. Qed.

Lemma conf_index_holds E conf key tok :
  holds E conf key tok -> conf_index E conf key = ok tok.
Proof. unfold holds, conf_index. by intros ->. Qed.

(** The primary commands of a parsed type are read from the secondary
    keys, whatever the configuration. *)
Lemma parse_primary_cmds E conf it :
  ItemType.parse E conf = inr it ->
  ItemType.enable_cmd it
    = parse_name E (conf_get E conf "sec_enable_cmd" EmptyString)
  /\ ItemType.disable_cmd it
    = parse_name E (conf_get E conf "sec_disable_cmd" EmptyString).
Proof.
  unfold ItemType.parse. intros H.
  destruct (conf_contains E conf "sec_enable_cmd"
            || conf_contains E conf "sec_disable_cmd");
    cbn in H.
  - destruct (ItemType.parse_default_dual E conf); cbn in H; [done|].
    destruct (ItemType.parse_output_type E conf); cbn in H; [done|].
    by injection H as <-.
  - destruct (ItemType.parse_output_type E conf); cbn in H; [done|].
    by injection H as <-.
Qed.

(** C5 (what the code does): a configuration with only the primary
    commands [enable_cmd] and [disable_cmd] parses to a type whose primary
    command pair is the parse of the empty string, and with secondary
    commands as well the primary pair of the type is the secondary pair of
    the configuration: [ItemType.parse] reads [sec_enable_cmd] and
    [sec_disable_cmd] for both pairs and never the primary entries. *)
Theorem parse_primary_cmds_read_secondary :
  ItemType.parse demo_externals conf_button
    = inr (ItemType.mk "ITEM_BUTTON" None "0" (None, EmptyString)
             (None, EmptyString) None None None DEFAULT)
  /\ ItemType.parse demo_externals conf_button_sec
    = inr (ItemType.mk "ITEM_BUTTON" (Some DEFAULT) "0"
             (Some "relay", "SetB") (Some "relay", "ClearB")
             (Some "0") (Some (Some "relay", "SetB"))
             (Some (Some "relay", "ClearB")) DEFAULT).
Proof. split; vm_compute; reflexivity. Qed.

(** C6 (counterexample): the default-dual field holds the token [bogus],
    which is none of the four types, and the configuration has no
    secondary command: [ItemType.parse] returns a type, with no default
    type at all. *)
Lemma parse_accepts_unused_default_dual :
  holds demo_externals conf_unused_default "default_dual" "bogus"
  /\ invalid_token demo_externals "bogus"
  /\ ItemType.parse demo_externals conf_unused_default
     = inr (ItemType.mk "ITEM_CUBE" None "0" (None, EmptyString)
              (None, EmptyString) None None None DEFAULT).
Proof. repeat split; vm_compute; reflexivity. Qed.

(** The message of a rejected output affinity is formatted from the
    default-dual field: here the rejected token is [bogus] and the
    message ends in [primary]. *)
Lemma parse_affinity_message_names_default_dual :
  ItemType.parse demo_externals conf_bad_affinity
  = inl (ValueError (ItemType.invalid_affinity_msg "ITEM_CUBE" "primary")).
Proof. vm_compute; reflexivity. Qed.

(** C6 (amended): a configuration with a secondary command whose
    default-dual field holds a token that is none of the four types after
    case folding is rejected with a [ValueError] whose message gives the
    item identifier and that token; and a configuration whose output
    affinity field ([DualType]) holds such a token is rejected. *)
Theorem parse_rejects_invalid_polarity E conf tok :
  invalid_token E tok ->
  (has_sec E conf = true -> holds E conf "default_dual" tok ->
   ItemType.parse E conf
   = inl (ValueError (ItemType.invalid_default_msg (real_name conf) tok)))
  /\ (holds E conf "DualType" tok ->
      exists e, ItemType.parse E conf = inl e).
Proof.
  intros Hbad. unfold invalid_token in Hbad. split.
  - intros Hsec Hd. unfold ItemType.parse. fold (has_sec E conf).
    rewrite Hsec. unfold ItemType.parse_default_dual.
    rewrite (conf_get_holds _ _ _ _ _ Hd), Hbad, (conf_index_holds _ _ _ _ Hd).
    reflexivity.
  - intros Hd. unfold ItemType.parse.
    assert (Hout : exists e, ItemType.parse_output_type E conf = inl e).
    { unfold ItemType.parse_output_type.
      rewrite (conf_get_holds _ _ _ _ _ Hd), Hbad.
      destruct (conf_index E conf "default_dual"); cbn; eauto. }
    destruct Hout as [e He].
    destruct (conf_contains E conf "sec_enable_cmd"
              || conf_contains E conf "sec_disable_cmd"); cbn.
    + destruct (ItemType.parse_default_dual E conf); cbn; [eauto|].
      rewrite He. cbn. eauto.
    + rewrite He. cbn. eauto.
Qed.

Lemma parse_rejects_invalid_polarity_witness :
  ItemType.parse demo_externals conf_bad_default
  = inl (ValueError (ItemType.invalid_default_msg "ITEM_CUBE" "Bogus"))
  /\ exists e, ItemType.parse demo_externals conf_bad_affinity = inl e.
Proof.
  split.
  - apply (parse_rejects_invalid_polarity demo_externals conf_bad_default "Bogus");
      vm_compute; reflexivity.
  - apply (parse_rejects_invalid_polarity demo_externals conf_bad_affinity "bogus");
      vm_compute; reflexivity.
Defined.

(** * Connections and the two sets of an item *)

Lemma from_option_alter {A B} (f : A -> B) (d : B) (h : A -> A)
    (j i : nat) (l : list A) :
  from_option f d (alter h j l !! i)
  = if decide (i = j) then from_option (f ∘ h) d (l !! i)
    else from_option f d (l !! i).
Proof.
  case_decide as Hij.
  - subst. rewrite list_lookup_alter_eq. by destruct (l !! j).
  - by rewrite list_lookup_alter_ne.
Qed.

Lemma inputs_of_in_range g i c : c ∈ inputs_of g i -> i < length (items g).
Proof.
  unfold inputs_of. destruct (items g !! i) eqn:H; cbn; [|set_solver].
  intros _. by eapply lookup_lt_Some.
Qed.

Lemma outputs_of_in_range g i c : c ∈ outputs_of g i -> i < length (items g).
Proof.
  unfold outputs_of. destruct (items g !! i) eqn:H; cbn; [|set_solver].
  intros _. by eapply lookup_lt_Some.
Qed.
Ltac range_cases :=
  match goal with
  | |- context [items ?g !! ?i] =>
      let Hl := fresh "Hl" in
      destruct (items g !! i) eqn:Hl; cbn;
      [ pose proof (lookup_lt_Some _ _ _ Hl)
      | pose proof (proj1 (lookup_ge_None _ _) Hl) ]
  end;
  try reflexivity; try (exfalso; naive_solver lia).

Lemma inputs_of_add g c conn i :
  conns g !! c = Some conn ->
  inputs_of (Connection_add c g) i
  = if decide (i = Connection.inp conn /\ i < length (items g))
    then {[c]} ∪ inputs_of g i else inputs_of g i.
Proof.
  intros Hc. unfold Connection_add, inputs_of. rewrite Hc. cbn.
  rewrite !from_option_alter.
  destruct (decide (i = Connection.out conn)), (decide (i = Connection.inp conn));
    subst; cbn; case_decide as Hd; range_cases.
Qed.

Lemma outputs_of_add g c conn i :
  conns g !! c = Some conn ->
  outputs_of (Connection_add c g) i
  = if decide (i = Connection.out conn /\ i < length (items g))
    then {[c]} ∪ outputs_of g i else outputs_of g i.
Proof.
  intros Hc. unfold Connection_add, outputs_of. rewrite Hc. cbn.
  rewrite !from_option_alter.
  destruct (decide (i = Connection.out conn)), (decide (i = Connection.inp conn));
    subst; cbn; case_decide as Hd; range_cases.
Qed.

Lemma inputs_of_remove g c conn i :
  conns g !! c = Some conn ->
  inputs_of (Connection_remove c g) i
  = if decide (i = Connection.inp conn)
    then inputs_of g i ∖ {[c]} else inputs_of g i.
Proof.
  intros Hc. unfold Connection_remove, inputs_of. rewrite Hc. cbn.
  rewrite !from_option_alter.
  destruct (decide (i = Connection.out conn)), (decide (i = Connection.inp conn));
    subst; cbn; try reflexivity;
    destruct (items g !! _); cbn; try reflexivity; set_solver.
Qed.

Lemma outputs_of_remove g c conn i :
  conns g !! c = Some conn ->
  outputs_of (Connection_remove c g) i
  = if decide (i = Connection.out conn)
    then outputs_of g i ∖ {[c]} else outputs_of g i.
Proof.
  intros Hc. unfold Connection_remove, outputs_of. rewrite Hc. cbn.
  rewrite !from_option_alter.
  destruct (decide (i = Connection.out conn)), (decide (i = Connection.inp conn));
    subst; cbn; try reflexivity;
    destruct (items g !! _); cbn; try reflexivity; set_solver.
Qed.

Lemma items_length_add c g :
  length (items (Connection_add c g)) = length (items g).
Proof.
  unfold Connection_add. destruct (conns g !! c); cbn; [|done].
  by rewrite !length_alter.
Qed.

Lemma items_length_remove c g :
  length (items (Connection_remove c g)) = length (items g).
Proof.
  unfold Connection_remove. destruct (conns g !! c); cbn; [|done].
  by rewrite !length_alter.
Qed.

Lemma conns_add c g : conns (Connection_add c g) = conns g.
Proof. unfold Connection_add. by destruct (conns g !! c). Qed.

Lemma conns_remove c g : conns (Connection_remove c g) = conns g.
Proof. unfold Connection_remove. by destruct (conns g !! c). Qed.
Lemma elem_of_inputs_of_add g c conn i x :
  conns g !! c = Some conn -> Connection.inp conn < length (items g) ->
  x ∈ inputs_of (Connection_add c g) i
  <-> (x = c /\ i = Connection.inp conn) \/ x ∈ inputs_of g i.
Proof.
  intros Hc Hr. rewrite (inputs_of_add _ _ _ _ Hc).
  destruct (decide (i = Connection.inp conn ∧ i < length (items g))) as [[-> _]|Hn].
  - rewrite elem_of_union, elem_of_singleton. naive_solver.
  - split; [by right|]. intros [[_ ->]|?]; [|done]. exfalso. by apply Hn.
Qed.

Lemma elem_of_outputs_of_add g c conn i x :
  conns g !! c = Some conn -> Connection.out conn < length (items g) ->
  x ∈ outputs_of (Connection_add c g) i
  <-> (x = c /\ i = Connection.out conn) \/ x ∈ outputs_of g i.
Proof.
  intros Hc Hr. rewrite (outputs_of_add _ _ _ _ Hc).
  destruct (decide (i = Connection.out conn ∧ i < length (items g))) as [[-> _]|Hn].
  - rewrite elem_of_union, elem_of_singleton. naive_solver.
  - split; [by right|]. intros [[_ ->]|?]; [|done]. exfalso. by apply Hn.
Qed.

Lemma elem_of_inputs_of_remove g c conn i x :
  conns g !! c = Some conn ->
  x ∈ inputs_of (Connection_remove c g) i
  <-> x ∈ inputs_of g i /\ ~ (x = c /\ i = Connection.inp conn).
Proof.
  intros Hc. rewrite (inputs_of_remove _ _ _ _ Hc).
  destruct (decide (i = Connection.inp conn)) as [->|Hn].
  - rewrite elem_of_difference, elem_of_singleton. naive_solver.
  - naive_solver.
Qed.

Lemma elem_of_outputs_of_remove g c conn i x :
  conns g !! c = Some conn ->
  x ∈ outputs_of (Connection_remove c g) i
  <-> x ∈ outputs_of g i /\ ~ (x = c /\ i = Connection.out conn).
Proof.
  intros Hc. rewrite (outputs_of_remove _ _ _ _ Hc).
  destruct (decide (i = Connection.out conn)) as [->|Hn].
  - rewrite elem_of_difference, elem_of_singleton. naive_solver.
  - naive_solver.
Qed.

Lemma registered_empty : registered empty_graph.
Proof.
  split; cbn; intros *; rewrite ?lookup_nil; try done;
    unfold inputs_of, outputs_of; cbn; by intros ?%not_elem_of_empty.
Qed.

Lemma registered_add g c :
  registered g -> c < length (conns g) -> registered (Connection_add c g).
Proof.
  intros [Hi Ho Hin Hout] Hc.
  destruct (lookup_lt_is_Some_2 _ _ Hc) as [conn Hconn].
  pose proof (Hi _ _ Hconn) as Hci. pose proof (Ho _ _ Hconn) as Hco.
  split.
  - intros c' conn'. rewrite conns_add, items_length_add. apply Hi.
  - intros c' conn'. rewrite conns_add, items_length_add. apply Ho.
  - intros i c'. rewrite conns_add.
    rewrite (elem_of_inputs_of_add _ _ _ _ _ Hconn Hci).
    intros [[-> ->]|Hold].
    + exists conn. split_and!; [done..|].
      apply (elem_of_outputs_of_add _ _ _ _ _ Hconn Hco). by left.
    + destruct (Hin _ _ Hold) as (conn' & ? & ? & ?).
      exists conn'. split_and!; [done..|].
      apply (elem_of_outputs_of_add _ _ _ _ _ Hconn Hco). by right.
  - intros i c'. rewrite conns_add.
    rewrite (elem_of_outputs_of_add _ _ _ _ _ Hconn Hco).
    intros [[-> ->]|Hold].
    + exists conn. split_and!; [done..|].
      apply (elem_of_inputs_of_add _ _ _ _ _ Hconn Hci). by left.
    + destruct (Hout _ _ Hold) as (conn' & ? & ? & ?).
      exists conn'. split_and!; [done..|].
      apply (elem_of_inputs_of_add _ _ _ _ _ Hconn Hci). by right.
Qed.

Lemma registered_remove g c :
  registered g -> c < length (conns g) -> registered (Connection_remove c g).
Proof.
  intros [Hi Ho Hin Hout] Hc.
  destruct (lookup_lt_is_Some_2 _ _ Hc) as [conn Hconn].
  split.
  - intros c' conn'. rewrite conns_remove, items_length_remove. apply Hi.
  - intros c' conn'. rewrite conns_remove, items_length_remove. apply Ho.
  - intros i c'. rewrite conns_remove.
    rewrite (elem_of_inputs_of_remove _ _ _ _ _ Hconn).
    intros [Hold Hne].
    destruct (Hin _ _ Hold) as (conn' & Hc' & Hi' & Ho').
    exists conn'. split_and!; [done..|].
    apply (elem_of_outputs_of_remove _ _ _ _ _ Hconn). split; [done|].
    intros [-> _]. apply Hne. split; [done|]. congruence.
  - intros i c'. rewrite conns_remove.
    rewrite (elem_of_outputs_of_remove _ _ _ _ _ Hconn).
    intros [Hold Hne].
    destruct (Hout _ _ Hold) as (conn' & Hc' & Hi' & Ho').
    exists conn'. split_and!; [done..|].
    apply (elem_of_inputs_of_remove _ _ _ _ _ Hconn). split; [done|].
    intros [-> _]. apply Hne. split; [done|]. congruence.
Qed.

(** After [remove] the connection is in no set at all. *)
Lemma removed_nowhere g c i :
  registered g -> c < length (conns g) ->
  (c ∉ inputs_of (Connection_remove c g) i)
  /\ (c ∉ outputs_of (Connection_remove c g) i).
Proof.
  intros Hreg Hc.
  destruct (lookup_lt_is_Some_2 _ _ Hc) as [conn Hconn].
  rewrite (elem_of_inputs_of_remove _ _ _ _ _ Hconn).
  rewrite (elem_of_outputs_of_remove _ _ _ _ _ Hconn).
  split; intros [Hmem Hne]; apply Hne; (split; [done|]).
  - destruct (reg_inputs _ Hreg _ _ Hmem) as (conn' & ? & ? & ?). congruence.
  - destruct (reg_outputs _ Hreg _ _ Hmem) as (conn' & ? & ? & ?). congruence.
Qed.
Lemma registered_new_item g it :
  registered g -> Item.inputs it = ∅ -> Item.outputs it = ∅ ->
  registered (alloc_item it g).1.
Proof.
  intros [Hi Ho Hin Hout] Hei Heo.
  assert (Hins : forall i, inputs_of (alloc_item it g).1 i = inputs_of g i).
  { intros i. unfold inputs_of. cbn.
    destruct (items g !! i) eqn:Hl.
    - by rewrite (lookup_app_l_Some _ _ _ _ Hl).
    - apply lookup_ge_None in Hl. rewrite lookup_app_r by done.
      destruct (i - length (items g)) as [|k]; by cbn. }
  assert (Houts : forall i, outputs_of (alloc_item it g).1 i = outputs_of g i).
  { intros i. unfold outputs_of. cbn.
    destruct (items g !! i) eqn:Hl.
    - by rewrite (lookup_app_l_Some _ _ _ _ Hl).
    - apply lookup_ge_None in Hl. rewrite lookup_app_r by done.
      destruct (i - length (items g)) as [|k]; by cbn. }
  split.
  - intros c conn Hc. cbn in *. rewrite length_app. cbn.
    specialize (Hi _ _ Hc). lia.
  - intros c conn Hc. cbn in *. rewrite length_app. cbn.
    specialize (Ho _ _ Hc). lia.
  - intros i c. rewrite Hins. intros Hm.
    destruct (Hin _ _ Hm) as (conn & ? & ? & ?). exists conn.
    by rewrite Houts.
  - intros i c. rewrite Houts. intros Hm.
    destruct (Hout _ _ Hm) as (conn & ? & ? & ?). exists conn.
    by rewrite Hins.
Qed.

Lemma registered_new_conn g c :
  registered g ->
  Connection.inp c < length (items g) -> Connection.out c < length (items g) ->
  registered (alloc_conn c g).1.
Proof.
  intros [Hi Ho Hin Hout] Hci Hco. split; cbn.
  - intros c' conn [Hl|[_ Hl]]%lookup_app_Some; [by eapply Hi|].
    destruct (c' - length (conns g)); cbn in Hl; by simplify_eq.
  - intros c' conn [Hl|[_ Hl]]%lookup_app_Some; [by eapply Ho|].
    destruct (c' - length (conns g)); cbn in Hl; by simplify_eq.
  - intros i c' Hm. destruct (Hin _ _ Hm) as (conn & Hl & ? & ?).
    exists conn. split_and!; [|done..]. by apply lookup_app_l_Some.
  - intros i c' Hm. destruct (Hout _ _ Hm) as (conn & Hl & ? & ?).
    exists conn. split_and!; [|done..]. by apply lookup_app_l_Some.
Qed.

Lemma set_item_unfold g c conn input output :
  conns g !! c = Some conn ->
  Connection_set_item c input output g
  = Connection_add c
      (mkGraph (items (Connection_remove c g))
               (<[c := moved conn input output]>
                  (conns (Connection_remove c g)))).
Proof.
  intros Hc. unfold Connection_set_item. f_equal. f_equal.
  rewrite conns_remove.
  apply list_eq. intros j.
  destruct (decide (j = c)) as [->|Hne].
  - rewrite list_lookup_insert_eq by (by eapply lookup_lt_Some).
    destruct input, output; cbn;
      rewrite ?list_lookup_alter_eq, ?Hc; cbn; by destruct conn.
  - rewrite list_lookup_insert_ne by done.
    destruct input, output; cbn; by rewrite ?list_lookup_alter_ne.
Qed.

Lemma registered_redirect g c conn conn' :
  registered g -> conns g !! c = Some conn ->
  (forall i, (c ∉ inputs_of g i) /\ (c ∉ outputs_of g i)) ->
  Connection.inp conn' < length (items g) ->
  Connection.out conn' < length (items g) ->
  registered (mkGraph (items g) (<[c := conn']> (conns g))).
Proof.
  intros [Hi Ho Hin Hout] Hc Hno Hci Hco.
  assert (Hlook : forall c1 conn1,
    <[c := conn']> (conns g) !! c1 = Some conn1 ->
    c1 = c /\ conn1 = conn' \/ c1 <> c /\ conns g !! c1 = Some conn1).
  { intros c1 conn1. destruct (decide (c1 = c)) as [->|Hne].
    - rewrite list_lookup_insert_eq by (by eapply lookup_lt_Some).
      intros [= <-]. by left.
    - rewrite list_lookup_insert_ne by done. by right. }
  split; cbn.
  - intros c1 conn1 [[-> ->]|[_ Hl]]%Hlook; [done|by eapply Hi].
  - intros c1 conn1 [[-> ->]|[_ Hl]]%Hlook; [done|by eapply Ho].
  - intros i c1 Hm. change (c1 ∈ inputs_of g i) in Hm.
    destruct (Hin _ _ Hm) as (conn1 & Hl & ? & ?).
    assert (c1 <> c) by (intros ->; by destruct (Hno i)).
    exists conn1. by rewrite list_lookup_insert_ne.
  - intros i c1 Hm. change (c1 ∈ outputs_of g i) in Hm.
    destruct (Hout _ _ Hm) as (conn1 & Hl & ? & ?).
    assert (c1 <> c) by (intros ->; by destruct (Hno i)).
    exists conn1. by rewrite list_lookup_insert_ne.
Qed.

Lemma moved_in_range g conn input output :
  Connection.inp conn < length (items g) ->
  Connection.out conn < length (items g) ->
  is_item_ref g input -> is_item_ref g output ->
  Connection.inp (moved conn input output) < length (items g)
  /\ Connection.out (moved conn input output) < length (items g).
Proof.
  unfold is_item_ref. intros ? ? Hi Ho.
  destruct input, output; cbn; naive_solver.
Qed.

Lemma registered_set_item g c input output :
  registered g -> c < length (conns g) ->
  is_item_ref g input -> is_item_ref g output ->
  registered (Connection_set_item c input output g).
Proof.
  intros Hreg Hc Hi Ho.
  destruct (lookup_lt_is_Some_2 _ _ Hc) as [conn Hconn].
  rewrite (set_item_unfold _ _ _ _ _ Hconn).
  destruct (moved_in_range g conn input output) as [Hmi Hmo];
    [by eapply reg_inp|by eapply reg_out|done..|].
  apply registered_add; [|cbn; by rewrite length_insert, conns_remove].
  eapply registered_redirect.
  - by apply registered_remove.
  - by rewrite conns_remove.
  - intros i. by apply removed_nowhere.
  - by rewrite items_length_remove.
  - by rewrite items_length_remove.
Qed.

Lemma reachable_registered g : reachable g -> registered g.
Proof.
  induction 1 as [|g o _ IH Hok]; [apply registered_empty|].
  destruct o as [it|c|c|c|c input output]; cbn in *.
  - destruct Hok. by apply registered_new_item.
  - destruct Hok. by apply registered_new_conn.
  - by apply registered_add.
  - by apply registered_remove.
  - destruct Hok as (? & ? & ?). by apply registered_set_item.
Qed.
(** C1: in every state reached by creating items and connections and
    calling [add], [remove] and [set_item], a connection is in the
    [inputs] set of its target exactly when it is in the [outputs] set of
    its source, and in no set of any other item; after [add] it is in
    both, after [remove] it is in no set, and after [set_item] it is
    registered on exactly the new endpoints (an endpoint that was not
    given stays). *)
Theorem connection_dual_membership g c conn :
  reachable g -> conns g !! c = Some conn ->
  (c ∈ inputs_of g (Connection.inp conn)
   <-> c ∈ outputs_of g (Connection.out conn))
  /\ (forall i, (c ∈ inputs_of g i -> i = Connection.inp conn)
                /\ (c ∈ outputs_of g i -> i = Connection.out conn))
  /\ (c ∈ inputs_of (Connection_add c g) (Connection.inp conn)
      /\ c ∈ outputs_of (Connection_add c g) (Connection.out conn))
  /\ (forall i, (c ∉ inputs_of (Connection_remove c g) i)
                /\ (c ∉ outputs_of (Connection_remove c g) i))
  /\ (forall input output,
        is_item_ref g input -> is_item_ref g output ->
        conns (Connection_set_item c input output g) !! c
        = Some (moved conn input output)
        /\ forall i,
            (c ∈ inputs_of (Connection_set_item c input output g) i
             <-> i = Connection.inp (moved conn input output))
            /\ (c ∈ outputs_of (Connection_set_item c input output g) i
                <-> i = Connection.out (moved conn input output))).
Proof.
  intros Hreach Hc. pose proof (reachable_registered _ Hreach) as Hreg.
  pose proof (lookup_lt_Some _ _ _ Hc) as Hlt.
  pose proof (reg_inp _ Hreg _ _ Hc) as Hci.
  pose proof (reg_out _ Hreg _ _ Hc) as Hco.
  split_and!.
  - split; intros Hm.
    + destruct (reg_inputs _ Hreg _ _ Hm) as (conn' & ? & ? & ?). congruence.
    + destruct (reg_outputs _ Hreg _ _ Hm) as (conn' & ? & ? & ?). congruence.
  - intros i. split; intros Hm.
    + destruct (reg_inputs _ Hreg _ _ Hm) as (conn' & ? & ? & ?). congruence.
    + destruct (reg_outputs _ Hreg _ _ Hm) as (conn' & ? & ? & ?). congruence.
  - apply (elem_of_inputs_of_add _ _ _ _ _ Hc Hci). by left.
  - apply (elem_of_outputs_of_add _ _ _ _ _ Hc Hco). by left.
  - intros i. by apply removed_nowhere.
  - intros input output Hi Ho.
    rewrite (set_item_unfold _ _ _ _ _ Hc).
    set (g2 := mkGraph _ _).
    assert (Hc2 : conns g2 !! c = Some (moved conn input output)).
    { unfold g2. cbn. rewrite list_lookup_insert_eq; [done|].
      by rewrite conns_remove. }
    destruct (moved_in_range g conn input output) as [Hmi Hmo]; [done..|].
    assert (Hlen : length (items g2) = length (items g)).
    { unfold g2. cbn. apply items_length_remove. }
    split; [by rewrite conns_add|].
    intros i.
    rewrite (elem_of_inputs_of_add _ _ _ _ _ Hc2) by (by rewrite Hlen).
    rewrite (elem_of_outputs_of_add _ _ _ _ _ Hc2) by (by rewrite Hlen).
    destruct (removed_nowhere g c i Hreg Hlt) as [Hni Hno].
    change (inputs_of g2 i) with (inputs_of (Connection_remove c g) i).
    change (outputs_of g2 i) with (outputs_of (Connection_remove c g) i).
    naive_solver.
Qed.

Lemma demo_graph_reachable : reachable demo_graph.
Proof.
  unfold demo_graph.
  repeat (apply reach_op; [|cbn; try split; lia || reflexivity]).
  apply reach_empty.
Qed.

Lemma connection_dual_membership_witness :
  (0 ∈ inputs_of demo_graph 1 <-> 0 ∈ outputs_of demo_graph 0)
  /\ conns (Connection_set_item 0 (Some 0) None demo_graph) !! 0
     = Some (Connection.mk 0 0 DEFAULT []).
Proof.
  destruct (connection_dual_membership demo_graph 0
              (Connection.mk 1 0 DEFAULT []) demo_graph_reachable eq_refl)
    as (H1 & _ & _ & _ & H5).
  split; [exact H1|].
  apply (H5 (Some 0) None); intros i [= <-]; cbn; lia.
Defined.
(** * Loops that may raise *)

Lemma for_each_cons {A S} (f : A -> S -> result S) x xs s :
  for_each f (x :: xs) s = (s' ← f x s; for_each f xs s').
Proof. reflexivity. Qed.

Lemma for_each_app {A S} (f : A -> S -> result S) xs ys s :
  for_each f (xs ++ ys) s = (s' ← for_each f xs s; for_each f ys s').
Proof.
  revert s. induction xs as [|x xs IH]; intros s; cbn; [done|].
  destruct (f x s); cbn; [done|apply IH].
Qed.

Lemma for_each_fails_at {A S} (f : A -> S -> result S) pre x post s s' e :
  for_each f pre s = inr s' -> f x s' = inl e ->
  for_each f (pre ++ x :: post) s = inl e.
Proof. intros Hpre Hx. rewrite for_each_app, Hpre. cbn. by rewrite Hx. Qed.

Lemma for_each_failure {A S} (f : A -> S -> result S) xs s e :
  for_each f xs s = inl e ->
  exists pre x post s',
    xs = pre ++ x :: post /\ for_each f pre s = inr s' /\ f x s' = inl e.
Proof.
  revert s. induction xs as [|x xs IH]; intros s; cbn; [done|].
  destruct (f x s) as [e'|s1] eqn:Hx; cbn.
  - intros [= ->]. by exists [], x, xs, s.
  - intros (pre & y & post & s' & -> & Hpre & Hy)%IH.
    exists (x :: pre), y, post, s'. split_and!; [done| |done].
    cbn. by rewrite Hx.
Qed.

(** An invariant of the loop body holds after the loop. *)
Lemma for_each_invariant {A S} (f : A -> S -> result S) (P : S -> Prop)
    xs s s' :
  (forall x s1 s2, x ∈ xs -> P s1 -> f x s1 = inr s2 -> P s2) ->
  P s -> for_each f xs s = inr s' -> P s'.
Proof.
  revert s. induction xs as [|x xs IH]; intros s Hstep Hs; cbn.
  - by intros [= <-].
  - destruct (f x s) as [e|s1] eqn:Hx; cbn; [done|]. apply IH.
    + intros y s2 s3 Hy. apply Hstep. by right.
    + eapply Hstep; [by left|done..].
Qed.

(** If the body fails on an element in every state the loop can be in,
    the loop fails. *)
Lemma for_each_must_fail {A S} (f : A -> S -> result S) (P : S -> Prop)
    xs x s :
  x ∈ xs ->
  (forall y s1 s2, P s1 -> f y s1 = inr s2 -> P s2) ->
  (forall s1, P s1 -> exists e, f x s1 = inl e) ->
  P s -> exists e, for_each f xs s = inl e.
Proof.
  intros Hx Hstep Hfail. revert s.
  induction xs as [|y xs IH]; intros s Hs; [by apply not_elem_of_nil in Hx|].
  cbn. apply elem_of_cons in Hx as [->|Hx].
  - destruct (Hfail _ Hs) as [e ->]. cbn. eauto.
  - destruct (f y s) as [e|s1] eqn:Hy; cbn; [eauto|].
    apply IH; [done|]. by eapply Hstep.
Qed.
(** * The type of a connection to a funnel *)

Lemma funnel_type_skip E pre rest :
  Forall (fun o => ~ recognised E o) pre ->
  funnel_type E (pre ++ rest) = funnel_type E rest.
Proof.
  induction 1 as [|o pre Ho _ IH]; cbn; [done|].
  unfold recognised, input_tuple in Ho.
  rewrite decide_False by tauto. by rewrite decide_False by tauto.
Qed.

Lemma funnel_type_first E pre out post :
  Forall (fun o => ~ recognised E o) pre -> recognised E out ->
  funnel_type E (pre ++ out :: post)
  = Some (if decide (input_tuple out ∈ tbeam_polarity E)
          then SECONDARY else PRIMARY).
Proof.
  intros Hpre Hout. rewrite (funnel_type_skip _ _ _ Hpre). cbn.
  fold (input_tuple out). destruct Hout as [Hp|Hio].
  - by rewrite !decide_True.
  - destruct (decide (input_tuple out ∈ tbeam_polarity E)); [done|].
    by rewrite decide_True.
Qed.

Lemma funnel_type_none E outs :
  Forall (fun o => ~ recognised E o) outs -> funnel_type E outs = None.
Proof.
  intros H. rewrite <- (app_nil_r outs). by rewrite funnel_type_skip.
Qed.


(** C2 (counterexample): the outputs of the button to the funnel contain
    a pair of the polarity set, and the connection the pass builds is
    primary, because the on/off output comes first. *)
Lemma funnel_first_match_counterexample :
  input_tuple out_polarity ∈ tbeam_polarity demo_externals
  /\ result_conns (calc_connections demo_externals demo_types funnel_scene [] false)
     = Some [Connection.mk 1 0 PRIMARY [out_io; out_polarity]].
Proof. split; vm_compute; reflexivity. Qed.
(** * The loop over the targets of an item *)

Lemma link_target_panel E sc ov insts n item acc pan :
  panel_of sc n = Some pan ->
  link_target E sc ov insts n (item, acc)
  = inr (Item.set_timer (panel_timer_value E (insts !!! pan))
           (Item.set_ind_panels (Item.ind_panels item ∪ {[pan]}) item), acc).
Proof.
  unfold panel_of, is_panel_link, link_target.
  destruct (is_model_or_brush n); cbn; [done|].
  case_bool_decide as Ht; cbn; [|done]. rewrite Ht.
  case_bool_decide; [|done]. by intros ->.
Qed.

Lemma link_target_other E sc ov insts n item acc item' acc' :
  panel_of sc n = None ->
  link_target E sc ov insts n (item, acc) = inr (item', acc') ->
  Item.timer item' = Item.timer item
  /\ Item.ind_panels item' = Item.ind_panels item
  /\ Item.inst item' = Item.inst item
  /\ Item.inputs item' = Item.inputs item
  /\ Item.outputs item' = Item.outputs item.
Proof.
  unfold panel_of, is_panel_link, link_target.
  destruct (is_model_or_brush n); cbn; [by intros _ [= <- <-]|].
  destruct (toggles sc !! n); cbn; [by intros _ [= <- <-]|].
  destruct (panels sc !! n) eqn:Hp; cbn.
  { done. }
  intros _. destruct (dict_get (scan_ITEMS sc) n); [|done].
  by intros [= <- <-].
Qed.

Lemma link_target_unknown E sc ov insts n acc :
  unknown_target sc n ->
  link_target E sc ov insts n acc = inl (ValueError (unknown_instance_msg n)).
Proof.
  unfold unknown_target, is_item_link, link_target.
  intros [Hl Hg]. destruct acc as [item acc].
  destruct (is_model_or_brush n); cbn in *; [done|].
  case_bool_decide as Ht; cbn in Hl; [|done].
  case_bool_decide as Hp; [|done].
  by rewrite Ht, Hp, Hg.
Qed.

Lemma link_target_known E sc ov insts n acc :
  ~ unknown_target sc n ->
  exists acc', link_target E sc ov insts n acc = inr acc'.
Proof.
  unfold unknown_target, is_item_link, link_target.
  intros Hk. destruct acc as [item acc].
  destruct (is_model_or_brush n); cbn in *; [eauto|].
  destruct (toggles sc !! n) eqn:Ht; [eauto|].
  destruct (panels sc !! n) eqn:Hp; [eauto|].
  destruct (dict_get (scan_ITEMS sc) n) eqn:Hg; [eauto|].
  exfalso. apply Hk. by rewrite !bool_decide_true.
Qed.

(** The item after the loop over the target names [ns]. *)
Lemma link_loop E sc ov insts ns item acc item' acc' :
  for_each (link_target E sc ov insts) ns (item, acc) = inr (item', acc') ->
  Item.timer item'
  = match last (linked_panels sc ns) with
    | Some pan => panel_timer_value E (insts !!! pan)
    | None => Item.timer item
    end
  /\ Item.ind_panels item'
     = Item.ind_panels item ∪ list_to_set (linked_panels sc ns)
  /\ Item.inst item' = Item.inst item
  /\ Item.inputs item' = Item.inputs item
  /\ Item.outputs item' = Item.outputs item.
Proof.
  revert item acc. induction ns as [|n ns IH]; intros item acc.
  - intros [= <- <-]. split_and!; try done. set_solver.
  - rewrite for_each_cons.
    destruct (link_target E sc ov insts n (item, acc)) as [e|[item1 acc1]] eqn:Hn;
      cbn; [done|].
    intros (Ht & Hp & Hi & Hin & Hout)%IH.
    unfold linked_panels in *. cbn.
    destruct (panel_of sc n) as [pan|] eqn:Hpan.
    + rewrite (link_target_panel _ _ _ _ _ _ _ _ Hpan) in Hn.
      injection Hn as <- <-. cbn in *. rewrite last_cons.
      split_and!; try done.
      * rewrite Ht. by destruct (last (omap (panel_of sc) ns)).
      * rewrite Hp. set_solver.
    + destruct (link_target_other _ _ _ _ _ _ _ _ _ Hpan Hn)
        as (Ht1 & Hp1 & Hi1 & Hin1 & Hout1).
      split_and!; [by rewrite Ht, Ht1|by rewrite Hp, Hp1|congruence..].
Qed.

Lemma panel_timer_value_valid E pan : valid_timer (panel_timer_value E pan).
Proof.
  unfold panel_timer_value.
  destruct (Entity.fixup_bool E pan TIM_ENABLED); [|done].
  destruct (1 <=? Entity.fixup_int E pan TIM_DELAY)%Z eqn:H1; [|done].
  destruct (Entity.fixup_int E pan TIM_DELAY <=? 30)%Z eqn:H2; [|done].
  cbn. lia.
Qed.

(** The three cases of the timer a panel gives. *)
Lemma panel_timer_value_cases E pan :
  (Entity.fixup_bool E pan TIM_ENABLED = false ->
   panel_timer_value E pan = None)
  /\ (Entity.fixup_bool E pan TIM_ENABLED = true ->
      (1 <= Entity.fixup_int E pan TIM_DELAY <= 30)%Z ->
      panel_timer_value E pan = Some (Entity.fixup_int E pan TIM_DELAY))
  /\ (Entity.fixup_bool E pan TIM_ENABLED = true ->
      ~ (1 <= Entity.fixup_int E pan TIM_DELAY <= 30)%Z ->
      panel_timer_value E pan = None).
Proof.
  unfold panel_timer_value. split_and!.
  - by intros ->.
  - intros -> [H1 H2].
    apply Z.leb_le in H1. apply Z.leb_le in H2. by rewrite H1, H2.
  - intros -> Hn.
    destruct (1 <=? Entity.fixup_int E pan TIM_DELAY)%Z eqn:H1; [|done].
    destruct (Entity.fixup_int E pan TIM_DELAY <=? 30)%Z eqn:H2; [|done].
    exfalso. apply Hn. lia.
Qed.
(** * Building one item *)

Lemma same_fields_refl a : same_fields a a.
Proof. by repeat split. Qed.

Lemma same_fields_trans a b c :
  same_fields a b -> same_fields b c -> same_fields a c.
Proof. unfold same_fields. intros. split_and!; naive_solver congruence. Qed.

Lemma Forall2_same_fields_refl l : Forall2 same_fields l l.
Proof. apply Forall_Forall2_diag, Forall_forall. intros. apply same_fields_refl. Qed.

Lemma Forall2_same_fields_trans l1 l2 l3 :
  Forall2 same_fields l1 l2 -> Forall2 same_fields l2 l3 ->
  Forall2 same_fields l1 l3.
Proof.
  intros H12. revert l3. induction H12; intros l3 H23; inversion H23; subst;
    constructor; eauto using same_fields_trans.
Qed.

Lemma add_same_fields c g :
  Forall2 same_fields (items g) (items (Connection_add c g)).
Proof.
  unfold Connection_add. destruct (conns g !! c); cbn;
    [|apply Forall2_same_fields_refl].
  apply Forall2_alter_r; [apply Forall2_alter_r|].
  - apply Forall2_same_fields_refl.
  - intros x y _ _ H. eapply same_fields_trans; [exact H|]. by repeat split.
  - intros x y _ _ H. eapply same_fields_trans; [exact H|]. by repeat split.
Qed.

Lemma connect_input_inv E inputs insts item inp_item g g' :
  connect_input E inputs insts item inp_item g = inr g' ->
  Forall2 same_fields (items g) (items g')
  /\ exists conn,
      conns g' = conns g ++ [conn]
      /\ Connection.inp conn = inp_item /\ Connection.out conn = item.
Proof.
  unfold connect_input.
  destruct (conn_type_of _ _ _ _) as [e|t]; cbn; [done|].
  intros [= <-]. split.
  - apply (add_same_fields (length (conns g))
             (mkGraph (items g) (conns g ++ [_]))).
  - rewrite conns_add. cbn. eauto.
Qed.

Lemma connect_loop_inv E inputs insts item l g g' :
  for_each (connect_input E inputs insts item) l g = inr g' ->
  Forall2 same_fields (items g) (items g')
  /\ exists new,
      conns g' = conns g ++ new
      /\ Forall (fun conn => Connection.inp conn ∈ l
                             /\ Connection.out conn = item) new.
Proof.
  revert g. induction l as [|x l IH]; intros g.
  - intros [= <-]. split; [apply Forall2_same_fields_refl|].
    exists []. by rewrite app_nil_r.
  - rewrite for_each_cons.
    destruct (connect_input E inputs insts item x g) as [e|g1] eqn:Hx;
      cbn; [done|].
    apply connect_input_inv in Hx as (H1 & conn & Hc & Hi & Ho).
    intros (H2 & new & Hn & Hall)%IH. split.
    + by eapply Forall2_same_fields_trans.
    + exists (conn :: new). rewrite Hn, Hc, <- app_assoc. split; [done|].
      constructor.
      * split; [|done]. rewrite Hi. by left.
      * eapply Forall_impl; [exact Hall|]. cbn. intros c [? ?].
        split; [by right|done].
Qed.

Lemma build_item_inv E sc ov r insts g insts' g' :
  build_item E sc ov r (insts, g) = inr (insts', g') ->
  exists item1 input_items,
    for_each (link_target E sc ov insts)
      (out_names (insts !!! Item.inst (items g !!! r)))
      (items g !!! r, []) = inr (item1, input_items)
    /\ insts' = reconcile_panels E item1 insts
    /\ Forall2 same_fields (<[r := item1]> (items g)) (items g')
    /\ exists new,
        conns g' = conns g ++ new
        /\ Forall (fun conn => Connection.inp conn ∈ input_items
                               /\ Connection.out conn = r) new.
Proof.
  unfold build_item, out_names.
  destruct (for_each _ _ _) as [e|[item1 input_items]] eqn:Hl; cbn; [done|].
  destruct (for_each (connect_input _ _ _ _) _ _) as [e|g2] eqn:Hc; cbn; [done|].
  intros [= <- <-]. apply connect_loop_inv in Hc as [H1 H2].
  by exists item1, input_items.
Qed.

Lemma reconcile_panel_idem E timer e :
  reconcile_panel E timer (reconcile_panel E timer e) = reconcile_panel E timer e.
Proof.
  unfold reconcile_panel, Entity.fixup_set, Entity.set. cbn.
  by rewrite !insert_insert_eq.
Qed.

Lemma reconcile_fold_lookup E timer (l : list nat) (insts : list Entity.t) j :
  foldr (fun pan st => alter (reconcile_panel E timer) pan st) insts l !! j
  = if decide (j ∈ l) then reconcile_panel E timer <$> insts !! j
    else insts !! j.
Proof.
  induction l as [|p l IH]; cbn.
  - rewrite decide_False; [done|]. apply not_elem_of_nil.
  - rewrite list_lookup_alter. destruct (decide (p = j)) as [->|Hne].
    + rewrite decide_True by left. rewrite IH. case_decide; [|done].
      destruct (insts !! j); cbn; [|done]. by rewrite reconcile_panel_idem.
    + rewrite IH. destruct (decide (j ∈ l)).
      * rewrite decide_True; [done|]. by right.
      * rewrite decide_False; [done|]. intros [?|?]%elem_of_cons; naive_solver.
Qed.

Lemma reconcile_panels_lookup E item insts j :
  reconcile_panels E item insts !! j
  = if decide (j ∈ Item.ind_panels item)
    then reconcile_panel E (Item.timer item) <$> insts !! j
    else insts !! j.
Proof.
  unfold reconcile_panels. rewrite reconcile_fold_lookup.
  destruct (decide (j ∈ elements (Item.ind_panels item))) as [H|H];
    rewrite elem_of_elements in H.
  - by rewrite decide_True.
  - by rewrite decide_False.
Qed.

Lemma reconcile_panels_length E item insts :
  length (reconcile_panels E item insts) = length insts.
Proof.
  unfold reconcile_panels.
  induction (elements (Item.ind_panels item)) as [|p l IH]; cbn; [done|].
  by rewrite length_alter.
Qed.

Lemma reconcile_panel_same_instance E timer e :
  same_instance e (reconcile_panel E timer e).
Proof.
  unfold same_instance, reconcile_panel, Entity.get. cbn.
  rewrite lookup_insert_ne by done. split_and!; try done.
  intros var Hvar. by rewrite lookup_insert_ne.
Qed.

Lemma same_instance_refl e : same_instance e e.
Proof. by repeat split. Qed.

Lemma same_instance_trans a b c :
  same_instance a b -> same_instance b c -> same_instance a c.
Proof.
  unfold same_instance.
  intros (H1 & H2 & H3 & H4 & H5) (H1' & H2' & H3' & H4' & H5').
  split_and!; try congruence.
  intros var Hvar. rewrite H5 by done. by apply H5'.
Qed.

Lemma reconcile_panels_same E item insts :
  Forall2 same_instance insts (reconcile_panels E item insts).
Proof.
  apply Forall2_same_length_lookup. split.
  - by rewrite reconcile_panels_length.
  - intros j a b Ha. rewrite reconcile_panels_lookup, Ha.
    case_decide; cbn; intros [= <-].
    + apply reconcile_panel_same_instance.
    + apply same_instance_refl.
Qed.
(** * Dicts *)

Section DictLemmas.
Context {K V : Type} `{EqDecision K}.
Implicit Types (d : list (K * V)) (k : K) (v : V).

Lemma dict_get_set d k v k' :
  dict_get (dict_set k v d) k' = if decide (k' = k) then Some v else dict_get d k'.
Proof.
  induction d as [|[k1 v1] d IH]; cbn.
  - destruct (decide (k' = k)); [done|]. done.
  - destruct (decide (k = k1)) as [->|Hne]; cbn.
    + destruct (decide (k' = k1)); done.
    + rewrite IH. destruct (decide (k' = k1)) as [->|?]; [|done].
      by rewrite decide_False by done.
Qed.

Lemma dict_get_Some_elem d k v : dict_get d k = Some v -> (k, v) ∈ d.
Proof.
  induction d as [|[k1 v1] d IH]; cbn; [done|].
  destruct (decide (k = k1)) as [->|?].
  - intros [= ->]. by left.
  - intros ?%IH. by right.
Qed.

Lemma dict_get_Some_value d k v : dict_get d k = Some v -> v ∈ dict_values d.
Proof.
  intros H%dict_get_Some_elem. unfold dict_values.
  apply list_elem_of_fmap. by exists (k, v).
Qed.


Lemma dict_get_elem d k v :
  NoDup (dict_keys d) -> (k, v) ∈ d -> dict_get d k = Some v.
Proof.
  unfold dict_keys. induction d as [|[k1 v1] d IH]; cbn.
  - by intros _ ?%not_elem_of_nil.
  - intros [Hn Hd]%NoDup_cons [[= -> ->]|Hin]%elem_of_cons.
    + by rewrite decide_True.
    + rewrite decide_False; [by apply IH|].
      intros ->. apply Hn. apply list_elem_of_fmap. by exists (k1, v).
Qed.

Lemma dict_value_get d v :
  NoDup (dict_keys d) -> v ∈ dict_values d -> exists k, dict_get d k = Some v.
Proof.
  intros Hd ([k v'] & -> & Hin)%list_elem_of_fmap. exists k. by apply dict_get_elem.
Qed.

Lemma dict_keys_set d k v :
  dict_keys (dict_set k v d)
  = if decide (k ∈ dict_keys d) then dict_keys d else dict_keys d ++ [k].
Proof.
  unfold dict_keys. induction d as [|[k1 v1] d IH]; cbn.
  - rewrite decide_False; [done|]. apply not_elem_of_nil.
  - destruct (decide (k = k1)) as [->|Hne]; cbn.
    + rewrite decide_True; [done|]. by left.
    + rewrite IH. destruct (decide (k ∈ d.*1)).
      * rewrite decide_True; [done|]. by right.
      * rewrite decide_False; [done|]. rewrite not_elem_of_cons. done.
Qed.

Lemma dict_keys_set_NoDup d k v :
  NoDup (dict_keys d) -> NoDup (dict_keys (dict_set k v d)).
Proof.
  intros Hd. rewrite dict_keys_set. case_decide; [done|].
  apply NoDup_app. split_and!; [done| |apply NoDup_singleton].
  intros x Hx ->%list_elem_of_singleton. done.
Qed.

Lemma dict_values_set d k v x :
  x ∈ dict_values (dict_set k v d) -> x = v \/ x ∈ dict_values d.
Proof.
  unfold dict_values. induction d as [|[k1 v1] d IH]; cbn.
  - intros ->%list_elem_of_singleton. by left.
  - destruct (decide (k = k1)) as [->|Hne]; cbn.
    + intros [->|?]%elem_of_cons; [by left|]. right. by right.
    + intros [->|?]%elem_of_cons; [right; by left|].
      destruct IH as [?|?]; [done|by left|]. right. by right.
Qed.

Lemma dict_values_set_NoDup d k v :
  NoDup (dict_values d) -> v ∉ dict_values d ->
  NoDup (dict_values (dict_set k v d)).
Proof.
  unfold dict_values. induction d as [|[k1 v1] d IH]; cbn.
  - intros _ _. apply NoDup_singleton.
  - intros [Hn Hd]%NoDup_cons [Hv1 Hv]%not_elem_of_cons.
    destruct (decide (k = k1)) as [->|Hne]; cbn.
    + apply NoDup_cons. done.
    + apply NoDup_cons. split; [|by apply IH].
      intros [->|?]%dict_values_set; done.
Qed.

End DictLemmas.
(** * The scan of the instances *)

Lemma enumerate_from_app {A} n (l1 l2 : list A) :
  enumerate_from n (l1 ++ l2)
  = enumerate_from n l1 ++ enumerate_from (n + length l1) l2.
Proof.
  revert n. induction l1 as [|x l1 IH]; intros n; cbn.
  - by rewrite Nat.add_0_r.
  - rewrite IH. do 3 f_equal. lia.
Qed.

Lemma for_each_snoc {A S} (f : A -> S -> result S) xs x s :
  for_each f (xs ++ [x]) s = (s' ← for_each f xs s; f x s').
Proof.
  rewrite for_each_app. destruct (for_each f xs s) as [e|s1]; cbn; [done|].
  by destruct (f x s1).
Qed.

Lemma scan_instances_snoc E T l x :
  scan_instances E T (l ++ [x])
  = (sc ← scan_instances E T l; scan_instance E T (length l, x) sc).
Proof.
  unfold scan_instances, enumerate. rewrite enumerate_from_app.
  apply for_each_snoc.
Qed.

Lemma scanned_start : scanned [] scan_start.
Proof.
  split; cbn; try done; apply NoDup_nil_2.
Qed.

Lemma scanned_grow l x sc :
  (forall n p, toggles sc !! n = Some p -> p < length l) ->
  (forall n p, panels sc !! n = Some p -> p < length l) ->
  ~ is_normal_item x ->
  scanned l (mkScan (toggles sc) (panels sc) (scan_graph sc) (scan_ITEMS sc)) ->
  forall tg pn,
    (forall n p, tg !! n = Some p -> p < length (l ++ [x])) ->
    (forall n p, pn !! n = Some p -> p < length (l ++ [x])) ->
    scanned (l ++ [x]) (mkScan tg pn (scan_graph sc) (scan_ITEMS sc)).
Proof.
  intros _ _ Hx [Ht Hp Hc Hf Hk Hv Hi Hinj Hl] tg pn Htg Hpn. cbn in *.
  split; cbn; try done.
  - eapply Forall_impl; [exact Hf|]. cbn. intros it (i & ty & -> & Hlt).
    exists i, ty. split; [done|]. rewrite length_app. lia.
  - intros n r (it & e & H1 & H2 & H3 & H4)%Hi. exists it, e.
    split_and!; try done. by apply lookup_app_l_Some.
  - intros k e [Hk'|[Hk1 Hk2]]%lookup_app_Some Hn; [by eapply Hl|].
    destruct (k - length l); cbn in Hk2; [|done]. by simplify_eq.
Qed.

Lemma scan_instance_scanned E T l x sc sc' :
  scanned l sc -> scan_instance E T (length l, x) sc = inr sc' ->
  scanned (l ++ [x]) sc'.
Proof.
  intros Hsc. unfold scan_instance.
  assert (Hlen : length (l ++ [x]) = S (length l)) by (rewrite length_app; cbn; lia).
  destruct (decide (Entity.get x "targetname" = EmptyString)) as [Hblank|Hname].
  { intros [= <-]. destruct sc as [tg pn g it]. 
    eapply (scanned_grow l x (mkScan tg pn g it)); cbn; try done.
    - apply Hsc.
    - apply Hsc.
    - intros [? _]. done.
    - intros n p ?%(sc_toggles _ _ Hsc). lia.
    - intros n p ?%(sc_panels _ _ Hsc). lia. }
  destruct (decide ("indicator_toggle" ∈ Entity.traits x)) as [Htog|Hntog].
  { intros [= <-]. destruct sc as [tg pn g it].
    eapply (scanned_grow l x (mkScan tg pn g it)); cbn; try done.
    - apply Hsc.
    - apply Hsc.
    - intros (_ & ? & _). done.
    - intros n p [[_ <-]|[_ ?%(sc_toggles _ _ Hsc)]]%lookup_insert_Some; cbn in *; lia.
    - intros n p ?%(sc_panels _ _ Hsc). cbn in *. lia. }
  destruct (decide ("indicator_panel" ∈ Entity.traits x)) as [Hpan|Hnpan].
  { intros [= <-]. destruct sc as [tg pn g it].
    eapply (scanned_grow l x (mkScan tg pn g it)); cbn; try done.
    - apply Hsc.
    - apply Hsc.
    - intros (_ & _ & ?). done.
    - intros n p ?%(sc_toggles _ _ Hsc). cbn in *. lia.
    - intros n p [[_ <-]|[_ ?%(sc_panels _ _ Hsc)]]%lookup_insert_Some; cbn in *; lia. }
  destruct (T !! casefold E (Entity.item_id x)) as [ty|]; [|done].
  cbn. intros [= <-].
  destruct Hsc as [Ht Hp Hc Hf Hk Hv Hi Hinj Hl].
  assert (Hxn : is_normal_item x) by done.
  assert (Hold : forall r it, items (scan_graph sc) !! r = Some it ->
                              Item.inst it < length l).
  { intros r it Hr. eapply Forall_lookup_1 in Hf; [|exact Hr].
    destruct Hf as (i & ty' & -> & ?). done. }
  split; cbn.
  - intros n p ?%Ht. lia.
  - intros n p ?%Hp. lia.
  - done.
  - apply Forall_app. split.
    + eapply Forall_impl; [exact Hf|]. cbn. intros it (i & ty' & -> & Hlt).
      exists i, ty'. split; [done|]. lia.
    + constructor; [|constructor]. exists (length l), ty. split; [done|]. lia.
  - by apply dict_keys_set_NoDup.
  - apply dict_values_set_NoDup; [done|].
    intros (n & Hn)%(dict_value_get _ _ Hk).
    apply Hi in Hn as (it & e & Hit & _). apply lookup_lt_Some in Hit. lia.
  - intros n r. rewrite dict_get_set. case_decide as Hn.
    + intros [= <-]. subst n. exists (Item.new (length l) ty), x.
      split_and!; try done.
      * rewrite lookup_app_r by done. by rewrite Nat.sub_diag.
      * cbn. rewrite lookup_app_r by done. by rewrite Nat.sub_diag.
    + intros (it & e & H1 & H2 & H3 & H4)%Hi. exists it, e.
      split_and!; try done; by apply lookup_app_l_Some.
  - intros r1 r2 it1 it2 [H1|[H1 H1']]%lookup_app_Some [H2|[H2 H2']]%lookup_app_Some.
    + by eapply Hinj.
    + destruct (r2 - _) eqn:Hd; cbn in H2'; [|done]. simplify_eq. cbn.
      intros Heq. apply Hold in H1. lia.
    + destruct (r1 - _) eqn:Hd; cbn in H1'; [|done]. simplify_eq. cbn.
      intros Heq. apply Hold in H2. lia.
    + destruct (r1 - _) eqn:Hd1; cbn in H1'; [|done].
      destruct (r2 - _) eqn:Hd2; cbn in H2'; [|done]. lia.
  - intros k e Hk' Hn.
    destruct (decide (Entity.get e "targetname" = Entity.get x "targetname"))
      as [Heq|Hne].
    + exists (length (items (scan_graph sc))), (Item.new (length l) ty).
      rewrite dict_get_set, decide_True by done. split_and!; [done| |].
      * rewrite lookup_app_r by done. by rewrite Nat.sub_diag.
      * cbn. apply lookup_lt_Some in Hk'. lia.
    + apply lookup_app_Some in Hk' as [Hk'|[_ Hk']].
      * destruct (Hl _ _ Hk' Hn) as (r & it & H1 & H2 & H3).
        exists r, it. rewrite dict_get_set, decide_False by done.
        split_and!; [done| |done]. by apply lookup_app_l_Some.
      * destruct (k - _); cbn in Hk'; [|done]. by simplify_eq.
Qed.

Lemma scan_instances_scanned E T l sc :
  scan_instances E T l = inr sc -> scanned l sc.
Proof.
  revert sc. induction l as [|x l IH] using rev_ind; intros sc.
  - intros [= <-]. apply scanned_start.
  - rewrite scan_instances_snoc.
    destruct (scan_instances E T l) as [e|sc0]; cbn; [done|].
    intros H. eapply scan_instance_scanned; [|exact H]. by apply IH.
Qed.

(** The scan fails only where an instance that becomes an item has no
    item type. *)
Lemma scan_instances_ok E T l :
  (forall k e, l !! k = Some e -> is_normal_item e ->
               is_Some (T !! casefold E (Entity.item_id e))) ->
  exists sc, scan_instances E T l = inr sc.
Proof.
  induction l as [|x l IH] using rev_ind; intros Hall.
  - by exists scan_start.
  - rewrite scan_instances_snoc. destruct IH as [sc ->].
    { intros k e Hk. apply (Hall k). by apply lookup_app_l_Some. }
    cbn. unfold scan_instance.
    destruct (decide _); [eauto|]. destruct (decide _); [eauto|].
    destruct (decide _); [eauto|].
    destruct (Hall (length l) x) as [ty ->]; [|done|cbn; eauto].
    rewrite lookup_app_r by done. by rewrite Nat.sub_diag.
Qed.
(** * The loop over the items *)

Lemma link_loop_acc E sc ov insts ns item acc item' acc' :
  for_each (link_target E sc ov insts) ns (item, acc) = inr (item', acc') ->
  forall x, x ∈ acc' -> x ∈ acc \/ x ∈ dict_values (scan_ITEMS sc).
Proof.
  revert item acc. induction ns as [|n ns IH]; intros item acc.
  - intros [= <- <-]. by left.
  - rewrite for_each_cons.
    destruct (link_target E sc ov insts n (item, acc)) as [e|[item1 acc1]] eqn:Hn;
      cbn; [done|].
    intros H x Hx. destruct (IH _ _ H x Hx) as [Hacc|?]; [|by right].
    revert Hn. unfold link_target.
    destruct (is_model_or_brush n); [intros [= <- <-]; by left|].
    destruct (toggles sc !! n); [intros [= <- <-]; by left|].
    destruct (panels sc !! n); [intros [= <- <-]; by left|].
    destruct (dict_get (scan_ITEMS sc) n) as [r|] eqn:Hr; [|done].
    intros [= <- <-]. apply elem_of_app in Hacc as [?|Hs].
    + by left.
    + apply list_elem_of_singleton in Hs as ->.
      right. by eapply dict_get_Some_value.
Qed.

Lemma linked_panels_in_range l sc ns pan :
  scanned l sc -> pan ∈ linked_panels sc ns -> pan < length l.
Proof.
  intros Hsc (n & _ & Hn)%list_elem_of_omap. unfold panel_of in Hn.
  destruct (is_panel_link sc n); [|done]. by eapply sc_panels.
Qed.

Lemma built_start insts0 sc :
  scanned insts0 sc -> built insts0 sc [] insts0 (scan_graph sc).
Proof.
  intros Hsc. split.
  - apply Forall_Forall2_diag, Forall_forall. intros. apply same_instance_refl.
  - apply Forall_Forall2_diag, Forall_forall. done.
  - intros r a b _ Ha Hb. simplify_eq. apply same_fields_refl.
  - eapply Forall_impl; [apply (sc_fresh _ _ Hsc)|]. cbn.
    by intros it (i & ty & -> & _).
  - rewrite (sc_conns _ _ Hsc). constructor.
  - eapply Forall_impl; [apply (sc_fresh _ _ Hsc)|]. cbn.
    intros it (i & ty & -> & _) pan. cbn. set_solver.
Qed.

Lemma built_step E ov insts0 sc done r insts g insts' g' :
  scanned insts0 sc -> built insts0 sc done insts g ->
  r ∈ dict_values (scan_ITEMS sc) ->
  build_item E sc ov r (insts, g) = inr (insts', g') ->
  built insts0 sc (done ++ [r]) insts' g'.
Proof.
  intros Hsc [Hi Hinst Hpend Ht Hc Hp] Hr Hb.
  apply build_item_inv in Hb
    as (item1 & input_items & Hloop & -> & Hsame & new & Hnew & Hall).
  pose proof (link_loop _ _ _ _ _ _ _ _ _ Hloop) as (Htim & Hpan & Hin & _ & _).
  pose proof (link_loop_acc _ _ _ _ _ _ _ _ _ Hloop) as Hacc.
  assert (Hrg : r < length (items g)).
  { apply (dict_value_get _ _ (sc_keys _ _ Hsc)) in Hr as [n Hn].
    apply (sc_items _ _ Hsc) in Hn as (it & e & Hit & _).
    apply lookup_lt_Some in Hit. by rewrite <- (Forall2_length _ _ _ Hinst). }
  destruct (lookup_lt_is_Some_2 _ _ Hrg) as [item Hitem].
  rewrite (list_lookup_total_correct _ _ _ Hitem) in *.
  split.
  - eapply Forall2_trans; [|exact Hi|apply reconcile_panels_same].
    intros ? ? ?. apply same_instance_trans.
  - eapply Forall2_trans with (k := <[r := item1]> (items g))
                              (P := fun a b => Item.inst a = Item.inst b)
                              (Q := fun a b => Item.inst a = Item.inst b).
    + intros a b c Hab Hbc. rewrite Hab. exact Hbc.
    + apply Forall2_same_length_lookup. split.
      * rewrite length_insert. by eapply Forall2_length.
      * intros j a b Ha. destruct (decide (j = r)) as [->|Hne].
        -- rewrite list_lookup_insert_eq by done. intros [= <-].
           rewrite (Forall2_lookup_lr _ _ _ _ _ _ Hinst Ha Hitem). by rewrite Hin.
        -- rewrite list_lookup_insert_ne by done. intros Hb.
           exact (Forall2_lookup_lr _ _ _ _ _ _ Hinst Ha Hb).
    + eapply Forall2_impl; [exact Hsame|]. by intros a b (? & _).
  - intros r' a b [Hnd Hne%not_elem_of_cons]%not_elem_of_app Ha Hb.
    destruct Hne as [Hne _].
    destruct (Forall2_lookup_r _ _ _ _ _ Hsame Hb) as (b0 & Hb0 & Hsf).
    rewrite list_lookup_insert_ne in Hb0 by done.
    eapply same_fields_trans; [|exact Hsf]. by eapply Hpend.
  - assert (H1 : Forall (fun it => valid_timer (Item.timer it))
                        (<[r := item1]> (items g))).
    { apply Forall_insert; [done|]. rewrite Htim.
      destruct (last _); [apply panel_timer_value_valid|].
      by eapply Forall_lookup_1 in Ht. }
    eapply Forall2_Forall_r; [exact Hsame|].
    eapply Forall_impl; [exact H1|]. cbn.
    intros a Ha b (_ & _ & _ & _ & _ & _ & <-). done.
  - rewrite Hnew. apply Forall_app. split.
    + eapply Forall_impl; [exact Hc|]. cbn. intros c [? ?].
      split; [done|]. apply elem_of_app. by left.
    + eapply Forall_impl; [exact Hall|]. cbn. intros c [Hci ->].
      split.
      * destruct (Hacc _ Hci) as [?%not_elem_of_nil|?]; done.
      * apply elem_of_app. right. by left.
  - assert (H1 : Forall (fun it => forall pan, pan ∈ Item.ind_panels it ->
                                               pan < length insts0)
                        (<[r := item1]> (items g))).
    { apply Forall_insert; [done|]. intros pan. rewrite Hpan.
      intros [Hold|Hnew']%elem_of_union.
      - eapply Forall_lookup_1 in Hp; [|exact Hitem]. by apply Hp.
      - apply elem_of_list_to_set in Hnew'. by eapply linked_panels_in_range. }
    eapply Forall2_Forall_r; [exact Hsame|].
    eapply Forall_impl; [exact H1|]. cbn.
    intros a Ha b (_ & _ & <- & _). done.
Qed.

Lemma built_run E ov insts0 sc pre insts g :
  scanned insts0 sc ->
  (forall x, x ∈ pre -> x ∈ dict_values (scan_ITEMS sc)) ->
  for_each (build_item E sc ov) pre (insts0, scan_graph sc) = inr (insts, g) ->
  built insts0 sc pre insts g.
Proof.
  intros Hsc. revert insts g.
  induction pre as [|r pre IH] using rev_ind; intros insts g Hpre.
  - intros [= <- <-]. by apply built_start.
  - rewrite for_each_snoc.
    destruct (for_each _ pre _) as [e|[insts1 g1]] eqn:H1; cbn; [done|].
    intros H2. eapply built_step; [done| | |exact H2].
    + apply IH; [|done]. intros x Hx. apply Hpre. apply elem_of_app. by left.
    + apply Hpre. apply elem_of_app. right. by left.
Qed.
(** * An item of the map in the loop *)

(** The state in which the loop reaches the item [r] of the registry:
    the item is as the scan made it but for its two sets, and its
    instance has the outputs it has in the map. *)
Lemma item_reached E ITEM_TYPES ov insts0 sc pre r post insts g :
  scan_instances E ITEM_TYPES insts0 = inr sc ->
  dict_values (scan_ITEMS sc) = pre ++ r :: post ->
  for_each (build_item E sc ov) pre (insts0, scan_graph sc) = inr (insts, g) ->
  built insts0 sc pre insts g
  /\ exists item e0 e,
      items g !! r = Some item
      /\ Item.timer item = None /\ Item.ind_panels item = ∅
      /\ insts0 !! Item.inst item = Some e0 /\ insts !! Item.inst item = Some e
      /\ same_instance e0 e /\ is_normal_item e0.
Proof.
  intros Hscan%scan_instances_scanned Hvals Hrun.
  assert (Hb : built insts0 sc pre insts g).
  { eapply built_run; [done| |done]. intros x Hx. rewrite Hvals.
    apply elem_of_app. by left. }
  split; [done|].
  assert (Hr : r ∈ dict_values (scan_ITEMS sc)).
  { rewrite Hvals. apply elem_of_app. right. by left. }
  assert (Hnd : r ∉ pre).
  { pose proof (sc_values _ _ Hscan) as Hn. rewrite Hvals in Hn.
    apply NoDup_app in Hn as (_ & Hn & _). intros Hx.
    apply (Hn _ Hx). by left. }
  apply (dict_value_get _ _ (sc_keys _ _ Hscan)) in Hr as [n Hn].
  apply (sc_items _ _ Hscan) in Hn as (it & e0 & Hit & He0 & _ & Hnorm).
  destruct (Forall2_lookup_l _ _ _ _ _ (b_inst _ _ _ _ _ Hb) Hit)
    as (item & Hitem & Hinst).
  pose proof (b_pending _ _ _ _ _ Hb _ _ _ Hnd Hit Hitem)
    as (_ & _ & Hp & _ & _ & _ & Htim).
  pose proof (sc_fresh _ _ Hscan) as Hf.
  eapply Forall_lookup_1 in Hf; [|exact Hit].
  destruct Hf as (i & ty & -> & _). cbn in *.
  rewrite Hinst in He0.
  destruct (Forall2_lookup_l _ _ _ _ _ (b_insts _ _ _ _ _ Hb) He0)
    as (e & He & Hsame).
  exists item, e0, e. by split_and!.
Qed.

(** What a run of the pass went through. *)
Lemma calc_connections_inv E ITEM_TYPES vmf tex en st :
  calc_connections E ITEM_TYPES vmf tex en = inr st ->
  exists sc sg insts,
    scan_instances E ITEM_TYPES (func_instance vmf) = inr sc
    /\ make_shapes E (info_overlay vmf) (scan_overlays E (info_overlay vmf))
       = inr sg
    /\ build_items E sc (scan_overlays E (info_overlay vmf)) (func_instance vmf)
       = inr (insts, st_graph st)
    /\ ITEMS st = scan_ITEMS sc
    /\ st_func_instance st
       = fix_all_counts E (st_graph st) (scan_ITEMS sc) insts
    /\ st_shapes st = fr_shapes (make_frames E tex en sg)
    /\ st_by_index st = fr_by_index (make_frames E tex en sg)
    /\ st_added st = fr_added (make_frames E tex en sg)
    /\ st_info_overlay st = sign_overlays sg.
Proof.
  unfold calc_connections.
  destruct (scan_instances _ _ _) as [e|sc] eqn:H1; cbn; [done|].
  destruct (make_shapes _ _ _) as [e|sg] eqn:H2; cbn; [done|].
  destruct (build_items _ _ _ _) as [e|[insts g]] eqn:H3; cbn; [done|].
  intros [= <-]. cbn. by exists sc, sg, insts.
Qed.

Lemma build_items_built E sc ov insts0 ITEM_TYPES insts g :
  scan_instances E ITEM_TYPES insts0 = inr sc ->
  build_items E sc ov insts0 = inr (insts, g) ->
  built insts0 sc (dict_values (scan_ITEMS sc)) insts g.
Proof.
  intros Hscan%scan_instances_scanned Hrun.
  eapply built_run; [done| |exact Hrun]. done.
Qed.

(** The timer of the item the loop has just built. *)
Lemma built_item_timer E ITEM_TYPES ov insts0 sc pre r post insts g insts' g' :
  scan_instances E ITEM_TYPES insts0 = inr sc ->
  dict_values (scan_ITEMS sc) = pre ++ r :: post ->
  for_each (build_item E sc ov) pre (insts0, scan_graph sc) = inr (insts, g) ->
  build_item E sc ov r (insts, g) = inr (insts', g') ->
  exists item',
    items g' !! r = Some item'
    /\ Item.timer item'
       = match last (linked_panels sc
                       (out_names (insts !!! Item.inst (items g !!! r)))) with
         | Some pan => panel_timer_value E (insts !!! pan)
         | None => None
         end
    /\ Item.ind_panels item'
       = list_to_set (linked_panels sc
                        (out_names (insts !!! Item.inst (items g !!! r))))
    /\ insts' = reconcile_panels E item' insts
    /\ forall pan, pan ∈ Item.ind_panels item' -> pan < length insts.
Proof.
  intros Hscan Hvals Hrun Hb.
  destruct (item_reached _ _ _ _ _ _ _ _ _ _ Hscan Hvals Hrun)
    as (Hbuilt & item & e0 & e & Hitem & Htim & Hpan & _ & _ & _ & _).
  apply build_item_inv in Hb
    as (item1 & input_items & Hloop & -> & Hsame & _).
  pose proof (link_loop _ _ _ _ _ _ _ _ _ Hloop) as (Ht1 & Hp1 & _).
  rewrite (list_lookup_total_correct _ _ _ Hitem) in *.
  assert (H1 : <[r := item1]> (items g) !! r = Some item1).
  { apply list_lookup_insert_eq. by eapply lookup_lt_Some. }
  destruct (Forall2_lookup_l _ _ _ _ _ Hsame H1)
    as (item' & Hitem' & (_ & _ & Hp' & _ & _ & _ & Ht')).
  exists item'. split_and!; [done| | | |].
  - by rewrite <- Ht', Ht1, Htim.
  - rewrite <- Hp', Hp1, Hpan. set_solver.
  - unfold reconcile_panels. by rewrite <- Hp', <- Ht'.
  - intros pan. rewrite <- Hp', Hp1, Hpan.
    intros [?%not_elem_of_empty|Hin%elem_of_list_to_set]%elem_of_union; [done|].
    rewrite <- (Forall2_length _ _ _ (b_insts _ _ _ _ _ Hbuilt)).
    eapply linked_panels_in_range; [|done]. by eapply scan_instances_scanned.
Qed.
(** * Outputs grouped by target *)

Lemma dict_keys_append {K A} `{EqDecision K} (k : K) (x : A) d k' :
  k' ∈ dict_keys (dict_append k x d) <-> k' = k \/ k' ∈ dict_keys d.
Proof.
  unfold dict_append. rewrite dict_keys_set. case_decide as Hk.
  - naive_solver.
  - rewrite elem_of_app, list_elem_of_singleton. naive_solver.
Qed.

Lemma group_outputs_keys outs out :
  out ∈ outs -> Output.target out ∈ dict_keys (group_outputs outs).
Proof.
  unfold group_outputs.
  assert (Hgen : forall d,
    out ∈ outs \/ Output.target out ∈ dict_keys d ->
    Output.target out ∈ dict_keys
      (foldl (fun inputs o => dict_append (Output.target o) o inputs) d outs)).
  { induction outs as [|o outs IH]; intros d; cbn.
    - intros [?%not_elem_of_nil|?]; done.
    - intros [[->|Hin]%elem_of_cons|Hd]; apply IH.
      + right. apply dict_keys_append. by left.
      + by left.
      + right. apply dict_keys_append. by right. }
  intros Hin. apply Hgen. by left.
Qed.

(** * Failures of the pass *)

Lemma build_item_link_fails E sc ov r insts g err :
  for_each (link_target E sc ov insts)
    (out_names (insts !!! Item.inst (items g !!! r))) (items g !!! r, [])
  = inl err ->
  build_item E sc ov r (insts, g) = inl err.
Proof. unfold build_item, out_names. by intros ->. Qed.

Lemma calc_connections_build_fails E ITEM_TYPES vmf tex en sc sg err :
  scan_instances E ITEM_TYPES (func_instance vmf) = inr sc ->
  make_shapes E (info_overlay vmf) (scan_overlays E (info_overlay vmf)) = inr sg ->
  build_items E sc (scan_overlays E (info_overlay vmf)) (func_instance vmf)
  = inl err ->
  calc_connections E ITEM_TYPES vmf tex en = inl err.
Proof.
  intros H1 H2 H3. unfold calc_connections. cbv zeta.
  rewrite H1. cbn. rewrite H2. cbn. by rewrite H3.
Qed.

(** The loop reads the target names of an item from the outputs its
    instance has in the map. *)
Lemma reached_out_names E ITEM_TYPES ov insts0 sc pre r post insts g e :
  scan_instances E ITEM_TYPES insts0 = inr sc ->
  dict_values (scan_ITEMS sc) = pre ++ r :: post ->
  for_each (build_item E sc ov) pre (insts0, scan_graph sc) = inr (insts, g) ->
  insts0 !! Item.inst (items (scan_graph sc) !!! r) = Some e ->
  out_names (insts !!! Item.inst (items g !!! r)) = out_names e.
Proof.
  intros Hscan Hvals Hrun He.
  destruct (item_reached _ _ _ _ _ _ _ _ _ _ Hscan Hvals Hrun)
    as (Hbuilt & item & e0 & e' & Hitem & _ & _ & He0 & He' & Hsame & _).
  rewrite (list_lookup_total_correct _ _ _ Hitem).
  rewrite (list_lookup_total_correct _ _ _ He').
  destruct (Forall2_lookup_r _ _ _ _ _ (b_inst _ _ _ _ _ Hbuilt) Hitem)
    as (it0 & Hit0 & Hinst).
  rewrite (list_lookup_total_correct _ _ _ Hit0), Hinst in He.
  simplify_eq. unfold out_names. by destruct Hsame as (_ & <- & _).
Qed.
(** * Timers and indicator panels *)


(** C3 (counterexample): the button is wired to [panel_off], whose
    timer-enabled fixup is false, and after the pass its timer is 5, the
    delay of [panel_on], the panel its outputs reach last. *)
Lemma timer_last_panel_counterexample :
  Output.target <$> Entity.outputs (func_instance two_panel_scene !!! 0)
  = ["panel_off"; "panel_on"]
  /\ Entity.fixup_bool demo_externals (func_instance two_panel_scene !!! 1)
       TIM_ENABLED = false
  /\ result_timers
       (calc_connections demo_externals demo_types two_panel_scene [] false)
     = Some [("button", Some 5%Z)].
Proof. split_and!; vm_compute; reflexivity. Qed.

(** C8 (counterexample): the button is wired to [panel_on], with
    timer-enabled true and delay 3, and then to [panel_off]; after the
    pass it has no timer and both panels have the checkmark file. *)
Lemma panel_scenario_counterexample :
  Output.target <$> Entity.outputs (func_instance timer_then_check_scene !!! 0)
  = ["panel_on"; "panel_off"]
  /\ Entity.fixup_bool demo_externals
       (func_instance timer_then_check_scene !!! 1) TIM_ENABLED = true
  /\ Entity.fixup_int demo_externals
       (func_instance timer_then_check_scene !!! 1) TIM_DELAY = 3%Z
  /\ result_timers
       (calc_connections demo_externals demo_types timer_then_check_scene
          [] false)
     = Some [("button", None)]
  /\ result_files
       (calc_connections demo_externals demo_types timer_then_check_scene
          [] false)
     = Some [EmptyString; panel_check demo_externals;
             panel_check demo_externals].
Proof. split_and!; vm_compute; reflexivity. Qed.
(** * Outputs to unknown names *)

(** The loop over the target names fails at the first unknown one. *)
Lemma link_loop_unknown E sc ov insts tpre n tpost acc :
  Forall (fun m => ~ unknown_target sc m) tpre -> unknown_target sc n ->
  for_each (link_target E sc ov insts) (tpre ++ n :: tpost) acc
  = inl (ValueError (unknown_instance_msg n)).
Proof.
  intros Hpre Hn. revert acc.
  induction Hpre as [|m tpre Hm _ IH]; intros acc; cbn.
  - by rewrite (link_target_unknown _ _ _ _ _ _ Hn).
  - destruct (link_target_known E sc ov insts m acc Hm) as [acc' ->]. cbn.
    apply IH.
Qed.

Lemma link_loop_fails E sc ov insts ns n acc :
  n ∈ ns -> unknown_target sc n ->
  exists err, for_each (link_target E sc ov insts) ns acc = inl err.
Proof.
  intros Hin Hn.
  eapply (for_each_must_fail _ (fun _ => True)); [exact Hin|done| |done].
  intros s _. rewrite (link_target_unknown _ _ _ _ _ _ Hn). eauto.
Qed.

(** C9 (amended): when an output of a registered item has a target name
    without model or brush suffix that is no toggle, no panel and no
    registered item, the pass fails and returns nothing; and when nothing
    fails before the loop reaches that name (the signage shapes are made,
    the items before this one are built, the target names before this
    one are known), the error it fails with is the [ValueError] that
    names this target. *)
Theorem unknown_instance_is_fatal E ITEM_TYPES vmf sc r e out :
  scan_instances E ITEM_TYPES (func_instance vmf) = inr sc ->
  r ∈ dict_values (scan_ITEMS sc) ->
  func_instance vmf !! Item.inst (items (scan_graph sc) !!! r) = Some e ->
  out ∈ Entity.outputs e ->
  unknown_target sc (Output.target out) ->
  (forall tex en,
      exists err, calc_connections E ITEM_TYPES vmf tex en = inl err)
  /\ (forall tex en sg pre post insts g tpre tpost,
        make_shapes E (info_overlay vmf) (scan_overlays E (info_overlay vmf))
        = inr sg ->
        dict_values (scan_ITEMS sc) = pre ++ r :: post ->
        for_each (build_item E sc (scan_overlays E (info_overlay vmf))) pre
          (func_instance vmf, scan_graph sc) = inr (insts, g) ->
        out_names e = tpre ++ Output.target out :: tpost ->
        Forall (fun n => ~ unknown_target sc n) tpre ->
        calc_connections E ITEM_TYPES vmf tex en
        = inl (ValueError (unknown_instance_msg (Output.target out)))).
Proof.
  intros Hscan Hr He Hout Hunk.
  set (ov := scan_overlays E (info_overlay vmf)).
  assert (Hbuild : exists err,
    build_items E sc ov (func_instance vmf) = inl err).
  { apply list_elem_of_split in Hr as (pre & post & Hvals).
    unfold build_items. rewrite Hvals.
    destruct (for_each (build_item E sc ov) pre (func_instance vmf, scan_graph sc))
      as [err|[insts g]] eqn:Hrun.
    { exists err. by rewrite for_each_app, Hrun. }
    destruct (link_loop_fails E sc ov insts
                (out_names (insts !!! Item.inst (items g !!! r)))
                (Output.target out) (items g !!! r, [])) as [err Herr].
    - rewrite (reached_out_names _ _ _ _ _ _ _ _ _ _ _ Hscan Hvals Hrun He).
      by apply group_outputs_keys.
    - done.
    - exists err. eapply for_each_fails_at; [exact Hrun|].
      by apply build_item_link_fails. }
  split.
  - intros tex en. destruct Hbuild as [err Herr].
    destruct (make_shapes E (info_overlay vmf) ov) as [err'|sg] eqn:Hsg.
    + exists err'. unfold calc_connections. cbv zeta. rewrite Hscan. cbn.
      fold ov. by rewrite Hsg.
    + exists err. by eapply calc_connections_build_fails.
  - intros tex en sg pre post insts g tpre tpost Hsg Hvals Hrun Hnames Hpre.
    eapply calc_connections_build_fails; [done..|].
    unfold build_items. rewrite Hvals.
    eapply for_each_fails_at; [exact Hrun|].
    apply build_item_link_fails.
    rewrite (reached_out_names _ _ _ _ _ _ _ _ _ _ _ Hscan Hvals Hrun He).
    rewrite Hnames. by apply link_loop_unknown.
Qed.

Lemma unknown_instance_is_fatal_witness :
  calc_connections demo_externals demo_types ghost_scene [] false
  = inl (ValueError (unknown_instance_msg "ghost_a")).
Proof.
  apply (proj2 (unknown_instance_is_fatal demo_externals demo_types ghost_scene
                  (scan_of demo_externals demo_types ghost_scene) 0
                  (func_instance ghost_scene !!! 0)
                  (Output.mk "ghost_a" None "Trigger")
                  ltac:(vm_compute; reflexivity)
                  ltac:(vm_compute; left)
                  ltac:(vm_compute; reflexivity)
                  ltac:(vm_compute; left)
                  ltac:(vm_compute; split; reflexivity))
           [] false
           (mkSigns [] [] [] []) [] []
           (func_instance ghost_scene)
           (scan_graph (scan_of demo_externals demo_types ghost_scene))
           [] ["ghost_b"]);
    try (vm_compute; reflexivity).
  constructor.
Defined.

(** C9 (counterexample): the output of the button to [ghost_b] has an
    unknown target, and the error the pass fails with names [ghost_a],
    the unknown target before it. *)
Lemma unknown_instance_counterexample :
  Output.mk "ghost_b" None "Trigger"
    ∈ Entity.outputs (func_instance ghost_scene !!! 0)
  /\ unknown_target (scan_of demo_externals demo_types ghost_scene) "ghost_b"
  /\ calc_connections demo_externals demo_types ghost_scene [] false
     = inl (ValueError (dquote +:+ "ghost_a" +:+ dquote
                        +:+ " is not a known instance!")).
Proof.
  split_and!.
  - vm_compute. right. left.
  - split; vm_compute; reflexivity.
  - vm_compute. reflexivity.
Qed.
(** * Instances with the same name *)

(** C10 (counterexample): the two instances of the map become items and
    have the same name, and the scan raises an error, as does the pass:
    the later instance has an item id that [ITEM_TYPES] does not
    have. *)
Lemma duplicate_names_untyped_counterexample :
  is_normal_item (func_instance twin_untyped_scene !!! 0)
  /\ is_normal_item (func_instance twin_untyped_scene !!! 1)
  /\ Entity.get (func_instance twin_untyped_scene !!! 0) "targetname" = "twin"
  /\ Entity.get (func_instance twin_untyped_scene !!! 1) "targetname" = "twin"
  /\ scan_instances demo_externals demo_types
       (func_instance twin_untyped_scene)
     = inl (ValueError (no_connections_msg "ITEM_CRATE"))
  /\ calc_connections demo_externals demo_types twin_untyped_scene [] false
     = inl (ValueError (no_connections_msg "ITEM_CRATE")).
Proof.
  split_and!; try (vm_compute; reflexivity);
    split_and!; vm_compute; [discriminate|intros H; inversion H..].
Qed.

(** * Connection counts *)

Lemma list_alter_out_of_range {A} (f : A -> A) (l : list A) i :
  l !! i = None -> alter f i l = l.
Proof.
  intros Hi. apply list_eq. intros j. rewrite list_lookup_alter.
  case_decide; [|done]. subst. by rewrite Hi.
Qed.

Lemma fix_counts_alter E g insts r :
  fix_counts E g insts r
  = alter (count_update E g (items g !!! r))
          (Item.inst (items g !!! r)) insts.
Proof.
  unfold fix_counts. set (item := items g !!! r). set (i := Item.inst item).
  destruct (insts !! i) as [e|] eqn:Hi.
  - rewrite (list_lookup_total_correct _ _ _ Hi).
    set (f1 := Entity.fixup_set CONN_COUNT _).
    set (f2 := Entity.fixup_set CONN_COUNT_TBEAM _).
    set (insts1 := if Entity.fixup_has e CONN_COUNT then alter f1 i insts
                   else insts).
    set (e1 := if Entity.fixup_has e CONN_COUNT then f1 e else e).
    assert (H1 : insts1 !! i = Some e1).
    { unfold insts1, e1. destruct (Entity.fixup_has e CONN_COUNT); [|done].
      by rewrite list_lookup_alter_eq, Hi. }
    assert (Hne : forall j, i <> j -> insts1 !! j = insts !! j).
    { intros j Hj. unfold insts1.
      destruct (Entity.fixup_has e CONN_COUNT); [|done].
      by rewrite list_lookup_alter_ne. }
    rewrite (list_lookup_total_correct _ _ _ H1).
    assert (Hc : count_update E g item e
                 = if Entity.fixup_has e1 CONN_COUNT_TBEAM then f2 e1 else e1)
      by reflexivity.
    apply list_eq. intros j. destruct (decide (i = j)) as [<-|Hj].
    + transitivity (Some (count_update E g item e));
        [|by rewrite list_lookup_alter_eq, Hi].
      rewrite Hc.
      destruct (Entity.fixup_has e1 CONN_COUNT_TBEAM); [|done].
      by rewrite list_lookup_alter_eq, H1.
    + rewrite list_lookup_alter_ne by done.
      destruct (Entity.fixup_has e1 CONN_COUNT_TBEAM); [|by apply Hne].
      rewrite list_lookup_alter_ne by done. by apply Hne.
  - rewrite !list_alter_out_of_range by (by repeat case_match).
    by repeat case_match.
Qed.

Lemma fixup_has_set var var' value e :
  Entity.fixup_has (Entity.fixup_set var value e) var'
  = if decide (var = var') then true else Entity.fixup_has e var'.
Proof.
  unfold Entity.fixup_has, Entity.fixup_set. cbn.
  case_decide as Hv.
  - subst. rewrite lookup_insert_eq. by apply bool_decide_true.
  - by rewrite lookup_insert_ne.
Qed.



Lemma count_update_has E g item e var :
  Entity.fixup_has (count_update E g item e) var = Entity.fixup_has e var.
Proof.
  unfold count_update.
  destruct (Entity.fixup_has e CONN_COUNT) eqn:H1;
    rewrite ?fixup_has_set, ?decide_False by done;
    destruct (Entity.fixup_has e CONN_COUNT_TBEAM) eqn:H2;
    rewrite ?fixup_has_set; repeat case_decide; subst; done.
Qed.



Lemma counts_at_untouched E g rs j e :
  (forall r, r ∈ rs -> Item.inst (items g !!! r) <> j) ->
  counts_at E g rs j e = e.
Proof.
  induction rs as [|r rs IH]; cbn; [done|]. intros Hall.
  rewrite decide_False by (apply Hall; by left).
  apply IH. intros r' Hr'. apply Hall. by right.
Qed.



(** The loop over the items as one update of every instance. *)
Lemma fix_all_counts_imap E g rs (insts : list Entity.t) :
  (forall r1 r2, r1 ∈ rs -> r2 ∈ rs ->
     Item.inst (items g !!! r1) = Item.inst (items g !!! r2) -> r1 = r2) ->
  NoDup rs ->
  foldl (fix_counts E g) insts rs = imap (counts_at E g rs) insts.
Proof.
  revert insts. induction rs as [|r rs IH]; intros insts Hinj Hnd; cbn.
  - apply list_eq. intros j. rewrite list_lookup_imap.
    by destruct (insts !! j).
  - apply NoDup_cons in Hnd as [Hr Hnd].
    rewrite IH; [|intros r1 r2 H1 H2; apply Hinj; by right|done].
    rewrite fix_counts_alter. apply list_eq. intros j.
    rewrite !list_lookup_imap, list_lookup_alter.
    destruct (decide (Item.inst (items g !!! r) = j)) as [<-|Hne].
    + destruct (insts !! _) as [e|]; cbn; [|done]. f_equal.
      apply counts_at_untouched. intros r' Hr' Heq.
      apply Hr. rewrite <- (Hinj r' r); [done|by right|by left|done].
    + by destruct (insts !! j).
Qed.

(** The items of the registry have instances of their own. *)
Lemma registry_instances E ITEM_TYPES ov insts0 sc insts g :
  scan_instances E ITEM_TYPES insts0 = inr sc ->
  build_items E sc ov insts0 = inr (insts, g) ->
  (forall r1 r2,
      r1 ∈ dict_values (scan_ITEMS sc) -> r2 ∈ dict_values (scan_ITEMS sc) ->
      Item.inst (items g !!! r1) = Item.inst (items g !!! r2) -> r1 = r2)
  /\ forall r,
      r ∈ dict_values (scan_ITEMS sc) ->
      exists e0 e,
        insts0 !! Item.inst (items g !!! r) = Some e0
        /\ insts !! Item.inst (items g !!! r) = Some e
        /\ same_instance e0 e.
Proof.
  intros Hscan Hbuild.
  pose proof (scan_instances_scanned _ _ _ _ Hscan) as Hsc.
  pose proof (build_items_built _ _ _ _ _ _ _ Hscan Hbuild) as Hb.
  assert (Hreg : forall r, r ∈ dict_values (scan_ITEMS sc) ->
    exists it0 e0,
      items (scan_graph sc) !! r = Some it0
      /\ Item.inst (items g !!! r) = Item.inst it0
      /\ insts0 !! Item.inst it0 = Some e0).
  { intros r (n & Hn)%(dict_value_get _ _ (sc_keys _ _ Hsc)).
    destruct (sc_items _ _ Hsc _ _ Hn) as (it0 & e0 & Hit0 & He0 & _).
    destruct (Forall2_lookup_l _ _ _ _ _ (b_inst _ _ _ _ _ Hb) Hit0)
      as (it & Hit & Heq).
    exists it0, e0. by rewrite (list_lookup_total_correct _ _ _ Hit). }
  split.
  - intros r1 r2 (it1 & _ & H1 & -> & _)%Hreg (it2 & _ & H2 & -> & _)%Hreg.
    by apply (sc_inj _ _ Hsc).
  - intros r (it0 & e0 & H0 & -> & He0)%Hreg.
    destruct (Forall2_lookup_l _ _ _ _ _ (b_insts _ _ _ _ _ Hb) He0)
      as (e & He & Hsame).
    by exists e0, e.
Qed.


(** * The order of names *)







Lemma name_lt_le a b : name_lt a b -> name_le a b.
Proof.
  unfold name_le, name_lt, String.leb, String.ltb.
  by destruct (String.compare a b).
Qed.

Lemma name_le_total a b : name_le a b \/ name_le b a.
Proof. apply String.leb_total. Qed.


(** * Sorting shapes by name *)









(** * The frame loop *)





(** * The signage shapes of a map *)

Lemma dict_get_append {K A} `{EqDecision K} (k : K) (x : A) d k' :
  dict_get (dict_append k x d) k'
  = if decide (k' = k) then Some (default [] (dict_get d k) ++ [x])
    else dict_get d k'.
Proof. unfold dict_append. apply dict_get_set. Qed.

Lemma dict_keys_append_NoDup {K A} `{EqDecision K} (k : K) (x : A) d :
  NoDup (dict_keys d) -> NoDup (dict_keys (dict_append k x d)).
Proof. apply dict_keys_set_NoDup. Qed.


Lemma scan_overlays_snoc E l x :
  scan_overlays E (l ++ [x])
  = scan_overlay E (scan_overlays E l) (length l, x).
Proof.
  unfold scan_overlays, enumerate. rewrite enumerate_from_app, foldl_app.
  done.
Qed.

Lemma scan_overlays_overlaid E overs : overlaid E overs (scan_overlays E overs).
Proof.
  induction overs as [|x l IH] using rev_ind.
  - split; cbn; [apply NoDup_nil_2|done].
  - rewrite scan_overlays_snoc. destruct IH as [Hk Hm].
    assert (Hold : forall key l',
      dict_get (sign_shape_overlays (scan_overlays E l)) key = Some l' ->
      l' <> [] /\
      forall o, o ∈ l' ->
        exists e, (l ++ [x]) !! o = Some e
                  /\ Entity.get e "targetname" = key.1
                  /\ casefold E (Entity.get e "material") = key.2).
    { intros key l' [Hne Hall]%Hm. split; [done|].
      intros o (e & He & ?)%Hall. exists e. split; [|done].
      by apply lookup_app_l_Some. }
    unfold scan_overlay. case_decide; [|by split].
    split; cbn.
    + by apply dict_keys_append_NoDup.
    + intros key l'. rewrite dict_get_append. case_decide as Hkey; [|apply Hold].
      intros [= <-]. split; [by destruct (default _ _)|].
      intros o [Ho|Ho]%elem_of_app.
      * destruct (dict_get (sign_shape_overlays (scan_overlays E l)) _)
          as [l0|] eqn:Hl0; cbn in Ho; [|by apply not_elem_of_nil in Ho].
        subst key. destruct (Hold _ _ Hl0) as [_ Hall]. by apply Hall.
      * apply list_elem_of_singleton in Ho as ->. exists x. subst key.
        split; [|done]. rewrite lookup_app_r by done. by rewrite Nat.sub_diag.
Qed.
Lemma foldl_alter_untouched {A} (f : A -> A) (l : list nat) (store : list A) o :
  o ∉ l -> foldl (fun st o' => alter f o' st) store l !! o = store !! o.
Proof.
  revert store. induction l as [|x l IH]; intros store; cbn; [done|].
  intros [Hne Hl]%not_elem_of_cons. rewrite IH by done.
  by rewrite list_lookup_alter_ne.
Qed.

Lemma shaping_start E overs : shaping E overs [] (mkSigns overs [] [] []).
Proof.
  split; cbn; try done.
  - apply NoDup_nil_2.
  - intros r Hr. lia.
Qed.

Lemma make_shape_shaping E overs ov done entry rest sg sg' :
  overlaid E overs ov ->
  sign_shape_overlays ov = done ++ entry :: rest ->
  shaping E overs done sg -> make_shape E entry sg = inr sg' ->
  shaping E overs (done ++ [entry]) sg'.
Proof.
  intros [Hk Hm] Hsso [Hsh Hst Hkeys Hgr Hco].
  destruct entry as [[name mf] l]. unfold make_shape.
  assert (Hget : forall entry', entry' ∈ sign_shape_overlays ov ->
            dict_get (sign_shape_overlays ov) entry'.1 = Some entry'.2).
  { intros [key l'] Hin. by apply dict_get_elem. }
  destruct (Hm (name, mf) l) as [Hne Hmem].
  { apply (Hget ((name, mf), l)). rewrite Hsso. apply elem_of_app. right. by left. }
  assert (Hfirst : forall o, o ∈ l ->
            forall entry', entry' ∈ done -> o ∉ entry'.2).
  { intros o Ho [key' l'] Hin Ho'. cbn in Ho'.
    destruct (Hmem o Ho) as (e & He & Hn & Hc).
    destruct (Hm key' l') as [_ Hmem'].
    { apply (Hget (key', l')). rewrite Hsso. apply elem_of_app. by left. }
    destruct (Hmem' o Ho') as (e' & He' & Hn' & Hc'). simplify_eq.
    assert (key' = (name, mf)).
    { destruct key'. cbn in *. congruence. }
    subst key'. unfold dict_keys in Hk. rewrite Hsso, fmap_app in Hk.
    apply NoDup_app in Hk as (_ & Hk & _). apply (Hk (name, mf)).
    - apply list_elem_of_fmap. by exists ((name, mf), l').
    - cbn. by left. }
  unfold ShapeSignage_new. destruct l as [|first l']; [done|].
  destruct (Hmem first) as (e & He & Hn & Hc); [by left|].
  assert (Hstore : sign_overlays sg !! first = Some e).
  { rewrite Hst; [done|]. apply Hfirst. by left. }
  rewrite (list_lookup_total_correct _ _ _ Hstore).
  destruct (dict_get (SIGN_ORDER_LOOKUP E) (Entity.get e "material"))
    as [index|] eqn:Hidx; cbn; [|done].
  intros [= <-]. cbn in *.
  pose proof (Forall2_length _ _ _ Hsh) as Hlen.
  split; cbn.
  - apply Forall2_app; [done|]. constructor; [|constructor].
    unfold shape_of_entry. cbn. split_and!; try done.
    exists (Entity.get e "material"). by split.
  - intros o Ho.
    assert (Hol : o ∉ first :: l').
    { apply (Ho ((name, mf), first :: l')). apply elem_of_app. right. by left. }
    apply not_elem_of_cons in Hol as [Hof Hol].
    rewrite foldl_alter_untouched by done.
    rewrite list_lookup_alter_ne by done.
    apply Hst. intros entry' Hin. apply Ho. apply elem_of_app. by left.
  - by apply dict_keys_append_NoDup.
  - intros idx l. rewrite dict_get_append. case_decide as Hix.
    + intros [= <-]. subst idx.
      destruct (dict_get (sign_shape_by_index sg) index) as [l0|] eqn:Hl0; cbn.
      * destruct (Hgr _ _ Hl0) as [Hnd Hall]. split.
        -- apply NoDup_app. split_and!; [done| |apply NoDup_singleton].
           intros r Hr Hr'%list_elem_of_singleton. subst.
           destruct (Hall _ Hr). lia.
        -- intros r [Hr|Hr]%elem_of_app.
           ++ destruct (Hall _ Hr) as [Hlt Hi].
              rewrite length_app, lookup_total_app_l by done. split; [lia|done].
           ++ apply list_elem_of_singleton in Hr as ->.
              rewrite length_app, lookup_total_app_r by done.
              rewrite Nat.sub_diag. cbn. split; [lia|done].
      * split; [apply NoDup_singleton|].
        intros r Hr%list_elem_of_singleton. subst.
        rewrite length_app, lookup_total_app_r by done.
        rewrite Nat.sub_diag. cbn. split; [lia|done].
    + intros Hl. destruct (Hgr _ _ Hl) as [Hnd Hall]. split; [done|].
      intros r Hr. destruct (Hall _ Hr) as [Hlt Hi].
      rewrite length_app, lookup_total_app_l by done. split; [lia|done].
  - intros r. rewrite length_app. cbn. intros Hr.
    destruct (decide (r < length (shapes sg))) as [Hlt|Hge].
    + rewrite lookup_total_app_l by done.
      destruct (Hco r Hlt) as (l & Hl & Hin).
      rewrite dict_get_append. case_decide as Hix.
      * rewrite <- Hix, Hl. cbn. eexists. split; [done|].
        apply elem_of_app. by left.
      * by exists l.
    + assert (r = length (shapes sg)) as -> by lia.
      rewrite lookup_total_app_r by done. rewrite Nat.sub_diag. cbn.
      rewrite dict_get_append, decide_True by done.
      eexists. split; [done|]. apply elem_of_app. right. by left.
Qed.

Lemma make_shapes_shaping E overs :
  forall sg,
    make_shapes E overs (scan_overlays E overs) = inr sg ->
    shaping E overs (sign_shape_overlays (scan_overlays E overs)) sg.
Proof.
  pose proof (scan_overlays_overlaid E overs) as Hov.
  unfold make_shapes.
  assert (Hgen : forall rest done sg0 sg,
    sign_shape_overlays (scan_overlays E overs) = done ++ rest ->
    shaping E overs done sg0 ->
    for_each (make_shape E) rest sg0 = inr sg ->
    shaping E overs (done ++ rest) sg).
  { induction rest as [|entry rest IH]; intros done sg0 sg Hsso Hsh.
    - intros [= <-]. by rewrite app_nil_r.
    - rewrite for_each_cons.
      destruct (make_shape E entry sg0) as [e|sg1] eqn:Hs; cbn; [done|].
      intros Hrest. replace (done ++ entry :: rest)
                      with ((done ++ [entry]) ++ rest) by (by rewrite <- app_assoc).
      eapply IH; [by rewrite <- app_assoc| |exact Hrest].
      by eapply make_shape_shaping. }
  intros sg Hsg. by apply (Hgen _ [] _ _ eq_refl (shaping_start E overs)).
Qed.

(** * Frames of repeated shapes *)





(** * The values of the connection types *)

(** X1: the lookup of a connection type by value ([ConnType(value)])
    returns a type exactly for the value of that type: it inverts
    [.value], accepts the four values and nothing else. *)
Theorem ConnType_value_round_trip v t :
  ConnType_of_value v = Some t <-> v = ConnType_value t.
Proof.
  split.
  - unfold ConnType_of_value.
    destruct (String.eqb_spec v "default") as [->|_]; [by intros [= <-]|].
    destruct (String.eqb_spec v "primary") as [->|_]; [by intros [= <-]|].
    destruct (String.eqb_spec v "secondary") as [->|_]; [by intros [= <-]|].
    destruct (String.eqb_spec v "both") as [->|_]; [by intros [= <-]|].
    intros H. discriminate H.
  - intros ->. by destruct t.
Qed.

(** * More of item type parsing *)

Lemma parse_default_dual_ok E conf :
  is_ok (ItemType.parse_default_dual E conf) = true
  <-> valid_type E conf "default_dual".
Proof.
  unfold ItemType.parse_default_dual, valid_type, type_token.
  destruct (ConnType_of_value _); cbn.
  - split; [eauto|done].
  - split; [|by intros [? ?]].
    by destruct (conf_index E conf "default_dual").
Qed.

Lemma parse_output_type_ok E conf :
  is_ok (ItemType.parse_output_type E conf) = true
  <-> valid_type E conf "DualType".
Proof.
  unfold ItemType.parse_output_type, valid_type, type_token.
  destruct (ConnType_of_value _); cbn.
  - split; [eauto|done].
  - split; [|by intros [? ?]].
    by destruct (conf_index E conf "default_dual").
Qed.

(** X2: [ItemType.parse] returns a type exactly when the output affinity
    ([DualType], [default] when absent) is one of the four types after
    case folding and, for a configuration with a secondary command, the
    default-dual field ([default] when absent) is one as well. *)
Theorem parse_ok_iff E conf :
  is_ok (ItemType.parse E conf) = true
  <-> (has_sec E conf = true -> valid_type E conf "default_dual")
      /\ valid_type E conf "DualType".
Proof.
  rewrite <- parse_default_dual_ok, <- parse_output_type_ok.
  unfold ItemType.parse. fold (has_sec E conf).
  destruct (has_sec E conf); cbn.
  - destruct (ItemType.parse_default_dual E conf); cbn; [naive_solver|].
    destruct (ItemType.parse_output_type E conf); cbn; naive_solver.
  - destruct (ItemType.parse_output_type E conf); cbn; naive_solver.
Qed.

(** X3: in a parsed type the four secondary fields go together: with a
    secondary command in the configuration each of them is set, the
    inversion flag to the [sec_invertVar] entry or to 0 and the default
    type to the type the default-dual token names; without one each of
    them is [None], whatever the configuration says of them.  The id is
    the name of the block as written and the primary inversion flag the
    [invertVar] entry or 0. *)
Theorem parse_secondary_all_or_none E conf it :
  ItemType.parse E conf = inr it ->
  ItemType.id it = real_name conf
  /\ ItemType.invert_var it = conf_get E conf "invertVar" "0"
  /\ ConnType_of_value (type_token E conf "DualType")
     = Some (ItemType.output_type it)
  /\ (has_sec E conf = true ->
      ConnType_of_value (type_token E conf "default_dual")
      = ItemType.default_dual it
      /\ is_Some (ItemType.default_dual it)
      /\ ItemType.sec_invert_var it = Some (conf_get E conf "sec_invertVar" "0")
      /\ is_Some (ItemType.sec_enable_cmd it)
      /\ is_Some (ItemType.sec_disable_cmd it))
  /\ (has_sec E conf = false ->
      ItemType.default_dual it = None /\ ItemType.sec_invert_var it = None
      /\ ItemType.sec_enable_cmd it = None
      /\ ItemType.sec_disable_cmd it = None).
Proof.
  unfold ItemType.parse. fold (has_sec E conf).
  assert (Hout : forall t, ItemType.parse_output_type E conf = inr t ->
            ConnType_of_value (type_token E conf "DualType") = Some t).
  { intros t. unfold ItemType.parse_output_type, type_token.
    destruct (ConnType_of_value _); cbn; [by intros [= ->]|].
    by destruct (conf_index E conf "default_dual"). }
  destruct (has_sec E conf); cbn.
  - unfold ItemType.parse_default_dual at 1. fold (type_token E conf "default_dual").
    destruct (ConnType_of_value (type_token E conf "default_dual")) as [d|];
      cbn; [|by destruct (conf_index E conf "default_dual")].
    destruct (ItemType.parse_output_type E conf) as [e|t] eqn:Ht; cbn; [done|].
    intros [= <-]. cbn. split_and!; try done; by apply Hout.
  - destruct (ItemType.parse_output_type E conf) as [e|t] eqn:Ht; cbn; [done|].
    intros [= <-]. cbn. split_and!; try done; by apply Hout.
Qed.

Lemma parse_secondary_all_or_none_witness :
  exists it,
    ItemType.parse demo_externals conf_button_sec = inr it
    /\ ItemType.id it = "ITEM_BUTTON"
    /\ ItemType.default_dual it = Some DEFAULT
    /\ ItemType.sec_invert_var it = Some "0".
Proof.
  destruct (ItemType.parse demo_externals conf_button_sec) as [e|it] eqn:H.
  { exfalso. vm_compute in H. discriminate H. }
  exists it. split; [reflexivity|].
  destruct (parse_secondary_all_or_none demo_externals conf_button_sec it H)
    as (Hid & _ & _ & Hsec & _).
  destruct (Hsec ltac:(vm_compute; reflexivity)) as (Hd & _ & Hi & _).
  split; [exact Hid|]. split; [|exact Hi].
  rewrite <- Hd. vm_compute. reflexivity.
Defined.

(** X4: when the output affinity is no type and the configuration has no
    default-dual entry, [ItemType.parse] does not raise its [ValueError]:
    formatting the message looks up the absent entry and the
    [IndexError] of that lookup escapes.  (The default-dual check itself
    passes or is skipped: the item has no secondary command, or the
    default token [default] is a type.) *)
Theorem parse_affinity_index_error E conf :
  ~ valid_type E conf "DualType" ->
  children conf !! casefold E "default_dual" = None ->
  has_sec E conf = false
  \/ ConnType_of_value (casefold E "default") = Some DEFAULT ->
  ItemType.parse E conf = inl (IndexError "default_dual").
Proof.
  intros Hbad Hno Hsec.
  assert (Hout : ItemType.parse_output_type E conf
                 = inl (IndexError "default_dual")).
  { unfold ItemType.parse_output_type. fold (type_token E conf "DualType").
    destruct (ConnType_of_value (type_token E conf "DualType")) eqn:Ht.
    - exfalso. apply Hbad. unfold valid_type. rewrite Ht. eauto.
    - unfold conf_index. by rewrite Hno. }
  unfold ItemType.parse. fold (has_sec E conf).
  destruct (has_sec E conf) eqn:Hs; cbn.
  - destruct Hsec as [?|Hdef]; [done|].
    unfold ItemType.parse_default_dual, conf_get. rewrite Hno, Hdef. cbn.
    by rewrite Hout.
  - by rewrite Hout.
Qed.

Lemma parse_affinity_index_error_witness :
  ItemType.parse demo_externals conf_affinity_only
  = inl (IndexError "default_dual").
Proof.
  apply (parse_affinity_index_error demo_externals conf_affinity_only).
  - vm_compute. intros [? H]. discriminate H.
  - vm_compute. reflexivity.
  - left. vm_compute. reflexivity.
Defined.
(** * Reading the item types *)

Lemma read_config_inv E p T T1 :
  read_config E p T = inr T1 ->
  T !! Property_name E p = None
  /\ exists it, ItemType.parse E p = inr it
                /\ T1 = <[Property_name E p := it]> T.
Proof.
  unfold read_config. case_decide as Hin; [done|].
  destruct (ItemType.parse E p) as [e|it]; cbn; [done|].
  intros [= <-]. split; [|eauto].
  by apply eq_None_not_Some.
Qed.

Lemma read_loop_inv E l T T' :
  for_each (read_config E) l T = inr T' ->
  NoDup (Property_name E <$> l)
  /\ (forall p, p ∈ l ->
        T !! Property_name E p = None
        /\ exists it, ItemType.parse E p = inr it
                      /\ T' !! Property_name E p = Some it)
  /\ (forall k, k ∉ Property_name E <$> l -> T' !! k = T !! k).
Proof.
  revert T. induction l as [|p l IH]; intros T.
  - intros [= <-]. split_and!; [apply NoDup_nil_2| |done].
    by intros p ?%not_elem_of_nil.
  - rewrite for_each_cons.
    destruct (read_config E p T) as [e|T1] eqn:Hp; cbn; [done|].
    apply read_config_inv in Hp as (Hfree & it & Hit & ->).
    intros (Hnd & Hall & Hrest)%IH.
    assert (Hnew : Property_name E p ∉ Property_name E <$> l).
    { intros (q & Hq & Hin)%list_elem_of_fmap.
      destruct (Hall q Hin) as [Hnone _].
      rewrite <- Hq, lookup_insert_eq in Hnone. done. }
    split_and!.
    + cbn. by apply NoDup_cons_2.
    + intros q [->|Hq]%elem_of_cons.
      * split; [done|]. exists it. split; [done|].
        rewrite Hrest by done. apply lookup_insert_eq.
      * destruct (Hall q Hq) as [Hnone Hsome]. split; [|done].
        rewrite lookup_insert_ne in Hnone; [done|].
        intros Heq. apply Hnew. rewrite Heq.
        apply list_elem_of_fmap. eauto.
    + intros k [Hk Hl]%not_elem_of_cons. rewrite Hrest by done.
      by rewrite lookup_insert_ne.
Qed.

Lemma read_loop_ok E l T :
  NoDup (Property_name E <$> l) ->
  (forall p, p ∈ l -> T !! Property_name E p = None
                      /\ is_ok (ItemType.parse E p) = true) ->
  exists T', for_each (read_config E) l T = inr T'.
Proof.
  revert T. induction l as [|p l IH]; intros T Hnd Hall; [by exists T|].
  cbn in Hnd. apply NoDup_cons in Hnd as [Hp Hnd].
  destruct (Hall p) as [Hfree Hok]; [by left|].
  destruct (ItemType.parse E p) as [e|it] eqn:Hparse; [done|].
  assert (Hstep : read_config E p T = inr (<[Property_name E p := it]> T)).
  { unfold read_config. rewrite decide_False, Hparse; [done|].
    rewrite Hfree. by intros [? ?]. }
  setoid_rewrite for_each_cons. rewrite Hstep. cbn.
  apply IH; [done|]. intros q Hq.
  destruct (Hall q) as [Hqf Hqok]; [by right|]. split; [|done].
  rewrite lookup_insert_ne; [done|].
  intros Heq. apply Hp. rewrite Heq. apply list_elem_of_fmap. eauto.
Qed.

(** X5: [read_configs] returns exactly when the blocks inside the
    [Items] blocks of the file have names that differ from one another
    after case folding, none of them is a key of [ITEM_TYPES] already, and
    each of them parses as an item type. *)
Theorem read_configs_ok_iff E conf ITEM_TYPES :
  is_ok (read_configs E conf ITEM_TYPES) = true
  <-> NoDup (Property_name E <$> find_children E conf "Items")
      /\ forall p, p ∈ find_children E conf "Items" ->
           ITEM_TYPES !! Property_name E p = None
           /\ is_ok (ItemType.parse E p) = true.
Proof.
  unfold read_configs. split.
  - destruct (for_each _ _ _) as [e|T'] eqn:Hrun; [done|]. intros _.
    apply read_loop_inv in Hrun as (Hnd & Hall & _). split; [done|].
    intros p Hp. destruct (Hall p Hp) as (Hfree & it & -> & _). done.
  - intros [Hnd Hall].
    destruct (read_loop_ok E _ ITEM_TYPES Hnd Hall) as [T' ->]. done.
Qed.

(** X6: after [read_configs] has returned, [ITEM_TYPES] maps the
    case-folded name of every block inside the [Items] blocks to the type
    parsed from that block, and every other key to what it held before:
    no entry that was there is replaced. *)
Theorem read_configs_registers E conf ITEM_TYPES T' :
  read_configs E conf ITEM_TYPES = inr T' ->
  (forall p, p ∈ find_children E conf "Items" ->
     ITEM_TYPES !! Property_name E p = None
     /\ exists it, ItemType.parse E p = inr it
                   /\ T' !! Property_name E p = Some it)
  /\ (forall k, k ∉ Property_name E <$> find_children E conf "Items" ->
        T' !! k = ITEM_TYPES !! k)
  /\ (forall k it, ITEM_TYPES !! k = Some it -> T' !! k = Some it).
Proof.
  unfold read_configs. intros (Hnd & Hall & Hrest)%read_loop_inv.
  split_and!; [done..|].
  intros k it Hk. rewrite Hrest; [done|].
  intros (p & -> & Hp)%list_elem_of_fmap.
  destruct (Hall p Hp) as [Hnone _]. by rewrite Hnone in Hk.
Qed.

Lemma read_configs_registers_witness :
  exists T',
    read_configs demo_externals conf_file ∅ = inr T'
    /\ T' !! "item_cube"
       = Some (ItemType.mk "ITEM_CUBE" None "1" (None, EmptyString)
                 (None, EmptyString) None None None DEFAULT)
    /\ T' !! "item_lever" = None.
Proof.
  destruct (read_configs demo_externals conf_file ∅) as [e|T'] eqn:H.
  { exfalso. vm_compute in H. discriminate H. }
  exists T'. split; [reflexivity|].
  destruct (read_configs_registers demo_externals conf_file ∅ T' H)
    as (Hall & Hrest & _).
  split.
  - destruct (Hall conf_cube) as (_ & it & Hit & Hk).
    { vm_compute. right. left. }
    vm_compute in Hit. injection Hit as <-. exact Hk.
  - rewrite Hrest; [reflexivity|].
    vm_compute. intros Hin.
    apply elem_of_cons in Hin as [Hin|Hin]; [discriminate Hin|].
    apply elem_of_cons in Hin as [Hin|Hin]; [discriminate Hin|].
    by apply not_elem_of_nil in Hin.
Defined.

(** X7: the first block that cannot be registered decides the error of
    [read_configs].  When the blocks before it have names that differ
    from one another, are no keys of [ITEM_TYPES] and parse, then a block
    whose case-folded name is the name of a block before it or a key of
    [ITEM_TYPES] gives the [ValueError] for a duplicate item type, with the
    name as that block writes it; and a block with a new name that does
    not parse gives the error of [ItemType.parse]. *)
Theorem read_configs_first_failure E conf ITEM_TYPES pre p post :
  find_children E conf "Items" = pre ++ p :: post ->
  NoDup (Property_name E <$> pre) ->
  (forall q, q ∈ pre -> ITEM_TYPES !! Property_name E q = None
                        /\ is_ok (ItemType.parse E q) = true) ->
  (Property_name E p ∈ Property_name E <$> pre
   \/ is_Some (ITEM_TYPES !! Property_name E p) ->
   read_configs E conf ITEM_TYPES
   = inl (ValueError (duplicate_type_msg (real_name p))))
  /\ (forall err,
        (Property_name E p ∉ Property_name E <$> pre) ->
        ITEM_TYPES !! Property_name E p = None ->
        ItemType.parse E p = inl err ->
        read_configs E conf ITEM_TYPES = inl err).
Proof.
  intros Hsplit Hnd Hall. unfold read_configs. rewrite Hsplit, for_each_app.
  destruct (read_loop_ok E pre ITEM_TYPES Hnd Hall) as [T1 Hrun].
  rewrite Hrun. cbn [mbind result_bind]. rewrite for_each_cons.
  apply read_loop_inv in Hrun as (_ & Hreg & Hrest). split.
  - intros Hdup.
    assert (Hin : is_Some (T1 !! Property_name E p)).
    { destruct Hdup as [(q & Hq & Hqin)%list_elem_of_fmap|Hold].
      - destruct (Hreg q Hqin) as (_ & it & _ & Hit). rewrite Hq. eauto.
      - destruct (decide (Property_name E p ∈ Property_name E <$> pre))
          as [(q & Hq & Hqin)%list_elem_of_fmap|Hnew].
        + destruct (Hreg q Hqin) as (_ & it & _ & Hit). rewrite Hq. eauto.
        + by rewrite Hrest. }
    unfold read_config. by rewrite decide_True.
  - intros err Hnew Hfree Herr. unfold read_config.
    rewrite decide_False, Herr; [done|].
    rewrite Hrest, Hfree by done. by intros [? ?].
Qed.

Lemma read_configs_first_failure_witness :
  read_configs demo_externals conf_file_twice ∅
  = inl (ValueError (duplicate_type_msg "Item_Button")).
Proof.
  apply (proj1 (read_configs_first_failure demo_externals conf_file_twice ∅
                  [conf_button; conf_cube] (config "Item_Button" []) []
                  eq_refl
                  ltac:(vm_compute; repeat constructor;
                        intros H; repeat (apply elem_of_cons in H as [H|H];
                                          [discriminate H|]);
                        by apply not_elem_of_nil in H)
                  ltac:(intros q Hq; split; [reflexivity|];
                        apply elem_of_cons in Hq as [->|Hq]; [reflexivity|];
                        apply elem_of_cons in Hq as [->|Hq]; [reflexivity|];
                        by apply not_elem_of_nil in Hq))).
  left. vm_compute. left.
Defined.

(** X8: item types read by [read_configs] are found by the scan of
    [calc_connections] whatever the case of the item id: when the item id
    of every instance that becomes an item is, case folded, the
    case-folded name of a block that was read, the scan raises no error
    for a missing item type. *)
Theorem read_configs_then_scan E conf T insts :
  read_configs E conf ∅ = inr T ->
  (forall k e, insts !! k = Some e -> is_normal_item e ->
     exists p, p ∈ find_children E conf "Items"
               /\ casefold E (Entity.item_id e) = Property_name E p) ->
  exists sc, scan_instances E T insts = inr sc.
Proof.
  unfold read_configs. intros (_ & Hreg & _)%read_loop_inv Hall.
  apply scan_instances_ok. intros k e Hk Hn.
  destruct (Hall k e Hk Hn) as (p & Hp & ->).
  destruct (Hreg p Hp) as (_ & it & _ & ->). eauto.
Qed.

Lemma read_configs_then_scan_witness :
  exists T sc,
    read_configs demo_externals conf_file ∅ = inr T
    /\ scan_instances demo_externals T
         [entity (named "box") [] [] [] "Item_Cube";
          entity (named "pad") [] [] [] "ITEM_BUTTON"] = inr sc.
Proof.
  destruct (read_configs demo_externals conf_file ∅) as [e|T] eqn:H.
  { exfalso. vm_compute in H. discriminate H. }
  exists T.
  destruct (read_configs_then_scan demo_externals conf_file T
              [entity (named "box") [] [] [] "Item_Cube";
               entity (named "pad") [] [] [] "ITEM_BUTTON"] H) as [sc Hsc].
  - intros [|[|k]] e He Hn; [| |discriminate He]; injection He as <-.
    + exists conf_cube. split; [vm_compute; right; left|reflexivity].
    + exists conf_button. split; [vm_compute; left|reflexivity].
  - exists sc. split; [reflexivity|exact Hsc].
Defined.
(** * How the calls on a connection compose *)

Ltac set_cases c :=
  apply leibniz_equiv, set_equiv; intros ?x;
  destruct (decide (x = c)); set_solver.

Ltac items_eq c :=
  apply list_eq; intros ?j; rewrite !list_lookup_alter;
  repeat case_decide; subst; try congruence;
  try match goal with
      | |- context [items ?g !! ?i] => destruct (items g !! i) as [[]|]
      end;
  cbn; try reflexivity;
  unfold Item.set_inputs, Item.set_outputs; cbn;
  do 2 f_equal; set_cases c.

Lemma add_after (f : nat -> Graph -> Graph) (c : nat) g1 g :
  items g1 = items (f c g) -> conns g1 = conns g ->
  (forall self, conns g !! c = Some self ->
     alter (fun i => Item.set_outputs ({[c]} ∪ Item.outputs i) i)
           (Connection.out self)
           (alter (fun i => Item.set_inputs ({[c]} ∪ Item.inputs i) i)
                  (Connection.inp self) (items (f c g)))
     = alter (fun i => Item.set_outputs ({[c]} ∪ Item.outputs i) i)
             (Connection.out self)
             (alter (fun i => Item.set_inputs ({[c]} ∪ Item.inputs i) i)
                    (Connection.inp self) (items g))) ->
  (conns g !! c = None -> items (f c g) = items g) ->
  Connection_add c g1 = Connection_add c g.
Proof.
  intros Hi Hc Hsome Hnone. unfold Connection_add. rewrite Hc.
  destruct (conns g !! c) as [self|] eqn:Hself.
  - f_equal. rewrite Hi. by apply Hsome.
  - destruct g1, g. cbn in *. f_equal; [|done]. rewrite Hi. by apply Hnone.
Qed.

Lemma remove_after (f : nat -> Graph -> Graph) (c : nat) g1 g :
  items g1 = items (f c g) -> conns g1 = conns g ->
  (forall self, conns g !! c = Some self ->
     alter (fun i => Item.set_outputs (Item.outputs i ∖ {[c]}) i)
           (Connection.out self)
           (alter (fun i => Item.set_inputs (Item.inputs i ∖ {[c]}) i)
                  (Connection.inp self) (items (f c g)))
     = alter (fun i => Item.set_outputs (Item.outputs i ∖ {[c]}) i)
             (Connection.out self)
             (alter (fun i => Item.set_inputs (Item.inputs i ∖ {[c]}) i)
                    (Connection.inp self) (items g))) ->
  (conns g !! c = None -> items (f c g) = items g) ->
  Connection_remove c g1 = Connection_remove c g.
Proof.
  intros Hi Hc Hsome Hnone. unfold Connection_remove. rewrite Hc.
  destruct (conns g !! c) as [self|] eqn:Hself.
  - f_equal. rewrite Hi. by apply Hsome.
  - destruct g1, g. cbn in *. f_equal; [|done]. rewrite Hi. by apply Hnone.
Qed.

(** X9: of two calls of [add] and [remove] on one connection only the
    last one counts: adding twice is adding once, removing twice is
    removing once (a connection that is not registered is removed without
    error), adding after removing is adding, removing after adding is
    removing; and [set_item()] without arguments is [add()]. *)
Theorem connection_last_call_wins c g :
  Connection_add c (Connection_add c g) = Connection_add c g
  /\ Connection_remove c (Connection_remove c g) = Connection_remove c g
  /\ Connection_add c (Connection_remove c g) = Connection_add c g
  /\ Connection_remove c (Connection_add c g) = Connection_remove c g
  /\ Connection_set_item c None None g = Connection_add c g.
Proof.
  assert (Har : Connection_add c (Connection_remove c g) = Connection_add c g).
  { apply (add_after Connection_remove); [done|apply conns_remove| |].
    - intros self Hs. unfold Connection_remove. rewrite Hs. cbn. items_eq c.
    - intros Hn. unfold Connection_remove. by rewrite Hn. }
  split_and!.
  - apply (add_after Connection_add); [done|apply conns_add| |].
    + intros self Hs. unfold Connection_add. rewrite Hs. cbn. items_eq c.
    + intros Hn. unfold Connection_add. by rewrite Hn.
  - apply (remove_after Connection_remove); [done|apply conns_remove| |].
    + intros self Hs. unfold Connection_remove. rewrite Hs. cbn. items_eq c.
    + intros Hn. unfold Connection_remove. by rewrite Hn.
  - exact Har.
  - apply (remove_after Connection_add); [done|apply conns_add| |].
    + intros self Hs. unfold Connection_add. rewrite Hs. cbn. items_eq c.
    + intros Hn. unfold Connection_add. by rewrite Hn.
  - unfold Connection_set_item. cbn. rewrite <- Har. by destruct (Connection_remove c g).
Qed.

Lemma remove_same_fields c g :
  Forall2 same_fields (items g) (items (Connection_remove c g)).
Proof.
  unfold Connection_remove. destruct (conns g !! c); cbn;
    [|apply Forall2_same_fields_refl].
  apply Forall2_alter_r; [apply Forall2_alter_r|].
  - apply Forall2_same_fields_refl.
  - intros x y _ _ H. eapply same_fields_trans; [exact H|]. by repeat split.
  - intros x y _ _ H. eapply same_fields_trans; [exact H|]. by repeat split.
Qed.

Lemma add_others c g c' i :
  c' <> c ->
  (c' ∈ inputs_of (Connection_add c g) i <-> c' ∈ inputs_of g i)
  /\ (c' ∈ outputs_of (Connection_add c g) i <-> c' ∈ outputs_of g i).
Proof.
  intros Hne. destruct (conns g !! c) as [conn|] eqn:Hc.
  - rewrite (inputs_of_add _ _ _ _ Hc), (outputs_of_add _ _ _ _ Hc).
    split; case_decide; set_solver.
  - unfold Connection_add. by rewrite Hc.
Qed.

Lemma remove_others c g c' i :
  c' <> c ->
  (c' ∈ inputs_of (Connection_remove c g) i <-> c' ∈ inputs_of g i)
  /\ (c' ∈ outputs_of (Connection_remove c g) i <-> c' ∈ outputs_of g i).
Proof.
  intros Hne. destruct (conns g !! c) as [conn|] eqn:Hc.
  - rewrite (inputs_of_remove _ _ _ _ Hc), (outputs_of_remove _ _ _ _ Hc).
    split; case_decide; set_solver.
  - unfold Connection_remove. by rewrite Hc.
Qed.

Lemma set_item_absent c input output g :
  conns g !! c = None -> Connection_set_item c input output g = g.
Proof.
  intros Hc. unfold Connection_set_item, Connection_remove. rewrite Hc.
  assert (H1 : match input with
               | Some i => alter (Connection.set_inp i) c (conns g)
               | None => conns g
               end = conns g).
  { destruct input; [|done]. by apply list_alter_out_of_range. }
  rewrite H1.
  assert (H2 : match output with
               | Some o => alter (Connection.set_out o) c (conns g)
               | None => conns g
               end = conns g).
  { destruct output; [|done]. by apply list_alter_out_of_range. }
  rewrite H2. unfold Connection_add. cbn. rewrite Hc. by destruct g.
Qed.

(** X10: a call of [add], [remove] or [set_item] on a connection changes
    nothing else: every item keeps its instance, type, panels, toggle,
    antlines, signs and timer, every other connection stays the object it
    was and stays in exactly the sets it was in, and the connection itself
    keeps its type and its list of outputs. *)
Theorem connection_calls_frame c g :
  only_moved c g (Connection_add c g)
  /\ only_moved c g (Connection_remove c g)
  /\ forall input output,
       only_moved c g (Connection_set_item c input output g).
Proof.
  split_and!.
  - split_and!; [apply add_same_fields|by rewrite conns_add..|].
    intros c' i. apply add_others.
  - split_and!; [apply remove_same_fields|by rewrite conns_remove..|].
    intros c' i. apply remove_others.
  - intros input output. destruct (conns g !! c) as [conn|] eqn:Hc.
    + rewrite (set_item_unfold _ _ _ _ _ Hc).
      set (g2 := mkGraph _ _).
      assert (Hlt : c < length (conns g)) by (by eapply lookup_lt_Some).
      split_and!.
      * eapply Forall2_same_fields_trans; [apply (remove_same_fields c g)|].
        apply (add_same_fields c g2).
      * rewrite conns_add. unfold g2. cbn.
        by rewrite length_insert, conns_remove.
      * intros c' Hne. rewrite conns_add. unfold g2. cbn.
        by rewrite list_lookup_insert_ne, conns_remove.
      * rewrite conns_add. unfold g2. cbn.
        rewrite list_lookup_insert_eq by (by rewrite conns_remove).
        by rewrite Hc.
      * rewrite conns_add. unfold g2. cbn.
        rewrite list_lookup_insert_eq by (by rewrite conns_remove).
        by rewrite Hc.
      * intros c' i Hne.
        destruct (add_others c g2 c' i Hne) as [-> ->].
        apply (remove_others c g c' i Hne).
    + rewrite (set_item_absent _ _ _ _ Hc).
      split_and!; [apply Forall2_same_fields_refl|done..].
Qed.

(** X11: [remove] undoes [add] and [add] undoes [remove]: for a
    connection that is in neither set of its two items, removing after
    adding gives back the graph as it was; for one that is in both sets,
    adding after removing does. *)
Theorem connection_add_remove_round_trip c g self :
  conns g !! c = Some self ->
  ((c ∉ inputs_of g (Connection.inp self)) ->
   (c ∉ outputs_of g (Connection.out self)) ->
   Connection_remove c (Connection_add c g) = g)
  /\ (c ∈ inputs_of g (Connection.inp self) ->
      c ∈ outputs_of g (Connection.out self) ->
      Connection_add c (Connection_remove c g) = g).
Proof.
  intros Hs. unfold inputs_of, outputs_of.
  destruct self as [inp out ty outs]. cbn. split.
  - intros Hin Hout. unfold Connection_remove. rewrite conns_add, Hs.
    unfold Connection_add. rewrite Hs. cbn. destruct g as [its cs]. cbn in *.
    f_equal. apply list_eq. intros j. rewrite !list_lookup_alter.
    repeat case_decide; subst; try congruence;
      repeat match goal with
             | H : context [its !! ?i] |- _ => destruct (its !! i) as [[]|]
             | |- context [its !! ?i] => destruct (its !! i) as [[]|]
             end;
      cbn in *; try reflexivity;
      unfold Item.set_inputs, Item.set_outputs; cbn;
      do 2 f_equal; set_solver.
  - intros Hin Hout. unfold Connection_add. rewrite conns_remove, Hs.
    unfold Connection_remove. rewrite Hs. cbn. destruct g as [its cs]. cbn in *.
    f_equal. apply list_eq. intros j. rewrite !list_lookup_alter.
    repeat case_decide; subst; try congruence;
      repeat match goal with
             | H : context [its !! ?i] |- _ => destruct (its !! i) as [[]|]
             | |- context [its !! ?i] => destruct (its !! i) as [[]|]
             end;
      cbn in *; try reflexivity;
      unfold Item.set_inputs, Item.set_outputs; cbn;
      do 2 f_equal; set_cases c.
Qed.

Lemma connection_add_remove_round_trip_witness :
  Connection_add 0 (Connection_remove 0 demo_graph) = demo_graph.
Proof.
  apply (proj2 (connection_add_remove_round_trip 0 demo_graph
                  (Connection.mk 1 0 DEFAULT []) eq_refl));
    cbn; set_solver.
Defined.
(** * What the scan registers *)

Lemma scan_instances_app_fails E T l1 l2 err :
  scan_instances E T l1 = inl err -> scan_instances E T (l1 ++ l2) = inl err.
Proof.
  unfold scan_instances, enumerate. intros H.
  by rewrite enumerate_from_app, for_each_app, H.
Qed.

(** X12: an instance with a name that is neither toggle nor panel and
    whose item id, case folded, is no key of [ITEM_TYPES] is fatal: the
    pass raises the [ValueError] that names the item id of the first such
    instance of the map, whatever else the map holds. *)
Theorem unknown_item_type_is_fatal E ITEM_TYPES vmf pre e post tex en :
  func_instance vmf = pre ++ e :: post ->
  (forall k e', pre !! k = Some e' -> is_normal_item e' ->
                is_Some (ITEM_TYPES !! casefold E (Entity.item_id e'))) ->
  is_normal_item e ->
  ITEM_TYPES !! casefold E (Entity.item_id e) = None ->
  calc_connections E ITEM_TYPES vmf tex en
  = inl (ValueError (no_connections_msg (Entity.item_id e))).
Proof.
  intros Hsplit Hpre (Hname & Htog & Hpan) Hnone.
  destruct (scan_instances_ok E ITEM_TYPES pre Hpre) as [sc Hsc].
  assert (Hfail : scan_instances E ITEM_TYPES (func_instance vmf)
                  = inl (ValueError (no_connections_msg (Entity.item_id e)))).
  { rewrite Hsplit, (cons_middle e pre post), app_assoc.
    apply scan_instances_app_fails.
    rewrite scan_instances_snoc, Hsc. cbn.
    rewrite !decide_False by done. by rewrite Hnone. }
  unfold calc_connections. by rewrite Hfail.
Qed.

Lemma unknown_item_type_is_fatal_witness :
  calc_connections demo_externals demo_types untyped_scene [] false
  = inl (ValueError (no_connections_msg "ITEM_CUBE")).
Proof.
  apply (unknown_item_type_is_fatal demo_externals demo_types untyped_scene
           [entity (named "button") [] [] [] "ITEM_BUTTON"]
           (entity (named "box") [] [] [] "ITEM_CUBE")
           [entity (named "crate") [] [] [] "ITEM_CRATE"]).
  - reflexivity.
  - intros [|k] e' He' _; [|discriminate He'].
    injection He' as <-. vm_compute. eauto.
  - split_and!; vm_compute; [discriminate|intros H; inversion H..].
  - vm_compute. reflexivity.
Defined.

Lemma last_named_snoc P l x n i :
  last_named P l n i -> ~ (P x /\ Entity.get x "targetname" = n) ->
  last_named P (l ++ [x]) n i.
Proof.
  assert (Hlast : forall k e', (l ++ [x]) !! k = Some e' ->
            l !! k = Some e' \/ e' = x).
  { intros k e' [?|[_ Hk]]%lookup_app_Some; [by left|].
    destruct (k - length l); cbn in Hk; [|done]. right. by simplify_eq. }
  destruct i as [i|]; cbn.
  - intros (e & He & HP & Hn & Hlater) Hx. exists e.
    split_and!; [by apply lookup_app_l_Some|done..|].
    intros k e' Hik [Hk| ->]%Hlast HP'; [by eapply Hlater|].
    intros Heq. by apply Hx.
  - intros Hnone Hx k e' [Hk| ->]%Hlast HP'; [by eapply Hnone|].
    intros Heq. by apply Hx.
Qed.

Lemma last_named_new (P : Entity.t -> Prop) l x :
  P x ->
  last_named P (l ++ [x]) (Entity.get x "targetname") (Some (length l)).
Proof.
  intros HP. exists x. split_and!; [|done..|].
  - rewrite lookup_app_r by done. by rewrite Nat.sub_diag.
  - intros k e' Hk He'. apply lookup_lt_Some in He'.
    rewrite length_app in He'. cbn in He'. lia.
Qed.

Lemma scan_registries_inv E T l sc :
  scan_instances E T l = inr sc ->
  forall n,
    last_named is_toggle l n (toggles sc !! n)
    /\ last_named is_panel l n (panels sc !! n)
    /\ last_named is_normal_item l n (registered_instance sc n).
Proof.
  revert sc. induction l as [|x l IH] using rev_ind; intros sc.
  - intros [= <-] n. unfold registered_instance. cbn. rewrite !lookup_empty.
    split_and!; intros k e' Hk; by rewrite lookup_nil in Hk.
  - rewrite scan_instances_snoc.
    destruct (scan_instances E T l) as [e|sc0] eqn:Hsc0; cbn; [done|].
    pose proof (scan_instances_scanned _ _ _ _ Hsc0) as Hscanned.
    specialize (IH sc0 eq_refl).
    unfold scan_instance.
    destruct (decide (Entity.get x "targetname" = EmptyString)) as [Hb|Hname].
    { intros [= <-] n. destruct (IH n) as (H1 & H2 & H3).
      split_and!; (apply last_named_snoc; [done|]);
        unfold is_toggle, is_panel, is_normal_item; naive_solver. }
    destruct (decide ("indicator_toggle" ∈ Entity.traits x)) as [Htog|Htog].
    { intros [= <-] n. cbn. destruct (IH n) as (H1 & H2 & H3).
      split_and!.
      - destruct (decide (Entity.get x "targetname" = n)) as [<-|Hne].
        + rewrite lookup_insert_eq. by apply last_named_new.
        + rewrite lookup_insert_ne by done. apply last_named_snoc; [done|].
          naive_solver.
      - apply last_named_snoc; [done|]. unfold is_panel. naive_solver.
      - apply last_named_snoc; [done|]. unfold is_normal_item. naive_solver. }
    destruct (decide ("indicator_panel" ∈ Entity.traits x)) as [Hpan|Hpan].
    { intros [= <-] n. cbn. destruct (IH n) as (H1 & H2 & H3).
      split_and!.
      - apply last_named_snoc; [done|]. unfold is_toggle. naive_solver.
      - destruct (decide (Entity.get x "targetname" = n)) as [<-|Hne].
        + rewrite lookup_insert_eq. by apply last_named_new.
        + rewrite lookup_insert_ne by done. apply last_named_snoc; [done|].
          naive_solver.
      - apply last_named_snoc; [done|]. unfold is_normal_item. naive_solver. }
    destruct (T !! casefold E (Entity.item_id x)) as [ty|]; [|done].
    cbn. intros [= <-] n. destruct (IH n) as (H1 & H2 & H3).
    split_and!; cbn.
    + apply last_named_snoc; [done|]. unfold is_toggle. naive_solver.
    + apply last_named_snoc; [done|]. unfold is_panel. naive_solver.
    + unfold registered_instance in *. cbn. rewrite dict_get_set.
      destruct (decide (n = Entity.get x "targetname")) as [->|Hne]; cbn.
      * rewrite lookup_total_app_r by done. rewrite Nat.sub_diag. cbn.
        by apply (last_named_new is_normal_item l x).
      * destruct (dict_get (scan_ITEMS sc0) n) as [r|] eqn:Hr; cbn in *.
        -- destruct (sc_items _ _ Hscanned _ _ Hr) as (it & _ & Hit & _).
           rewrite lookup_total_app_l by (by eapply lookup_lt_Some).
           apply (last_named_snoc is_normal_item l x n
                    (Some (Item.inst (items (scan_graph sc0) !!! r))));
             [exact H3|naive_solver].
        -- apply (last_named_snoc is_normal_item l x n None);
             [exact H3|naive_solver].
Qed.

(** X13: after the scan each of the three registries maps a name to the
    last instance of the map with that name among those of its kind: the
    toggles among the named instances with the toggle trait, the panels
    among the named instances with the panel trait and without the toggle
    trait, the items among the other named instances; a name no instance
    of the kind has is no key.  Instances without a name are in no
    registry. *)
Theorem scan_registries E ITEM_TYPES insts sc n :
  scan_instances E ITEM_TYPES insts = inr sc ->
  last_named is_toggle insts n (toggles sc !! n)
  /\ last_named is_panel insts n (panels sc !! n)
  /\ last_named is_normal_item insts n (registered_instance sc n)
  /\ (toggles sc !! EmptyString = None /\ panels sc !! EmptyString = None
      /\ dict_get (scan_ITEMS sc) EmptyString = None).
Proof.
  intros Hscan.
  destruct (scan_registries_inv _ _ _ _ Hscan n) as (H1 & H2 & H3).
  split_and!; [done..| | |].
  - destruct (scan_registries_inv _ _ _ _ Hscan EmptyString) as (H & _ & _).
    destruct (toggles sc !! EmptyString); [|done].
    destruct H as (e & _ & [Hne _] & Hn & _). done.
  - destruct (scan_registries_inv _ _ _ _ Hscan EmptyString) as (_ & H & _).
    destruct (panels sc !! EmptyString); [|done].
    destruct H as (e & _ & [Hne _] & Hn & _). done.
  - destruct (scan_registries_inv _ _ _ _ Hscan EmptyString) as (_ & _ & H).
    unfold registered_instance in H.
    destruct (dict_get (scan_ITEMS sc) EmptyString); [|done].
    destruct H as (e & _ & [Hne _] & Hn & _). done.
Qed.

Lemma scan_registries_witness :
  last_named is_panel (func_instance two_panel_scene) "panel_on" (Some 2)
  /\ last_named is_normal_item (func_instance twin_scene) "twin" (Some 1).
Proof.
  split.
  - destruct (scan_registries demo_externals demo_types
                (func_instance two_panel_scene)
                (scan_of demo_externals demo_types two_panel_scene) "panel_on"
                ltac:(vm_compute; reflexivity)) as (_ & H & _).
    assert (Hp : panels (scan_of demo_externals demo_types two_panel_scene)
                 !! "panel_on" = Some 2) by (vm_compute; reflexivity).
    rewrite Hp in H. exact H.
  - destruct (scan_registries demo_externals demo_types
                (func_instance twin_scene)
                (scan_of demo_externals demo_types twin_scene) "twin"
                ltac:(vm_compute; reflexivity)) as (_ & _ & H & _).
    assert (Hp : registered_instance
                   (scan_of demo_externals demo_types twin_scene) "twin"
                 = Some 1) by (vm_compute; reflexivity).
    rewrite Hp in H. exact H.
Defined.
(** * The index of a sign *)

Lemma sign_lookup_snoc (l : list string) x :
  foldl (fun d '(index, sign) => dict_set sign index d) []
        (enumerate (l ++ [x]))
  = dict_set x (length l)
      (foldl (fun d '(index, sign) => dict_set sign index d) []
             (enumerate l)).
Proof. unfold enumerate. by rewrite enumerate_from_app, foldl_app. Qed.

Lemma sign_lookup_last (l : list string) m i :
  dict_get (foldl (fun d '(index, sign) => dict_set sign index d) []
                  (enumerate l)) m = Some i
  <-> l !! i = Some m /\ forall j, i < j -> l !! j <> Some m.
Proof.
  revert i. induction l as [|x l IH] using rev_ind; intros i.
  - cbn. split; [done|]. by intros [? _].
  - rewrite sign_lookup_snoc, dict_get_set. case_decide as Hm.
    + subst x. split.
      * intros [= <-]. split.
        -- rewrite lookup_app_r by done. by rewrite Nat.sub_diag.
        -- intros j Hj Hl. apply lookup_lt_Some in Hl.
           rewrite length_app in Hl. cbn in Hl. lia.
      * intros [Hi Hlast]. f_equal.
        destruct (decide (i = length l)) as [->|Hne]; [done|].
        exfalso. apply (Hlast (length l)).
        -- apply lookup_lt_Some in Hi. rewrite length_app in Hi. cbn in Hi. lia.
        -- rewrite lookup_app_r by done. by rewrite Nat.sub_diag.
    + rewrite IH. split.
      * intros [Hi Hlast]. split; [by apply lookup_app_l_Some|].
        intros j Hj [Hl|[_ Hl]]%lookup_app_Some; [by eapply Hlast|].
        destruct (j - length l); cbn in Hl; [|done]. by simplify_eq.
      * intros [Hi Hlast].
        apply lookup_app_Some in Hi as [Hi|[_ Hi]].
        -- split; [done|]. intros j Hj Hl. apply (Hlast j Hj).
           by apply lookup_app_l_Some.
        -- destruct (i - length l); cbn in Hi; [|done]. by simplify_eq.
Qed.

(** X14: [SIGN_ORDER_LOOKUP] maps a sign to the place it has in
    [SIGN_ORDER], the last one if it stands there more than once, and it
    has a key for every sign of [SIGN_ORDER] and for nothing else: looking
    up a sign and indexing [SIGN_ORDER] with the result gives the sign
    back. *)
Theorem sign_order_lookup_inverse E sign :
  (forall i,
     dict_get (SIGN_ORDER_LOOKUP E) sign = Some i
     <-> SIGN_ORDER E !! i = Some sign
         /\ forall j, i < j -> SIGN_ORDER E !! j <> Some sign)
  /\ (dict_get (SIGN_ORDER_LOOKUP E) sign = None <-> sign ∉ SIGN_ORDER E)
  /\ (NoDup (SIGN_ORDER E) ->
      forall i, SIGN_ORDER E !! i = Some sign ->
                dict_get (SIGN_ORDER_LOOKUP E) sign = Some i).
Proof.
  unfold SIGN_ORDER_LOOKUP.
  assert (Hsome : forall i,
    SIGN_ORDER E !! i = Some sign ->
    exists k, dict_get (foldl (fun d '(index, s) => dict_set s index d) []
                              (enumerate (SIGN_ORDER E))) sign = Some k).
  { induction (SIGN_ORDER E) as [|x l IH] using rev_ind; intros i Hi.
    - by rewrite lookup_nil in Hi.
    - rewrite sign_lookup_snoc, dict_get_set. case_decide; [eauto|].
      apply lookup_app_Some in Hi as [Hi|[_ Hi]]; [by eapply IH|].
      destruct (i - length l); cbn in Hi; [|done]. by simplify_eq. }
  split_and!.
  - intros i. apply sign_lookup_last.
  - split.
    + intros Hnone (i & Hi)%list_elem_of_lookup.
      destruct (Hsome i Hi) as [k Hk]. by rewrite Hk in Hnone.
    + intros Hnot.
      destruct (dict_get _ sign) as [i|] eqn:Hi; [|done].
      apply sign_lookup_last in Hi as [Hi _]. exfalso. apply Hnot.
      by eapply list_elem_of_lookup_2.
  - intros Hnd i Hi. apply sign_lookup_last. split; [done|].
    intros j Hj Hl. pose proof (NoDup_lookup _ _ _ _ Hnd Hi Hl). lia.
Qed.

Lemma sign_order_lookup_inverse_witness :
  dict_get (SIGN_ORDER_LOOKUP demo_externals) "signage/shape03" = Some 2.
Proof.
  destruct (sign_order_lookup_inverse demo_externals "signage/shape03")
    as (_ & _ & H).
  apply H; [|reflexivity].
  vm_compute. repeat constructor;
    intros Hin; repeat (apply elem_of_cons in Hin as [Hin|Hin];
                        [discriminate Hin|]);
    by apply not_elem_of_nil in Hin.
Defined.
(** * Antlines and signs *)

Lemma scan_overlays_classified E overs :
  (forall n o,
     o ∈ default ∅ (overlays (scan_overlays E overs) !! n)
     <-> exists e, overs !! o = Some e /\ ~ is_sign E e
                   /\ Entity.get e "targetname" = n)
  /\ (forall key o,
        o ∈ default [] (dict_get (sign_shape_overlays (scan_overlays E overs))
                                 key)
        <-> exists e, overs !! o = Some e /\ is_sign E e
                      /\ sign_key E e = key)
  /\ (forall key l,
        dict_get (sign_shape_overlays (scan_overlays E overs)) key = Some l ->
        l <> [] /\ StronglySorted lt l).
Proof.
  induction overs as [|x l IH] using rev_ind.
  - cbn. split_and!.
    + intros n o. rewrite lookup_empty. cbn. split; [set_solver|].
      by intros (e & He & _).
    + intros key o. split; [by intros ?%not_elem_of_nil|].
      by intros (e & He & _).
    + done.
  - destruct IH as (IHa & IHb & IHc).
    rewrite scan_overlays_snoc. unfold scan_overlay.
    fold (is_sign E x). fold (sign_key E x).
    destruct (decide (is_sign E x)) as [Hs|Hs]; cbn.
    + split_and!.
      * intros n o. rewrite IHa. split.
        -- intros (e & He & ?). exists e. split; [|done].
           by apply lookup_app_l_Some.
        -- intros (e & [[_ He]|[-> <-]]%lookup_snoc_Some & Hn & ?);
             [by exists e|done].
      * intros key o. rewrite dict_get_append.
        destruct (decide (key = sign_key E x)) as [->|Hkey]; cbn.
        -- rewrite elem_of_app, list_elem_of_singleton, IHb. split.
           ++ intros [(e & He & ?)| ->].
              ** exists e. split; [|done]. by apply lookup_app_l_Some.
              ** exists x. split; [|done].
                 rewrite lookup_app_r by done. by rewrite Nat.sub_diag.
           ++ intros (e & [[_ He]|[-> <-]]%lookup_snoc_Some & ? & ?);
                [left; by exists e|by right].
        -- rewrite IHb. split.
           ++ intros (e & He & ?). exists e. split; [|done].
              by apply lookup_app_l_Some.
           ++ intros (e & [[_ He]|[-> <-]]%lookup_snoc_Some & ? & ?);
                [by exists e|done].
      * intros key l0. rewrite dict_get_append.
        destruct (decide (key = sign_key E x)) as [->|Hkey]; [|apply IHc].
        intros [= <-]. split; [by destruct (default _ _)|].
        apply StronglySorted_app_2.
        -- intros x1 x2 Hx1 ->%list_elem_of_singleton.
           apply IHb in Hx1 as (e & He & _). by eapply lookup_lt_Some.
        -- destruct (dict_get _ (sign_key E x)) as [l1|] eqn:Hl1; cbn;
             [by apply (IHc _ _ Hl1)|constructor].
        -- repeat constructor.
    + split_and!; [|intros key o; rewrite IHb; split|apply IHc].
      * intros n o.
        destruct (decide (n = Entity.get x "targetname")) as [->|Hn].
        -- rewrite lookup_insert_eq. cbn.
           rewrite elem_of_union, elem_of_singleton, IHa. split.
           ++ intros [(e & He & ?)| ->].
              ** exists e. split; [|done]. by apply lookup_app_l_Some.
              ** exists x. split; [|done].
                 rewrite lookup_app_r by done. by rewrite Nat.sub_diag.
           ++ intros (e & [[_ He]|[-> <-]]%lookup_snoc_Some & ? & ?);
                [left; by exists e|by right].
        -- rewrite lookup_insert_ne by done. rewrite IHa. split.
           ++ intros (e & He & ?). exists e. split; [|done].
              by apply lookup_app_l_Some.
           ++ intros (e & [[_ He]|[-> <-]]%lookup_snoc_Some & ? & ?);
                [by exists e|done].
      * intros (e & He & ?). exists e. split; [|done].
        by apply lookup_app_l_Some.
      * intros (e & [[_ He]|[-> <-]]%lookup_snoc_Some & ? & ?);
          [by exists e|done].
Qed.

(** X15: the scan of the overlays files every overlay once: an overlay
    whose material is a key of [SIGN_ORDER_LOOKUP] under its name and its
    case-folded material in [sign_shape_overlays], any other overlay
    under its name in [overlays]; nothing else is in the two dicts, and
    each list of signs is non-empty and holds its overlays in the order
    of the map. *)
Theorem overlays_filed_once E overs n key o :
  (o ∈ default ∅ (overlays (scan_overlays E overs) !! n)
   <-> exists e, overs !! o = Some e /\ ~ is_sign E e
                 /\ Entity.get e "targetname" = n)
  /\ (o ∈ default [] (dict_get (sign_shape_overlays (scan_overlays E overs))
                               key)
      <-> exists e, overs !! o = Some e /\ is_sign E e
                    /\ sign_key E e = key)
  /\ (forall l,
        dict_get (sign_shape_overlays (scan_overlays E overs)) key = Some l ->
        l <> [] /\ StronglySorted lt l).
Proof.
  destruct (scan_overlays_classified E overs) as (Ha & Hb & Hc).
  split_and!; [apply Ha|apply Hb|apply Hc].
Qed.
(** * Making the shapes *)

Lemma foldl_alter_lookup {A} (f : A -> A) (l : list nat) (store : list A) o :
  (forall a, f (f a) = f a) ->
  foldl (fun st o' => alter f o' st) store l !! o
  = if decide (o ∈ l) then f <$> store !! o else store !! o.
Proof.
  intros Hf. revert store. induction l as [|x l IH]; intros store; cbn.
  - rewrite decide_False; [done|]. apply not_elem_of_nil.
  - rewrite IH, list_lookup_alter.
    destruct (decide (x = o)) as [->|Hne].
    + rewrite (decide_True (P := o ∈ o :: l)) by left.
      case_decide; [|done].
      destruct (store !! o); cbn; [|done]. by rewrite Hf.
    + destruct (decide (o ∈ l)).
      * rewrite (decide_True (P := o ∈ x :: l)); [done|]. by right.
      * rewrite (decide_False (P := o ∈ x :: l)); [done|].
        intros [?|?]%elem_of_cons; naive_solver.
Qed.

Lemma del_del key e : Entity.del key (Entity.del key e) = Entity.del key e.
Proof.
  unfold Entity.del. cbn. f_equal. apply map_eq. intros k.
  destruct (decide (k = key)) as [->|Hne].
  - by rewrite !lookup_delete_eq.
  - by rewrite !lookup_delete_ne.
Qed.

Lemma make_shapes_loop E (overs : list Entity.t) entries sg refs :
  (forall o, sign_overlays sg !! o
             = if decide (o ∈ refs)
               then Entity.del "targetname" <$> overs !! o else overs !! o) ->
  (forall key l, (key, l) ∈ entries ->
     exists first rest e,
       l = first :: rest /\ overs !! first = Some e /\ is_sign E e) ->
  exists sg',
    for_each (make_shape E) entries sg = inr sg'
    /\ forall o, sign_overlays sg' !! o
                 = if decide (o ∈ refs ++ concat entries.*2)
                   then Entity.del "targetname" <$> overs !! o
                   else overs !! o.
Proof.
  revert sg refs. induction entries as [|[[name mat] l] entries IH];
    intros sg refs Hstore Hall.
  - exists sg. split; [done|]. cbn. by rewrite app_nil_r.
  - destruct (Hall (name, mat) l) as (first & rest & e & -> & He & Hsign);
      [by left|].
    assert (Hmat : Entity.get (sign_overlays sg !!! first) "material"
                   = Entity.get e "material").
    { rewrite list_lookup_total_alt, Hstore, He.
      case_decide; cbn; [|done].
      unfold Entity.get, Entity.del. cbn. by rewrite lookup_delete_ne. }
    destruct Hsign as [index Hindex].
    set (store1 := foldl (fun st o => alter (Entity.del "targetname") o st)
                         (sign_overlays sg) (first :: rest)).
    assert (Hstep : make_shape E ((name, mat), first :: rest) sg
      = inr (mkSigns store1 (shapes sg ++ [ShapeSignage.mk (first :: rest)
                    (Entity.get (sign_overlays sg !!! first) "targetname")
                    index 0 []])
                    (dict_append name (length (shapes sg)) (sign_shapes sg))
                    (dict_append index (length (shapes sg))
                       (sign_shape_by_index sg)))).
    { unfold make_shape, ShapeSignage_new. cbv zeta.
      by rewrite Hmat, Hindex. }
    setoid_rewrite for_each_cons. rewrite Hstep. cbn [mbind result_bind].
    destruct (IH (mkSigns store1 (shapes sg ++ [ShapeSignage.mk (first :: rest)
                    (Entity.get (sign_overlays sg !!! first) "targetname")
                    index 0 []])
                    (dict_append name (length (shapes sg)) (sign_shapes sg))
                    (dict_append index (length (shapes sg))
                       (sign_shape_by_index sg)))
                 (refs ++ first :: rest)) as (sg' & Hrun & Hfinal).
    + intros o. cbn [sign_overlays]. unfold store1.
      rewrite (foldl_alter_lookup _ _ _ _ (del_del "targetname")), Hstore.
      destruct (decide (o ∈ first :: rest)), (decide (o ∈ refs)).
      * rewrite decide_True by (apply elem_of_app; by left).
        destruct (overs !! o) as [t|]; [|done].
        exact (f_equal Some (del_del "targetname" t)).
      * rewrite decide_True by (apply elem_of_app; by right). done.
      * rewrite decide_True by (apply elem_of_app; by left). done.
      * rewrite decide_False; [done|]. by intros [?|?]%elem_of_app.
    + intros key l Hin. apply (Hall key). by right.
    + exists sg'. split; [exact Hrun|].
      intros o. rewrite Hfinal. cbn. by rewrite <- app_assoc.
Qed.

Lemma make_shapes_run E overs :
  exists sg,
    make_shapes E overs (scan_overlays E overs) = inr sg
    /\ sign_overlays sg = unnamed E <$> overs.
Proof.
  destruct (scan_overlays_classified E overs) as (_ & Hb & Hc).
  pose proof (ov_keys _ _ _ (scan_overlays_overlaid E overs)) as Hkeys.
  destruct (make_shapes_loop E overs
              (sign_shape_overlays (scan_overlays E overs))
              (mkSigns overs [] [] []) []) as (sg & Hrun & Hstore).
  - intros o. cbn. rewrite decide_False; [done|]. apply not_elem_of_nil.
  - intros key l Hin. apply (dict_get_elem _ _ _ Hkeys) in Hin.
    destruct (Hc _ _ Hin) as [Hne _].
    destruct l as [|first rest]; [done|].
    destruct (proj1 (Hb key first)) as (e & He & Hs & _).
    { rewrite Hin. by left. }
    by exists first, rest, e.
  - exists sg. split; [exact Hrun|].
    apply list_eq. intros o. rewrite Hstore, list_lookup_fmap. cbn.
    destruct (overs !! o) as [e|] eqn:He; cbn; [|by case_decide].
    unfold unnamed. destruct (decide (is_sign E e)) as [Hs|Hs].
    + rewrite decide_True; [done|].
      pose proof (proj2 (Hb (sign_key E e) o)
                    (ex_intro _ e (conj He (conj Hs eq_refl)))) as Hin.
      destruct (dict_get _ (sign_key E e)) as [l|] eqn:Hl;
        [|by apply not_elem_of_nil in Hin].
      apply list_elem_of_In, in_concat. exists l. split.
      * apply list_elem_of_In, list_elem_of_fmap.
        exists (sign_key E e, l). split; [done|].
        by apply dict_get_Some_elem.
      * by apply list_elem_of_In.
    + rewrite decide_False; [done|].
      intros (l & Hl & Hin)%list_elem_of_In%in_concat.
      apply list_elem_of_In, list_elem_of_fmap in Hl as ([key l'] & -> & Hl).
      apply (dict_get_elem _ _ _ Hkeys) in Hl.
      destruct (proj1 (Hb key o)) as (e' & He' & Hs' & _).
      { cbn. rewrite Hl. by apply list_elem_of_In. }
      by simplify_eq.
Qed.

(** X16: [ShapeSignage] never raises in the pass: every list of
    overlays it is given is non-empty and starts with an overlay whose
    material is a key of [SIGN_ORDER_LOOKUP].  One shape is made for each
    key of [sign_shape_overlays], in the order of the keys: its name is
    the name of the key, its overlays are the list of the key, its
    repeat group is 0, it has no frames, and its index is the index of a
    material that case folds to the material of the key. *)
Theorem shapes_always_made E overs :
  exists sg,
    make_shapes E overs (scan_overlays E overs) = inr sg
    /\ Forall2 (shape_of_entry E)
         (sign_shape_overlays (scan_overlays E overs)) (shapes sg).
Proof.
  destruct (make_shapes_run E overs) as (sg & Hrun & _).
  exists sg. split; [exact Hrun|].
  apply (sh_shapes _ _ _ _ (make_shapes_shaping _ _ _ Hrun)).
Qed.

(** X17: after the pass every overlay whose material is a key of
    [SIGN_ORDER_LOOKUP] is left without its [targetname] and with
    everything else it had, and every other overlay is as it was; the
    frames change no overlay of the map, they are added beside them. *)
Theorem signs_lose_their_names E ITEM_TYPES vmf tex en st :
  calc_connections E ITEM_TYPES vmf tex en = inr st ->
  st_info_overlay st = unnamed E <$> info_overlay vmf
  /\ forall o e, info_overlay vmf !! o = Some e ->
       (is_sign E e ->
        Entity.keys (st_info_overlay st !!! o)
        = delete "targetname" (Entity.keys e))
       /\ (~ is_sign E e -> st_info_overlay st !!! o = e).
Proof.
  intros (sc & sg & insts & _ & Hsg & _ & _ & _ & _ & _ & _ & ->)
    %calc_connections_inv.
  destruct (make_shapes_run E (info_overlay vmf)) as (sg' & Hrun & Hstore).
  rewrite Hrun in Hsg. injection Hsg as ->. split; [exact Hstore|].
  intros o e He. rewrite Hstore, list_lookup_total_alt, list_lookup_fmap, He.
  cbn. unfold unnamed. split; intros Hs.
  - by rewrite decide_True.
  - by rewrite decide_False.
Qed.

Lemma signs_lose_their_names_witness :
  result_overlays
    (calc_connections demo_externals demo_types overlay_scene [] false)
  = Some [(EmptyString, "signage/shape02");
          ("antline_1", "signage/indicator_lights");
          (EmptyString, "signage/shape02");
          (EmptyString, "signage/shape02");
          ("antline_1", "signage/indicator_corner");
          ("ring", "Signage/Shape02")]
  /\ exists st,
      calc_connections demo_externals demo_types overlay_scene [] false
      = inr st
      /\ st_info_overlay st
         = unnamed demo_externals <$> info_overlay overlay_scene.
Proof.
  split; [vm_compute; reflexivity|].
  destruct (calc_connections demo_externals demo_types overlay_scene [] false)
    as [e|st] eqn:H.
  - exfalso. vm_compute in H. discriminate H.
  - exists st. split; [reflexivity|].
    exact (proj1 (signs_lose_their_names demo_externals demo_types
                    overlay_scene [] false st H)).
Defined.
(** * The loops of an item, step by step *)

Lemma group_outputs_snoc outs o :
  group_outputs (outs ++ [o])
  = dict_append (Output.target o) o (group_outputs outs).
Proof. unfold group_outputs. by rewrite foldl_app. Qed.

Lemma group_outputs_NoDup outs : NoDup (dict_keys (group_outputs outs)).
Proof.
  induction outs as [|o outs IH] using rev_ind; [apply NoDup_nil_2|].
  rewrite group_outputs_snoc. by apply dict_keys_append_NoDup.
Qed.

(** The list under a target name holds the outputs to that name, in
    their order. *)
Lemma group_outputs_get outs n :
  dict_get (group_outputs outs) n
  = match filter (fun o => Output.target o = n) outs with
    | [] => None
    | l => Some l
    end.
Proof.
  induction outs as [|o outs IH] using rev_ind; [done|].
  rewrite group_outputs_snoc, dict_get_append, filter_app.
  destruct (decide (n = Output.target o)) as [->|Hne].
  - rewrite IH, filter_cons_True by done. cbn.
    by destruct (filter _ outs).
  - rewrite IH, filter_cons_False by done. cbn. by rewrite app_nil_r.
Qed.

Lemma group_outputs_default e n :
  default [] (dict_get (group_outputs (Entity.outputs e)) n) = outputs_to e n.
Proof.
  rewrite group_outputs_get. unfold outputs_to.
  by destruct (filter _ (Entity.outputs e)).
Qed.

Lemma out_names_outputs e n : n ∈ out_names e <-> outputs_to e n <> [].
Proof.
  unfold out_names, outputs_to. split.
  - intros ([k l] & -> & Hin)%list_elem_of_fmap.
    apply (dict_get_elem _ _ _ (group_outputs_NoDup _)) in Hin.
    rewrite group_outputs_get in Hin. cbn.
    destruct (filter _ (Entity.outputs e)); [done|]. done.
  - intros Hne.
    destruct (filter _ (Entity.outputs e)) as [|o l] eqn:Hf; [done|].
    assert (Ho : o ∈ filter (fun o => Output.target o = n) (Entity.outputs e)).
    { rewrite Hf. by left. }
    apply list_elem_of_filter in Ho as [<- Ho].
    by apply group_outputs_keys.
Qed.

Lemma link_target_spec E sc ov insts n item acc item' acc' :
  link_target E sc ov insts n (item, acc) = inr (item', acc') ->
  acc' = acc ++ from_option (fun r => [r]) [] (item_of sc n)
  /\ Item.antlines item'
     = Item.antlines item
       ∪ from_option (toggle_antlines ov insts) ∅ (toggle_of sc n)
  /\ Item.item_type item' = Item.item_type item
  /\ Item.ind_toggle item' = Item.ind_toggle item
  /\ Item.shape_signs item' = Item.shape_signs item.
Proof.
  unfold link_target, item_of, is_item_link, toggle_of.
  destruct (is_model_or_brush n); cbn.
  { intros [= <- <-]. rewrite app_nil_r. split_and!; try done. set_solver. }
  destruct (toggles sc !! n) as [tg|] eqn:Htg; cbn.
  { intros [= <- <-]. rewrite app_nil_r. by split_and!. }
  destruct (panels sc !! n) as [pan|] eqn:Hpan; cbn.
  { intros [= <- <-]. rewrite app_nil_r. split_and!; try done. set_solver. }
  destruct (dict_get (scan_ITEMS sc) n) as [r|]; [|done].
  intros [= <- <-]. cbn. split_and!; try done. set_solver.
Qed.

Lemma link_loop_items E sc ov insts ns item acc item' acc' :
  for_each (link_target E sc ov insts) ns (item, acc) = inr (item', acc') ->
  acc' = acc ++ linked_items sc ns
  /\ Item.antlines item' = Item.antlines item ∪ linked_antlines sc ov insts ns
  /\ Item.item_type item' = Item.item_type item
  /\ Item.ind_toggle item' = Item.ind_toggle item
  /\ Item.shape_signs item' = Item.shape_signs item.
Proof.
  revert item acc. induction ns as [|n ns IH]; intros item acc.
  - intros [= <- <-]. rewrite app_nil_r. split_and!; try done.
    unfold linked_antlines. cbn. set_solver.
  - rewrite for_each_cons.
    destruct (link_target E sc ov insts n (item, acc)) as [e|[item1 acc1]] eqn:Hn;
      cbn; [done|].
    apply link_target_spec in Hn as (-> & Ha & Hty & Htg & Hsh).
    intros (-> & Ha' & Hty' & Htg' & Hsh')%IH.
    unfold linked_items, linked_antlines in *. cbn.
    split_and!; [|rewrite Ha', Ha|congruence..].
    + rewrite <- app_assoc. f_equal. by destruct (item_of sc n).
    + destruct (toggle_of sc n); cbn; set_solver.
Qed.

Lemma link_loop_ok E sc ov insts ns acc :
  (forall n, n ∈ ns -> ~ unknown_target sc n) ->
  exists acc', for_each (link_target E sc ov insts) ns acc = inr acc'.
Proof.
  revert acc. induction ns as [|n ns IH]; intros acc Hall; [by exists acc|].
  destruct (link_target_known E sc ov insts n acc) as [acc1 H1];
    [apply Hall; by left|].
  rewrite for_each_cons, H1. cbn. apply IH. intros m Hm. apply Hall. by right.
Qed.

(** Lookups that do not see what the loops change. *)
Lemma same_instance_total (a b : list Entity.t) j :
  Forall2 same_instance a b -> same_instance (a !!! j) (b !!! j).
Proof.
  intros H. rewrite !list_lookup_total_alt.
  destruct (a !! j) as [x|] eqn:Ha.
  - destruct (Forall2_lookup_l _ _ _ _ _ H Ha) as (y & -> & Hxy). done.
  - apply lookup_ge_None in Ha. rewrite (Forall2_length _ _ _ H) in Ha.
    apply lookup_ge_None in Ha. rewrite Ha. apply same_instance_refl.
Qed.

Lemma same_inst_total (a b : list Item.t) t :
  Forall2 (fun x y => Item.inst x = Item.inst y) a b ->
  Item.inst (a !!! t) = Item.inst (b !!! t).
Proof.
  intros H. rewrite !list_lookup_total_alt.
  destruct (a !! t) as [x|] eqn:Ha.
  - destruct (Forall2_lookup_l _ _ _ _ _ H Ha) as (y & -> & Hxy). done.
  - apply lookup_ge_None in Ha. rewrite (Forall2_length _ _ _ H) in Ha.
    apply lookup_ge_None in Ha. by rewrite Ha.
Qed.

Lemma same_fields_inst (a b : list Item.t) :
  Forall2 same_fields a b ->
  Forall2 (fun x y => Item.inst x = Item.inst y) a b.
Proof.
  intros H. eapply Forall2_impl; [exact H|]. by intros x y (? & _).
Qed.

Lemma conn_for_ext E inputs insts its its' item t :
  Forall2 (fun x y => Item.inst x = Item.inst y) its its' ->
  conn_for E inputs insts its item t = conn_for E inputs insts its' item t.
Proof.
  intros H. unfold conn_for, Item_name, Item_traits.
  by rewrite (same_inst_total _ _ t H).
Qed.

Lemma connect_input_conn E inputs insts item t g :
  connect_input E inputs insts item t g
  = (conn ← conn_for E inputs insts (items g) item t;
     ok (Connection_add (length (conns g))
           (mkGraph (items g) (conns g ++ [conn])))).
Proof.
  unfold connect_input, conn_for. cbv zeta.
  by destruct (conn_type_of _ _ _ _).
Qed.

(** The connections one run of the loop over [input_items] adds. *)
Lemma connect_loop_conns E inputs insts item l g g' :
  for_each (connect_input E inputs insts item) l g = inr g' ->
  exists new,
    conns g' = conns g ++ new
    /\ Forall2 (fun t conn => conn_for E inputs insts (items g) item t
                              = inr conn) l new.
Proof.
  revert g. induction l as [|t l IH]; intros g.
  - intros [= <-]. exists []. by rewrite app_nil_r.
  - rewrite for_each_cons.
    destruct (connect_input E inputs insts item t g) as [e|g1] eqn:Ht;
      cbn; [done|].
    pose proof (connect_input_inv _ _ _ _ _ _ _ Ht) as [Hsame _].
    rewrite connect_input_conn in Ht.
    destruct (conn_for E inputs insts (items g) item t) as [e|conn] eqn:Hc;
      cbn in Ht; [done|]. injection Ht as <-.
    intros (new & Hnew & Hall)%IH. rewrite conns_add in Hnew. cbn in Hnew.
    exists (conn :: new). split; [by rewrite Hnew, <- app_assoc|].
    constructor; [done|].
    eapply Forall2_impl; [exact Hall|]. cbn. intros t' conn' <-.
    apply conn_for_ext. by apply same_fields_inst.
Qed.

Lemma connect_loop_ok E inputs insts item l g :
  Forall (fun t => is_ok (conn_for E inputs insts (items g) item t) = true) l ->
  exists g', for_each (connect_input E inputs insts item) l g = inr g'.
Proof.
  revert g. induction l as [|t l IH]; intros g Hall; [by exists g|].
  apply Forall_cons in Hall as [Ht Hall].
  rewrite for_each_cons.
  destruct (connect_input E inputs insts item t g) as [e|g1] eqn:Hstep.
  - rewrite connect_input_conn in Hstep.
    by destruct (conn_for E inputs insts (items g) item t).
  - cbn. apply IH.
    pose proof (connect_input_inv _ _ _ _ _ _ _ Hstep) as [Hsame _].
    eapply Forall_impl; [exact Hall|]. cbn. intros t' <-.
    symmetry. f_equal. apply conn_for_ext. by apply same_fields_inst.
Qed.
(** * One item of the loop, read off the map *)

Lemma funnel_type_None E outs :
  funnel_type E outs = None <-> Forall (fun o => ~ recognised E o) outs.
Proof.
  split; [|apply funnel_type_none].
  induction outs as [|o outs IH]; cbn; [constructor|].
  fold (input_tuple o).
  destruct (decide (input_tuple o ∈ tbeam_polarity E)); [done|].
  destruct (decide (input_tuple o ∈ tbeam_io E)); [done|].
  intros H. constructor; [|by apply IH]. by intros [?|?].
Qed.

Lemma conn_type_of_fails E traits n outs err :
  conn_type_of E traits n outs = inl err
  <-> "tbeam_emitter" ∈ traits /\ Forall (fun o => ~ recognised E o) outs
      /\ err = ValueError (funnel_msg n).
Proof.
  unfold conn_type_of.
  destruct (decide ("tbeam_emitter" ∈ traits)) as [Htr|Htr].
  - destruct (funnel_type E outs) as [ty|] eqn:Hf.
    + split; [done|]. intros (_ & Hall%funnel_type_None & _). congruence.
    + split.
      * intros [= <-]. split_and!; [done| |done]. by apply funnel_type_None.
      * by intros (_ & _ & ->).
  - split; [done|]. by intros (? & _).
Qed.

Lemma conn_type_of_ok E traits n outs :
  is_ok (conn_type_of E traits n outs) = true
  <-> ("tbeam_emitter" ∈ traits -> Exists (recognised E) outs).
Proof.
  destruct (conn_type_of E traits n outs) as [err|ty] eqn:H; cbn.
  - apply conn_type_of_fails in H as (Htr & Hall & _). split; [done|].
    intros Hex. specialize (Hex Htr). apply Exists_exists in Hex as (o & Ho & Hr).
    by eapply Forall_forall in Hall.
  - split; [|done]. intros _ Htr.
    unfold conn_type_of in H. rewrite decide_True in H by done.
    destruct (funnel_type E outs) as [ty'|] eqn:Hf; [|done].
    destruct (decide (Exists (recognised E) outs)) as [?|Hno]; [done|].
    apply not_Exists_Forall in Hno; [|intros o; apply _].
    apply funnel_type_None in Hno. congruence.
Qed.

Lemma conn_for_insts E inputs (insts0 insts : list Entity.t) its item t :
  Forall2 same_instance insts0 insts ->
  conn_for E inputs insts its item t = conn_for E inputs insts0 its item t.
Proof.
  intros H. unfold conn_for, Item_name, Item_traits.
  destruct (same_instance_total _ _ (Item.inst (its !!! t)) H)
    as (-> & _ & -> & _). done.
Qed.

(** The target item of a name, and the connection to it. *)
Lemma expected_conn_spec E sc insts0 r t n :
  scanned insts0 sc -> item_of sc n = Some t ->
  Entity.get (source_of sc insts0 t) "targetname" = n
  /\ t ∈ dict_values (scan_ITEMS sc)
  /\ expected_conn E sc insts0 r t
     = (ty ← conn_type_of E (Entity.traits (source_of sc insts0 t)) n
               (outputs_to (source_of sc insts0 r) n);
        ok (Connection.mk t r ty (outputs_to (source_of sc insts0 r) n))).
Proof.
  intros Hsc Ht. unfold item_of in Ht.
  destruct (is_item_link sc n); [|done].
  destruct (sc_items _ _ Hsc _ _ Ht) as (it & e & Hit & He & Hn & _).
  assert (Hsrc : source_of sc insts0 t = e).
  { unfold source_of, inst_of.
    rewrite (list_lookup_total_correct _ _ _ Hit).
    by apply list_lookup_total_correct. }
  split_and!.
  - by rewrite Hsrc.
  - by eapply dict_get_Some_value.
  - unfold expected_conn, conn_for, Item_name, Item_traits.
    fold (inst_of sc t). fold (source_of sc insts0 t).
    rewrite Hsrc, Hn. by rewrite group_outputs_default.
Qed.

Lemma linked_items_elem sc ns t :
  t ∈ linked_items sc ns <-> exists n, n ∈ ns /\ item_of sc n = Some t.
Proof. unfold linked_items. apply list_elem_of_omap. Qed.

Lemma link_target_fails E sc ov insts n acc err :
  link_target E sc ov insts n acc = inl err ->
  unknown_target sc n /\ err = ValueError (unknown_instance_msg n).
Proof.
  destruct (decide (unknown_target sc n)) as [Hu|Hk].
  - rewrite (link_target_unknown _ _ _ _ _ _ Hu). by intros [= <-].
  - destruct (link_target_known E sc ov insts n acc Hk) as [acc' ->]. done.
Qed.

(** The state in which the loop reaches an item, and what the two loops
    of the item read in it. *)
Lemma step_state E ITEM_TYPES ov insts0 sc pre r post insts g :
  scan_instances E ITEM_TYPES insts0 = inr sc ->
  dict_values (scan_ITEMS sc) = pre ++ r :: post ->
  for_each (build_item E sc ov) pre (insts0, scan_graph sc) = inr (insts, g) ->
  built insts0 sc pre insts g
  /\ Item.inst (items g !!! r) = inst_of sc r
  /\ Entity.outputs (insts !!! inst_of sc r)
     = Entity.outputs (source_of sc insts0 r)
  /\ r < length (items g)
  /\ same_fields (items (scan_graph sc) !!! r) (items g !!! r)
  /\ exists i ty, items (scan_graph sc) !!! r = Item.new i ty.
Proof.
  intros Hscan Hvals Hrun.
  destruct (item_reached _ _ _ _ _ _ _ _ _ _ Hscan Hvals Hrun)
    as (Hb & item & e0 & e & Hitem & _ & _ & _ & _ & _ & _).
  apply scan_instances_scanned in Hscan.
  assert (Hr : r ∈ dict_values (scan_ITEMS sc)).
  { rewrite Hvals. apply elem_of_app. right. by left. }
  assert (Hnd : r ∉ pre).
  { pose proof (sc_values _ _ Hscan) as Hn. rewrite Hvals in Hn.
    apply NoDup_app in Hn as (_ & Hn & _). intros Hx.
    apply (Hn _ Hx). by left. }
  apply (dict_value_get _ _ (sc_keys _ _ Hscan)) in Hr as [n Hn].
  destruct (sc_items _ _ Hscan _ _ Hn) as (it & _ & Hit & _).
  pose proof (same_inst_total _ _ r (b_inst _ _ _ _ _ Hb)) as Hinst.
  split_and!.
  - done.
  - unfold inst_of. by rewrite Hinst.
  - unfold source_of.
    by destruct (same_instance_total _ _ (inst_of sc r) (b_insts _ _ _ _ _ Hb))
      as (_ & <- & _).
  - by eapply lookup_lt_Some.
  - rewrite (list_lookup_total_correct _ _ _ Hit),
      (list_lookup_total_correct _ _ _ Hitem).
    by eapply (b_pending _ _ _ _ _ Hb).
  - pose proof (sc_fresh _ _ Hscan) as Hf.
    eapply Forall_lookup_1 in Hf; [|exact Hit].
    destruct Hf as (i & ty & -> & _).
    rewrite (list_lookup_total_correct _ _ _ Hit). eauto.
Qed.

Lemma build_item_unfold E sc ov r insts g :
  build_item E sc ov r (insts, g)
  = (res ← for_each (link_target E sc ov insts)
             (out_names (insts !!! Item.inst (items g !!! r)))
             (items g !!! r, []);
     g2 ← for_each
            (connect_input E
               (group_outputs
                  (Entity.outputs (insts !!! Item.inst (items g !!! r))))
               (reconcile_panels E res.1 insts) r)
            res.2 (mkGraph (<[r := res.1]> (items g)) (conns g));
     ok (reconcile_panels E res.1 insts, g2)).
Proof.
  unfold build_item, out_names. cbv zeta.
  by destruct (for_each _ _ _) as [e|[item1 input_items]].
Qed.

(** The connection the second loop of the item [r] makes to [t] is the
    one read off the map. *)
Lemma step_conn_for E ITEM_TYPES ov insts0 sc pre r post insts g item1 t :
  scan_instances E ITEM_TYPES insts0 = inr sc ->
  dict_values (scan_ITEMS sc) = pre ++ r :: post ->
  for_each (build_item E sc ov) pre (insts0, scan_graph sc) = inr (insts, g) ->
  Item.inst item1 = Item.inst (items g !!! r) ->
  conn_for E (group_outputs (Entity.outputs (insts !!! Item.inst (items g !!! r))))
    (reconcile_panels E item1 insts) (<[r := item1]> (items g)) r t
  = expected_conn E sc insts0 r t.
Proof.
  intros Hscan Hvals Hrun Hinst.
  destruct (step_state _ _ _ _ _ _ _ _ _ _ Hscan Hvals Hrun)
    as (Hb & Hr & Houts & Hlt & _).
  unfold expected_conn. rewrite Hr, Houts.
  rewrite (conn_for_insts _ _ insts0).
  - symmetry. apply conn_for_ext.
    eapply Forall2_trans with (k := items g)
      (P := fun a b => Item.inst a = Item.inst b)
      (Q := fun a b => Item.inst a = Item.inst b).
    + intros a b c Hab Hbc. by rewrite Hab.
    + apply (b_inst _ _ _ _ _ Hb).
    + apply Forall2_same_length_lookup. split; [by rewrite length_insert|].
      intros j a b Ha. destruct (decide (j = r)) as [->|Hne].
      * rewrite list_lookup_insert_eq by done. intros [= <-].
        rewrite Hinst. by rewrite (list_lookup_total_correct _ _ _ Ha).
      * rewrite list_lookup_insert_ne by done. congruence.
  - eapply Forall2_trans; [|apply (b_insts _ _ _ _ _ Hb)
                            |apply reconcile_panels_same].
    intros ? ? ?. apply same_instance_trans.
Qed.

Lemma toggle_antlines_same ov (insts0 insts : list Entity.t) tg :
  Forall2 same_instance insts0 insts ->
  toggle_antlines ov insts tg = toggle_antlines ov insts0 tg.
Proof.
  intros H. unfold toggle_antlines, Entity.fixup_get.
  destruct (same_instance_total _ _ tg H) as (_ & _ & _ & _ & Hfix).
  by rewrite Hfix.
Qed.

Lemma linked_antlines_same sc ov (insts0 insts : list Entity.t) ns :
  Forall2 same_instance insts0 insts ->
  linked_antlines sc ov insts ns = linked_antlines sc ov insts0 ns.
Proof.
  intros H. unfold linked_antlines. f_equal.
  apply list_fmap_ext. intros _ tg _. by apply toggle_antlines_same.
Qed.

(** What building one item does, in terms of the map. *)
Lemma build_item_step E ITEM_TYPES ov insts0 sc pre r post insts g :
  scan_instances E ITEM_TYPES insts0 = inr sc ->
  dict_values (scan_ITEMS sc) = pre ++ r :: post ->
  for_each (build_item E sc ov) pre (insts0, scan_graph sc) = inr (insts, g) ->
  (forall err,
     build_item E sc ov r (insts, g) = inl err ->
     (exists n, n ∈ out_names (source_of sc insts0 r) /\ unknown_target sc n
                /\ err = ValueError (unknown_instance_msg n))
     \/ exists t, t ∈ linked_items sc (out_names (source_of sc insts0 r))
                  /\ expected_conn E sc insts0 r t = inl err)
  /\ (forall insts' g',
        build_item E sc ov r (insts, g) = inr (insts', g') ->
        (forall n, n ∈ out_names (source_of sc insts0 r) ->
                   ~ unknown_target sc n)
        /\ (exists new,
              conns g' = conns g ++ new
              /\ Forall2 (fun t conn => expected_conn E sc insts0 r t = inr conn)
                   (linked_items sc (out_names (source_of sc insts0 r))) new)
        /\ Item.antlines (items g' !!! r)
           = linked_antlines sc ov insts0 (out_names (source_of sc insts0 r))
        /\ Item.ind_toggle (items g' !!! r) = None
        /\ Item.shape_signs (items g' !!! r) = []
        /\ Item.item_type (items g' !!! r)
           = Item.item_type (items (scan_graph sc) !!! r))
  /\ ((forall n, n ∈ out_names (source_of sc insts0 r) ->
                 ~ unknown_target sc n) ->
      Forall (fun t => is_ok (expected_conn E sc insts0 r t) = true)
             (linked_items sc (out_names (source_of sc insts0 r))) ->
      exists res, build_item E sc ov r (insts, g) = inr res).
Proof.
  intros Hscan Hvals Hrun.
  destruct (step_state _ _ _ _ _ _ _ _ _ _ Hscan Hvals Hrun)
    as (Hb & Hr & Houts & Hlt & Hsf & i & ty & Hnew).
  assert (Hnames : out_names (insts !!! Item.inst (items g !!! r))
                   = out_names (source_of sc insts0 r)).
  { unfold out_names. by rewrite Hr, Houts. }
  rewrite build_item_unfold, Hnames.
  set (ns := out_names (source_of sc insts0 r)).
  destruct (for_each (link_target E sc ov insts) ns (items g !!! r, []))
    as [e|[item1 input_items]] eqn:Hlink.
  { split_and!.
    - intros err [= <-]. left.
      apply for_each_failure in Hlink as (p1 & n & p2 & acc & Hns & _ & Hn).
      apply link_target_fails in Hn as [Hu ->].
      exists n. split; [|split; [exact Hu|reflexivity]].
      rewrite Hns. apply elem_of_app. right. by left.
    - done.
    - intros Hknown _. exfalso.
      destruct (link_loop_ok E sc ov insts ns (items g !!! r, []) Hknown)
        as [acc' Hacc]. congruence. }
  cbn [mbind result_bind fst snd].
  pose proof (link_loop_items _ _ _ _ _ _ _ _ _ Hlink)
    as (Hitems & Hant & Hty & Htg & Hsh).
  pose proof (link_loop _ _ _ _ _ _ _ _ _ Hlink) as (_ & _ & Hinst1 & _).
  cbn in Hitems. subst input_items.
  assert (Hconn : forall t,
    conn_for E (group_outputs
                  (Entity.outputs (insts !!! Item.inst (items g !!! r))))
      (reconcile_panels E item1 insts) (<[r := item1]> (items g)) r t
    = expected_conn E sc insts0 r t).
  { intros t. by eapply step_conn_for. }
  set (inputs := group_outputs _) in *.
  set (g1 := mkGraph (<[r := item1]> (items g)) (conns g)).
  assert (Hknown : forall n, n ∈ ns -> ~ unknown_target sc n).
  { intros n Hn Hu.
    destruct (link_loop_fails E sc ov insts ns n (items g !!! r, []) Hn Hu)
      as [err Herr]. congruence. }
  destruct (for_each (connect_input E inputs (reconcile_panels E item1 insts) r)
              (linked_items sc ns) g1) as [e|g2] eqn:Hloop.
  - split_and!.
    + intros err [= <-]. right.
      apply for_each_failure in Hloop as (p1 & t & p2 & gk & Hts & Hpre & Ht).
      exists t. split; [rewrite Hts; apply elem_of_app; right; by left|].
      rewrite <- Hconn. rewrite connect_input_conn in Ht.
      apply connect_loop_inv in Hpre as [Hsame _].
      rewrite (conn_for_ext _ _ _ (items g1) (items gk))
        by (by apply same_fields_inst).
      destruct (conn_for E inputs _ (items gk) r t) as [e'|c];
        cbn in Ht; [congruence|done].
    + done.
    + intros _ Hall. exfalso.
      destruct (connect_loop_ok E inputs (reconcile_panels E item1 insts) r
                  (linked_items sc ns) g1) as [g2 Hg2]; [|congruence].
      eapply Forall_impl; [exact Hall|]. cbn. intros t <-.
      f_equal. apply Hconn.
  - split_and!; [done| |eauto].
    intros insts' g' [= <- <-]. split; [exact Hknown|].
    pose proof (connect_loop_conns _ _ _ _ _ _ _ Hloop) as (new & Hc & Hall).
    apply connect_loop_inv in Hloop as [Hsame _].
    assert (Hfields : same_fields item1 (items g2 !!! r)).
    { assert (H1 : items g1 !! r = Some item1).
      { unfold g1. cbn. by apply list_lookup_insert_eq. }
      destruct (Forall2_lookup_l _ _ _ _ _ Hsame H1) as (it2 & Hit2 & Hf).
      by rewrite (list_lookup_total_correct _ _ _ Hit2). }
    destruct Hfields as (_ & Hf2 & _ & Hf4 & Hf5 & Hf6 & _).
    destruct Hsf as (_ & Hs2 & _ & Hs4 & Hs5 & Hs6 & _).
    rewrite Hnew in *. cbn in *.
    split_and!.
    + exists new. split; [done|].
      eapply Forall2_impl; [exact Hall|]. cbn. intros t conn <-.
      symmetry. apply Hconn.
    + rewrite <- Hf5, Hant, <- Hs5.
      rewrite (linked_antlines_same _ _ insts0) by apply (b_insts _ _ _ _ _ Hb).
      set_solver.
    + congruence.
    + congruence.
    + congruence.
Qed.
(** * The whole loop, read off the map *)

Lemma item_pairs_snoc sc insts0 pre r :
  item_pairs sc insts0 (pre ++ [r])
  = item_pairs sc insts0 pre
    ++ ((fun t => (r, t))
          <$> linked_items sc (out_names (source_of sc insts0 r))).
Proof. unfold item_pairs. rewrite bind_app. cbn. by rewrite app_nil_r. Qed.

Lemma build_run_conns E ITEM_TYPES ov insts0 sc pre post insts g :
  scan_instances E ITEM_TYPES insts0 = inr sc ->
  dict_values (scan_ITEMS sc) = pre ++ post ->
  for_each (build_item E sc ov) pre (insts0, scan_graph sc) = inr (insts, g) ->
  Forall2 (fun rt conn => expected_conn E sc insts0 rt.1 rt.2 = inr conn)
          (item_pairs sc insts0 pre) (conns g)
  /\ forall r n, r ∈ pre -> n ∈ out_names (source_of sc insts0 r) ->
                 ~ unknown_target sc n.
Proof.
  intros Hscan. revert post insts g.
  induction pre as [|r pre IH] using rev_ind; intros post insts g Hvals.
  - intros [= <- <-].
    rewrite (sc_conns _ _ (scan_instances_scanned _ _ _ _ Hscan)).
    split; [constructor|]. by intros r n ?%not_elem_of_nil.
  - rewrite for_each_snoc.
    destruct (for_each _ pre _) as [e|[insts1 g1]] eqn:Hpre; cbn; [done|].
    intros Hstep. rewrite <- app_assoc in Hvals. cbn in Hvals.
    destruct (IH _ _ _ Hvals eq_refl) as [IHc IHk].
    destruct (build_item_step _ _ _ _ _ _ _ _ _ _ Hscan Hvals Hpre)
      as (_ & Hok & _).
    destruct (Hok _ _ Hstep) as (Hknown & (new & -> & Hnew) & _).
    split.
    + rewrite item_pairs_snoc. apply Forall2_app; [done|].
      by apply Forall2_fmap_l.
    + intros r' n [Hr'| ->%list_elem_of_singleton]%elem_of_app;
        [by apply IHk|by apply Hknown].
Qed.

Lemma build_run_ok E ITEM_TYPES ov insts0 sc pre post :
  scan_instances E ITEM_TYPES insts0 = inr sc ->
  dict_values (scan_ITEMS sc) = pre ++ post ->
  (forall r, r ∈ pre ->
     (forall n, n ∈ out_names (source_of sc insts0 r) ->
                ~ unknown_target sc n)
     /\ Forall (fun t => is_ok (expected_conn E sc insts0 r t) = true)
               (linked_items sc (out_names (source_of sc insts0 r)))) ->
  exists res, for_each (build_item E sc ov) pre (insts0, scan_graph sc)
              = inr res.
Proof.
  intros Hscan. revert post.
  induction pre as [|r pre IH] using rev_ind; intros post Hvals Hall;
    [by eexists|].
  rewrite <- app_assoc in Hvals. cbn in Hvals.
  destruct (IH _ Hvals) as [[insts1 g1] Hpre].
  { intros r' Hr'. apply Hall. apply elem_of_app. by left. }
  rewrite for_each_snoc, Hpre. cbn.
  destruct (build_item_step _ _ _ _ _ _ _ _ _ _ Hscan Hvals Hpre)
    as (_ & _ & Hok).
  destruct (Hall r) as [Hk Hc]; [apply elem_of_app; right; by left|].
  by apply Hok.
Qed.

Lemma expected_conn_ok E sc insts0 r t n :
  scanned insts0 sc -> item_of sc n = Some t ->
  is_ok (expected_conn E sc insts0 r t) = true
  <-> ("tbeam_emitter" ∈ Entity.traits (source_of sc insts0 t) ->
       Exists (recognised E) (outputs_to (source_of sc insts0 r) n)).
Proof.
  intros Hsc Ht.
  destruct (expected_conn_spec E sc insts0 r t n Hsc Ht) as (_ & _ & ->).
  rewrite <- conn_type_of_ok with (n := n).
  by destruct (conn_type_of _ _ _ _).
Qed.

Lemma well_wired_items E sc insts0 :
  scanned insts0 sc ->
  well_wired E sc insts0
  <-> forall r, r ∈ dict_values (scan_ITEMS sc) ->
        (forall n, n ∈ out_names (source_of sc insts0 r) ->
                   ~ unknown_target sc n)
        /\ Forall (fun t => is_ok (expected_conn E sc insts0 r t) = true)
                  (linked_items sc (out_names (source_of sc insts0 r))).
Proof.
  intros Hsc. unfold well_wired. split.
  - intros Hw r Hr. split; [intros n Hn; by apply (Hw r Hr n Hn)|].
    apply Forall_forall. intros t (n & Hn & Ht)%linked_items_elem.
    apply (expected_conn_ok _ _ _ _ _ _ Hsc Ht).
    by apply (Hw r Hr n Hn).
  - intros Hw r Hr n Hn. destruct (Hw r Hr) as [Hk Hall].
    split; [by apply Hk|]. intros t Ht.
    apply (expected_conn_ok _ _ _ r _ _ Hsc Ht).
    eapply Forall_forall in Hall; [exact Hall|].
    apply linked_items_elem. eauto.
Qed.

(** X18: with the scan done, the pass returns exactly when the map is
    well wired: every target name of an output of a registered item has a
    model or brush suffix or is the name of a toggle, of a panel or of a
    registered item, and whenever such a name stands for an item with the
    funnel trait, one of the outputs of the item to that name has an
    (instance, input) pair of the polarity set or of the on/off set. *)
Theorem calc_connections_returns_iff E ITEM_TYPES vmf tex en sc :
  scan_instances E ITEM_TYPES (func_instance vmf) = inr sc ->
  is_ok (calc_connections E ITEM_TYPES vmf tex en) = true
  <-> well_wired E sc (func_instance vmf).
Proof.
  intros Hscan.
  pose proof (scan_instances_scanned _ _ _ _ Hscan) as Hsc.
  rewrite (well_wired_items _ _ _ Hsc).
  destruct (make_shapes_run E (info_overlay vmf)) as (sg & Hsg & _).
  unfold calc_connections. rewrite Hscan. cbn [mbind result_bind].
  rewrite Hsg. cbn [mbind result_bind]. unfold build_items. split.
  - destruct (for_each _ _ _) as [e|[insts g]] eqn:Hrun; cbn; [done|].
    intros _ r Hr.
    apply list_elem_of_split in Hr as (pre & post & Hvals).
    rewrite Hvals, for_each_app in Hrun.
    destruct (for_each _ pre _) as [e|[insts1 g1]] eqn:Hpre;
      cbn [mbind result_bind] in Hrun; [done|].
    rewrite for_each_cons in Hrun.
    destruct (build_item E sc _ r (insts1, g1)) as [e|[insts2 g2]] eqn:Hstep;
      cbn in Hrun; [done|].
    destruct (build_item_step _ _ _ _ _ _ _ _ _ _ Hscan Hvals Hpre)
      as (_ & Hok & _).
    destruct (Hok _ _ Hstep) as (Hknown & (new & _ & Hnew) & _).
    split; [done|]. apply Forall_forall. intros t Ht.
    apply list_elem_of_lookup in Ht as [k Hk].
    destruct (Forall2_lookup_l _ _ _ _ _ Hnew Hk) as (conn & _ & ->). done.
  - intros Hall.
    destruct (build_run_ok E ITEM_TYPES (scan_overlays E (info_overlay vmf))
                (func_instance vmf) sc (dict_values (scan_ITEMS sc)) []
                Hscan) as [[insts g] ->];
      [by rewrite app_nil_r|done|done].
Qed.

Lemma calc_connections_returns_iff_witness :
  well_wired demo_externals (scan_of demo_externals demo_types funnel_scene)
    (func_instance funnel_scene)
  /\ ~ well_wired demo_externals (scan_of demo_externals demo_types ghost_scene)
       (func_instance ghost_scene).
Proof.
  split.
  - apply (calc_connections_returns_iff demo_externals demo_types funnel_scene
             [] false (scan_of demo_externals demo_types funnel_scene)
             ltac:(vm_compute; reflexivity)).
    vm_compute. reflexivity.
  - intros H.
    apply (calc_connections_returns_iff demo_externals demo_types ghost_scene
             [] false (scan_of demo_externals demo_types ghost_scene)
             ltac:(vm_compute; reflexivity)) in H.
    vm_compute in H. discriminate H.
Defined.
(** * Errors and results of the pass *)

Lemma enumerate_from_elem {A} n (l : list A) i x :
  (i, x) ∈ enumerate_from n l -> x ∈ l.
Proof.
  revert n. induction l as [|y l IH]; intros n; cbn.
  - by intros ?%not_elem_of_nil.
  - intros [[= _ ->]|Hin]%elem_of_cons; [by left|]. right. by eapply IH.
Qed.

Lemma scan_instance_fails E T i e sc err :
  scan_instance E T (i, e) sc = inl err ->
  is_normal_item e /\ T !! casefold E (Entity.item_id e) = None
  /\ err = ValueError (no_connections_msg (Entity.item_id e)).
Proof.
  unfold scan_instance, is_normal_item.
  destruct (decide _) as [|Hn]; [done|].
  destruct (decide _) as [|Ht]; [done|].
  destruct (decide _) as [|Hp]; [done|].
  destruct (T !! casefold E (Entity.item_id e)); [done|].
  by intros [= <-].
Qed.

(** X19: the pass raises nothing but three [ValueError]s: for an
    instance that becomes an item and has no item type, with its item
    id; for a target name of a registered item that is nothing the pass
    knows, with that name; and for a target name that stands for an item
    with the funnel trait when none of the outputs to it has a pair of
    the polarity set or the on/off set, with that name.  Making the
    signage shapes raises nothing. *)
Theorem calc_connections_errors E ITEM_TYPES vmf tex en err :
  calc_connections E ITEM_TYPES vmf tex en = inl err ->
  (exists e, e ∈ func_instance vmf /\ is_normal_item e
             /\ ITEM_TYPES !! casefold E (Entity.item_id e) = None
             /\ err = ValueError (no_connections_msg (Entity.item_id e)))
  \/ exists sc r n,
       scan_instances E ITEM_TYPES (func_instance vmf) = inr sc
       /\ r ∈ dict_values (scan_ITEMS sc)
       /\ n ∈ out_names (source_of sc (func_instance vmf) r)
       /\ ((unknown_target sc n
            /\ err = ValueError (unknown_instance_msg n))
           \/ (exists t,
                 item_of sc n = Some t
                 /\ "tbeam_emitter"
                    ∈ Entity.traits (source_of sc (func_instance vmf) t)
                 /\ Forall (fun o => ~ recognised E o)
                      (outputs_to (source_of sc (func_instance vmf) r) n)
                 /\ err = ValueError (funnel_msg n))).
Proof.
  unfold calc_connections.
  destruct (scan_instances E ITEM_TYPES (func_instance vmf)) as [e|sc] eqn:Hscan;
    cbn [mbind result_bind].
  { intros [= <-]. left. unfold scan_instances in Hscan.
    apply for_each_failure in Hscan as (p1 & [i x] & p2 & s & Hl & _ & Hx).
    apply scan_instance_fails in Hx as (Hn & Hty & ->).
    exists x. split_and!; [|done..].
    apply (enumerate_from_elem 0 _ i). unfold enumerate in Hl. rewrite Hl.
    apply elem_of_app. right. by left. }
  destruct (make_shapes_run E (info_overlay vmf)) as (sg & -> & _).
  cbn [mbind result_bind]. unfold build_items.
  destruct (for_each _ _ _) as [e|[insts g]] eqn:Hrun; cbn; [|done].
  intros [= <-]. right.
  apply for_each_failure in Hrun as (pre & r & post & [insts g] & Hvals & Hpre & Hr).
  destruct (build_item_step _ _ _ _ _ _ _ _ _ _ Hscan Hvals Hpre)
    as (Hfail & _ & _).
  assert (Hin : r ∈ dict_values (scan_ITEMS sc)).
  { rewrite Hvals. apply elem_of_app. right. by left. }
  exists sc, r.
  destruct (Hfail _ Hr) as [(n & Hn & Hu & ->)|(t & Ht & Herr)].
  - exists n. split_and!; [done..|]. by left.
  - apply linked_items_elem in Ht as (n & Hn & Ht).
    exists n. split_and!; [done..|]. right. exists t. split; [done|].
    pose proof (scan_instances_scanned _ _ _ _ Hscan) as Hsc.
    destruct (expected_conn_spec E sc (func_instance vmf) r t n Hsc Ht)
      as (_ & _ & Heq).
    rewrite Heq in Herr.
    destruct (conn_type_of E _ n _) as [e'|ty] eqn:Hty; cbn in Herr; [|done].
    injection Herr as ->. by apply conn_type_of_fails in Hty.
Qed.

Lemma calc_connections_errors_witness :
  exists sc r n t,
    scan_instances demo_externals demo_types (func_instance bad_funnel_scene)
    = inr sc
    /\ r ∈ dict_values (scan_ITEMS sc)
    /\ item_of sc n = Some t
    /\ funnel_msg "funnel" = funnel_msg n.
Proof.
  destruct (calc_connections_errors demo_externals demo_types bad_funnel_scene
              [] false (ValueError (funnel_msg "funnel"))
              ltac:(vm_compute; reflexivity))
    as [(e & _ & _ & _ & Herr)
       |(sc & r & n & Hsc & Hr & _ & [[_ Herr]|(t & Ht & _ & _ & Herr)])].
  - exfalso. cbn in Herr. discriminate Herr.
  - exfalso. cbn in Herr. discriminate Herr.
  - exists sc, r, n, t. split_and!; [done..|].
    exact (f_equal (fun e => match e with
                             | ValueError m => m
                             | _ => EmptyString
                             end) Herr).
Defined.

(** A connection the pass makes runs between the two items given. *)
Lemma expected_conn_ends E sc insts0 r t conn :
  expected_conn E sc insts0 r t = inr conn ->
  Connection.out conn = r /\ Connection.inp conn = t.
Proof.
  unfold expected_conn, conn_for. cbv zeta.
  destruct (conn_type_of _ _ _ _); cbn; [done|]. by intros [= <-].
Qed.

Lemma item_of_inj sc insts0 n1 n2 t :
  scanned insts0 sc -> item_of sc n1 = Some t -> item_of sc n2 = Some t ->
  n1 = n2.
Proof.
  intros Hsc H1 H2.
  destruct (expected_conn_spec demo_externals sc insts0 t t n1 Hsc H1)
    as (<- & _).
  by destruct (expected_conn_spec demo_externals sc insts0 t t n2 Hsc H2)
    as (<- & _).
Qed.

Lemma NoDup_omap_inj {A B} (f : A -> option B) (l : list A) :
  (forall x y z, f x = Some z -> f y = Some z -> x = y) ->
  NoDup l -> NoDup (omap f l).
Proof.
  intros Hinj. induction 1 as [|x l Hx Hnd IH]; cbn; [apply NoDup_nil_2|].
  destruct (f x) as [z|] eqn:Hz; [|done].
  apply NoDup_cons_2; [|done].
  intros (y & Hy & Hfy)%list_elem_of_omap.
  by rewrite (Hinj _ _ _ Hz Hfy) in Hx.
Qed.

Lemma item_pairs_NoDup sc insts0 :
  scanned insts0 sc ->
  NoDup (item_pairs sc insts0 (dict_values (scan_ITEMS sc))).
Proof.
  intros Hsc. unfold item_pairs. apply NoDup_bind.
  - intros r1 r2 [r t] _ _ (t1 & [= -> ->] & _)%list_elem_of_fmap
      (t2 & [= -> _] & _)%list_elem_of_fmap. done.
  - intros r _. apply NoDup_fmap_2; [by intros t1 t2 [= ->]|].
    apply NoDup_omap_inj; [|apply group_outputs_NoDup].
    intros n1 n2 t. by apply (item_of_inj sc insts0).
  - apply (sc_values _ _ Hsc).
Qed.

(** X20: the connections of the result are read off the map: one for
    each registered item and each of its target names that stands for an
    item, in the order of the registry and of the first outputs to the
    names, so that no two connections have the same source and the same
    target.  A connection holds the outputs of its source to the name of
    its target, in their order, and there is one at least; its type is
    the default unless the target has the funnel trait, and then the type
    the funnel loop finds in those outputs. *)
Theorem connections_read_off_the_map E ITEM_TYPES vmf tex en sc st :
  scan_instances E ITEM_TYPES (func_instance vmf) = inr sc ->
  calc_connections E ITEM_TYPES vmf tex en = inr st ->
  (fun c => (Connection.out c, Connection.inp c)) <$> conns (st_graph st)
  = item_pairs sc (func_instance vmf) (dict_values (ITEMS st))
  /\ NoDup ((fun c => (Connection.out c, Connection.inp c))
              <$> conns (st_graph st))
  /\ Forall (read_off E sc (func_instance vmf)) (conns (st_graph st)).
Proof.
  intros Hscan (sc' & sg & insts & Hscan' & _ & Hbuild & -> & _)
    %calc_connections_inv.
  rewrite Hscan in Hscan'. injection Hscan' as <-.
  pose proof (scan_instances_scanned _ _ _ _ Hscan) as Hsc.
  destruct (build_run_conns E ITEM_TYPES (scan_overlays E (info_overlay vmf))
              (func_instance vmf) sc
              (dict_values (scan_ITEMS sc)) [] insts (st_graph st) Hscan)
    as [Hconns _]; [by rewrite app_nil_r|exact Hbuild|].
  assert (Hpairs :
    (fun c => (Connection.out c, Connection.inp c)) <$> conns (st_graph st)
    = item_pairs sc (func_instance vmf) (dict_values (scan_ITEMS sc))).
  { symmetry. apply list_eq_Forall2, Forall2_fmap_r.
    eapply Forall2_impl; [exact Hconns|]. cbn.
    intros [r t] conn [-> ->]%expected_conn_ends. done. }
  split_and!; [done|rewrite Hpairs; by apply item_pairs_NoDup|].
  apply Forall_forall. intros conn [k Hk]%list_elem_of_lookup.
  destruct (Forall2_lookup_r _ _ _ _ _ Hconns Hk) as ([r t] & Hrt & Hconn).
  cbn in Hconn. apply list_elem_of_lookup_2 in Hrt.
  unfold item_pairs in Hrt.
  apply list_elem_of_bind in Hrt as (r' & (t' & [= <- <-] & Ht)%list_elem_of_fmap
                                    & Hr).
  apply linked_items_elem in Ht as (n & Hn & Ht).
  destruct (expected_conn_spec E sc (func_instance vmf) r t n Hsc Ht)
    as (Hname & _ & Heq).
  rewrite Heq in Hconn.
  destruct (conn_type_of E _ n _) as [e'|ty] eqn:Hty; cbn in Hconn; [done|].
  injection Hconn as <-. unfold read_off. cbn. rewrite Hname.
  split_and!; [done..|by apply out_names_outputs|].
  unfold conn_type_of in Hty. case_decide.
  - by destruct (funnel_type E _) as [ty'|]; [injection Hty as ->|].
  - by injection Hty as <-.
Qed.

Lemma connections_read_off_the_map_witness :
  result_conns (calc_connections demo_externals demo_types door_scene [] false)
  = Some [Connection.mk 2 0 DEFAULT [Output.mk "door" None "Open"];
          Connection.mk 0 1 DEFAULT [Output.mk "lever" None "Press";
                                     Output.mk "lever" None "Release"];
          Connection.mk 2 1 DEFAULT [Output.mk "door" None "Open"]]
  /\ exists st,
      calc_connections demo_externals demo_types door_scene [] false = inr st
      /\ NoDup ((fun c => (Connection.out c, Connection.inp c))
                  <$> conns (st_graph st)).
Proof.
  split; [vm_compute; reflexivity|].
  destruct (calc_connections demo_externals demo_types door_scene [] false)
    as [e|st] eqn:H.
  - exfalso. vm_compute in H. discriminate H.
  - exists st. split; [reflexivity|].
    exact (proj1 (proj2 (connections_read_off_the_map demo_externals demo_types
                           door_scene [] false
                           (scan_of demo_externals demo_types door_scene) st
                           ltac:(vm_compute; reflexivity) H))).
Defined.
(** * The items after the pass *)

Lemma fields_persist E sc ov post r :
  r ∉ post ->
  forall insts g insts' g' a,
    for_each (build_item E sc ov) post (insts, g) = inr (insts', g') ->
    items g !! r = Some a ->
    exists b, items g' !! r = Some b /\ same_fields a b.
Proof.
  induction post as [|r0 post IH]; intros Hr insts g insts' g' a.
  - intros [= <- <-] Ha. exists a. split; [done|apply same_fields_refl].
  - apply not_elem_of_cons in Hr as [Hne Hr].
    rewrite for_each_cons.
    destruct (build_item E sc ov r0 (insts, g)) as [e|[insts1 g1]] eqn:Hstep;
      cbn; [done|].
    intros Hrest Ha.
    apply build_item_inv in Hstep as (item1 & _ & _ & _ & Hsame & _).
    assert (H1 : <[r0 := item1]> (items g) !! r = Some a).
    { by rewrite list_lookup_insert_ne. }
    destruct (Forall2_lookup_l _ _ _ _ _ Hsame H1) as (b1 & Hb1 & Hab1).
    destruct (IH Hr _ _ _ _ _ Hrest Hb1) as (b & Hb & Hb1b).
    exists b. split; [done|]. by eapply same_fields_trans.
Qed.

(** The type of a scanned item is the entry of [ITEM_TYPES] for the item
    id of its instance. *)
Lemma scan_item_types E T l sc :
  scan_instances E T l = inr sc ->
  forall r it, items (scan_graph sc) !! r = Some it ->
    exists e, l !! Item.inst it = Some e
              /\ T !! casefold E (Entity.item_id e) = Some (Item.item_type it).
Proof.
  revert sc. induction l as [|x l IH] using rev_ind; intros sc.
  - intros [= <-] r it H. cbn in H. done.
  - rewrite scan_instances_snoc.
    destruct (scan_instances E T l) as [e|sc0] eqn:Hsc0; cbn; [done|].
    specialize (IH sc0 eq_refl).
    assert (Hold : forall r it, items (scan_graph sc0) !! r = Some it ->
      exists e, (l ++ [x]) !! Item.inst it = Some e
                /\ T !! casefold E (Entity.item_id e)
                   = Some (Item.item_type it)).
    { intros r it (e & He & Hty)%IH. exists e. split; [|done].
      by apply lookup_app_l_Some. }
    unfold scan_instance.
    destruct (decide _); [by intros [= <-]|].
    destruct (decide _); [by intros [= <-]|].
    destruct (decide _); [by intros [= <-]|].
    destruct (T !! casefold E (Entity.item_id x)) as [ty|] eqn:Hty; [|done].
    cbn. intros [= <-]. cbn. intros r it [Hr|[_ Hr]]%lookup_app_Some;
      [by eapply Hold|].
    destruct (r - _); cbn in Hr; [|done]. injection Hr as <-. cbn.
    exists x. split; [|done]. rewrite lookup_app_r by done.
    by rewrite Nat.sub_diag.
Qed.

(** X21: after the pass a registered item still has the instance and
    the type the scan gave it, the entry of [ITEM_TYPES] for the item id of
    the instance; its panels are the panels its target names stand for
    and its antlines the overlays filed under the indicator names of the
    toggles its target names stand for; it has a valid timer; and the
    pass never gives an item a toggle or signs: [ind_toggle] is [None]
    and [shape_signs] is empty. *)
Theorem item_fields_after_pass E ITEM_TYPES vmf tex en sc st r :
  scan_instances E ITEM_TYPES (func_instance vmf) = inr sc ->
  calc_connections E ITEM_TYPES vmf tex en = inr st ->
  r ∈ dict_values (ITEMS st) ->
  let it := items (st_graph st) !!! r in
  let src := source_of sc (func_instance vmf) r in
  Item.inst it = inst_of sc r
  /\ is_normal_item src
  /\ ITEM_TYPES !! casefold E (Entity.item_id src) = Some (Item.item_type it)
  /\ Item.ind_panels it = list_to_set (linked_panels sc (out_names src))
  /\ Item.antlines it
     = linked_antlines sc (scan_overlays E (info_overlay vmf))
         (func_instance vmf) (out_names src)
  /\ valid_timer (Item.timer it)
  /\ Item.ind_toggle it = None
  /\ Item.shape_signs it = [].
Proof.
  intros Hscan (sc' & sg & insts & Hscan' & _ & Hbuild & -> & _)
    %calc_connections_inv Hr.
  rewrite Hscan in Hscan'. injection Hscan' as <-.
  pose proof (scan_instances_scanned _ _ _ _ Hscan) as Hsc.
  pose proof (build_items_built _ _ _ _ _ _ _ Hscan Hbuild) as Hfinal.
  pose proof Hr as Hr'.
  apply list_elem_of_split in Hr' as (pre & post & Hvals).
  assert (Hpost : r ∉ post).
  { pose proof (sc_values _ _ Hsc) as Hn. rewrite Hvals in Hn.
    apply NoDup_app in Hn as (_ & _ & Hn). by apply NoDup_cons in Hn as [? _]. }
  unfold build_items in Hbuild. rewrite Hvals, for_each_app in Hbuild.
  destruct (for_each _ pre _) as [e|[insts1 g1]] eqn:Hpre;
    cbn [mbind result_bind] in Hbuild; [done|].
  rewrite for_each_cons in Hbuild.
  destruct (build_item E sc _ r (insts1, g1)) as [e|[insts2 g2]] eqn:Hstep;
    cbn [mbind result_bind] in Hbuild; [done|].
  destruct (step_state _ _ _ _ _ _ _ _ _ _ Hscan Hvals Hpre)
    as (_ & Hinst & Houts & _ & _ & _).
  destruct (build_item_step _ _ _ _ _ _ _ _ _ _ Hscan Hvals Hpre)
    as (_ & Hok & _).
  destruct (Hok _ _ Hstep) as (_ & _ & Hant & Htog & Hsigns & Hty).
  destruct (built_item_timer _ _ _ _ _ _ _ _ _ _ _ _ Hscan Hvals Hpre Hstep)
    as (item' & Hitem' & _ & Hpan & _).
  assert (Hnames : out_names (insts1 !!! Item.inst (items g1 !!! r))
                   = out_names (source_of sc (func_instance vmf) r)).
  { unfold out_names. by rewrite Hinst, Houts. }
  rewrite Hnames in Hpan.
  rewrite (list_lookup_total_correct _ _ _ Hitem') in *.
  destruct (fields_persist E sc _ post r Hpost _ _ _ _ _ Hbuild Hitem')
    as (b & Hb & (Hf1 & Hf2 & Hf3 & Hf4 & Hf5 & Hf6 & Hf7)).
  cbn zeta. rewrite (list_lookup_total_correct _ _ _ Hb).
  apply (dict_value_get _ _ (sc_keys _ _ Hsc)) in Hr as [n Hn].
  destruct (sc_items _ _ Hsc _ _ Hn) as (it0 & e0 & Hit0 & He0 & _ & Hnorm).
  destruct (scan_item_types _ _ _ _ Hscan _ _ Hit0) as (e1 & He1 & Htype).
  assert (Hsrc : source_of sc (func_instance vmf) r = e0).
  { unfold source_of, inst_of. rewrite (list_lookup_total_correct _ _ _ Hit0).
    by apply list_lookup_total_correct. }
  rewrite (list_lookup_total_correct _ _ _ Hit0) in Hty.
  assert (Hinst0 : Item.inst b = Item.inst it0).
  { pose proof (same_inst_total _ _ r (b_inst _ _ _ _ _ Hfinal)) as H.
    rewrite (list_lookup_total_correct _ _ _ Hit0),
      (list_lookup_total_correct _ _ _ Hb) in H. done. }
  split_and!.
  - unfold inst_of. by rewrite (list_lookup_total_correct _ _ _ Hit0).
  - by rewrite Hsrc.
  - rewrite Hsrc, <- Hf2, Hty. by simplify_eq.
  - by rewrite <- Hf3.
  - by rewrite <- Hf5.
  - pose proof (b_timers _ _ _ _ _ Hfinal) as Ht.
    by eapply Forall_lookup_1 in Ht.
  - by rewrite <- Hf4.
  - by rewrite <- Hf6.
Qed.

Lemma item_fields_after_pass_witness :
  exists st,
    calc_connections demo_externals demo_types two_panel_scene [] false
    = inr st
    /\ Item.ind_panels (items (st_graph st) !!! 0) = list_to_set [1; 2]
    /\ Item.ind_toggle (items (st_graph st) !!! 0) = None.
Proof.
  assert (Hitems : result_items
                     (calc_connections demo_externals demo_types
                        two_panel_scene [] false)
                   = Some [("button", 0)]) by (vm_compute; reflexivity).
  destruct (calc_connections demo_externals demo_types two_panel_scene
              [] false) as [e|st] eqn:H.
  { exfalso. discriminate Hitems. }
  exists st. split; [reflexivity|].
  cbn in Hitems. injection Hitems as Hitems.
  destruct (item_fields_after_pass demo_externals demo_types two_panel_scene
              [] false (scan_of demo_externals demo_types two_panel_scene)
              st 0 ltac:(vm_compute; reflexivity) H)
    as (_ & _ & _ & Hp & _ & _ & Ht & _).
  - rewrite Hitems. cbn. left.
  - split; [|exact Ht]. rewrite Hp. vm_compute. reflexivity.
Defined.
(** * What the pass leaves of the instances *)

Lemma reconcile_panel_frame E timer e :
  Entity.outputs (reconcile_panel E timer e) = Entity.outputs e
  /\ Entity.traits (reconcile_panel E timer e) = Entity.traits e
  /\ Entity.item_id (reconcile_panel E timer e) = Entity.item_id e
  /\ (forall key, key <> "file" ->
        Entity.keys (reconcile_panel E timer e) !! key = Entity.keys e !! key)
  /\ (forall var, var <> TIM_ENABLED ->
        Entity.fixup (reconcile_panel E timer e) !! var = Entity.fixup e !! var).
Proof.
  unfold reconcile_panel. cbn. split_and!; try done.
  - intros key Hk. by rewrite lookup_insert_ne.
  - intros var Hv. by rewrite lookup_insert_ne.
Qed.

Lemma count_update_frame E g item e :
  Entity.outputs (count_update E g item e) = Entity.outputs e
  /\ Entity.traits (count_update E g item e) = Entity.traits e
  /\ Entity.item_id (count_update E g item e) = Entity.item_id e
  /\ Entity.keys (count_update E g item e) = Entity.keys e
  /\ (forall var, var <> CONN_COUNT -> var <> CONN_COUNT_TBEAM ->
        Entity.fixup (count_update E g item e) !! var = Entity.fixup e !! var).
Proof.
  unfold count_update.
  destruct (Entity.fixup_has e CONN_COUNT);
    destruct (Entity.fixup_has _ CONN_COUNT_TBEAM); cbn;
    split_and!; try done; intros var H1 H2;
    by rewrite ?lookup_insert_ne.
Qed.

Lemma counts_at_cases E g rs j e :
  counts_at E g rs j e = e
  \/ exists r, r ∈ rs /\ Item.inst (items g !!! r) = j
               /\ counts_at E g rs j e = count_update E g (items g !!! r) e.
Proof.
  induction rs as [|r rs IH]; cbn; [by left|].
  case_decide as Hj.
  - right. exists r. split_and!; [by left|done..].
  - destruct IH as [?|(r' & ? & ? & ?)]; [by left|].
    right. exists r'. split_and!; [by right|done..].
Qed.

(** The panels of the items are panels of the registry, and an instance
    the scan did not file as a panel is the same after the loop over the
    items as before; the others keep all but the file and the timer
    flag. *)
Lemma build_items_frame E ITEM_TYPES ov insts0 sc insts g :
  scan_instances E ITEM_TYPES insts0 = inr sc ->
  build_items E sc ov insts0 = inr (insts, g) ->
  (forall j e, insts0 !! j = Some e ->
     exists e', insts !! j = Some e'
       /\ Entity.outputs e' = Entity.outputs e
       /\ Entity.traits e' = Entity.traits e
       /\ Entity.item_id e' = Entity.item_id e
       /\ (forall key, key <> "file" ->
             Entity.keys e' !! key = Entity.keys e !! key)
       /\ (forall var, var <> TIM_ENABLED ->
             Entity.fixup e' !! var = Entity.fixup e !! var)
       /\ (~ is_panel e -> e' = e)).
Proof.
  intros Hscan Hbuild.
  pose proof (scan_instances_scanned _ _ _ _ Hscan) as Hsc.
  set (P := fun st : list Entity.t * Graph =>
    (forall j e, insts0 !! j = Some e ->
       exists e', st.1 !! j = Some e'
         /\ Entity.outputs e' = Entity.outputs e
         /\ Entity.traits e' = Entity.traits e
         /\ Entity.item_id e' = Entity.item_id e
         /\ (forall key, key <> "file" ->
               Entity.keys e' !! key = Entity.keys e !! key)
         /\ (forall var, var <> TIM_ENABLED ->
               Entity.fixup e' !! var = Entity.fixup e !! var)
         /\ (~ is_panel e -> e' = e))
    /\ Forall (fun it => forall pan, pan ∈ Item.ind_panels it ->
                 exists n, panels sc !! n = Some pan) (items st.2)).
  assert (Hfinal : P (insts, g)); [|by destruct Hfinal].
  unfold build_items in Hbuild.
  eapply (for_each_invariant _ P); [| |exact Hbuild].
  - intros r [insts1 g1] [insts2 g2] _ [Hin Hpan] Hstep. cbn in Hin, Hpan.
    apply build_item_inv in Hstep
      as (item1 & input_items & Hloop & -> & Hsame & _).
    pose proof (link_loop _ _ _ _ _ _ _ _ _ Hloop) as (_ & Hp1 & _).
    assert (Hpan1 : forall pan, pan ∈ Item.ind_panels item1 ->
              exists n, panels sc !! n = Some pan).
    { intros pan. rewrite Hp1. intros [Hold|Hnew]%elem_of_union.
      - rewrite list_lookup_total_alt in Hold.
        destruct (items g1 !! r) as [it|] eqn:Hit; cbn in Hold;
          [|by apply not_elem_of_empty in Hold].
        eapply Forall_lookup_1 in Hpan; [|exact Hit]. by apply Hpan.
      - apply elem_of_list_to_set, list_elem_of_omap in Hnew as (n & _ & Hn).
        unfold panel_of in Hn. destruct (is_panel_link sc n); [|done]. eauto. }
    split; cbn.
    + intros j e He.
      destruct (Hin j e He) as (e1 & He1 & H1 & H2 & H3 & H4 & H5 & H6).
      rewrite reconcile_panels_lookup, He1.
      destruct (decide (j ∈ Item.ind_panels item1)) as [Hj|Hj]; cbn;
        [|by exists e1].
      destruct (reconcile_panel_frame E (Item.timer item1) e1)
        as (R1 & R2 & R3 & R4 & R5).
      eexists. split; [done|].
      split_and!; [congruence..| | |].
      * intros key Hk. rewrite R4 by done. by apply H4.
      * intros var Hv. rewrite R5 by done. by apply H5.
      * intros Hnp. exfalso. apply Hnp.
        destruct (Hpan1 j Hj) as [n Hn].
        destruct (scan_registries_inv _ _ _ _ Hscan n) as (_ & Hreg & _).
        rewrite Hn in Hreg. destruct Hreg as (e0 & He0 & Hp0 & _).
        by simplify_eq.
    + eapply Forall2_Forall_r; [exact Hsame|].
      apply Forall_insert.
      * eapply Forall_impl; [exact Hpan|]. cbn.
        intros a Ha b (_ & _ & <- & _). done.
      * intros b (_ & _ & <- & _). done.
  - split; cbn.
    + intros j e He. exists e. by split_and!.
    + eapply Forall_impl; [apply (sc_fresh _ _ Hsc)|]. cbn.
      intros it (i & ty & -> & _) pan ?%not_elem_of_empty. done.
Qed.

(** X22: the pass changes of the instances of the map nothing but the
    file and the timer flag of instances it filed as panels and the
    values of the two counts of instances it made items of, where they
    have them: every instance keeps its outputs, its traits, its item id,
    every key but [file] and every fixup but the timer flag and the two
    counts; an instance that is no panel keeps its keys and its timer
    flag, an instance that is no item its counts; so an instance that is
    neither, a toggle or an instance without a name, is after the pass
    what it was. *)
Theorem instances_only_repaired E ITEM_TYPES vmf tex en st :
  calc_connections E ITEM_TYPES vmf tex en = inr st ->
  Forall2 only_repaired (func_instance vmf) (st_func_instance st)
  /\ forall j e e',
       func_instance vmf !! j = Some e -> st_func_instance st !! j = Some e' ->
       (~ is_panel e ->
        Entity.keys e' = Entity.keys e
        /\ Entity.fixup e' !! TIM_ENABLED = Entity.fixup e !! TIM_ENABLED)
       /\ (~ is_normal_item e ->
           Entity.fixup e' !! CONN_COUNT = Entity.fixup e !! CONN_COUNT
           /\ Entity.fixup e' !! CONN_COUNT_TBEAM
              = Entity.fixup e !! CONN_COUNT_TBEAM)
       /\ (~ is_panel e -> ~ is_normal_item e -> e' = e).
Proof.
  intros (sc & sg & insts & Hscan & _ & Hbuild & _ & -> & _)
    %calc_connections_inv.
  pose proof (scan_instances_scanned _ _ _ _ Hscan) as Hsc.
  pose proof (build_items_built _ _ _ _ _ _ _ Hscan Hbuild) as Hb.
  pose proof (build_items_frame _ _ _ _ _ _ _ Hscan Hbuild) as Hframe.
  destruct (registry_instances _ _ _ _ _ _ _ Hscan Hbuild) as [Hinj _].
  unfold fix_all_counts.
  rewrite (fix_all_counts_imap _ _ _ _ Hinj (sc_values _ _ Hsc)).
  set (rs := dict_values (scan_ITEMS sc)).
  assert (Hitem : forall r, r ∈ rs ->
            exists e0, func_instance vmf !! Item.inst (items (st_graph st) !!! r)
                       = Some e0 /\ is_normal_item e0).
  { intros r (n & Hn)%(dict_value_get _ _ (sc_keys _ _ Hsc)).
    destruct (sc_items _ _ Hsc _ _ Hn) as (it0 & e0 & Hit0 & He0 & _ & Hnorm).
    exists e0. split; [|done].
    rewrite <- (same_inst_total _ _ r (b_inst _ _ _ _ _ Hb)).
    by rewrite (list_lookup_total_correct _ _ _ Hit0). }
  assert (Hall : forall j e e',
    func_instance vmf !! j = Some e ->
    imap (counts_at E (st_graph st) rs) insts !! j = Some e' ->
    only_repaired e e'
    /\ (~ is_panel e ->
        Entity.keys e' = Entity.keys e
        /\ Entity.fixup e' !! TIM_ENABLED = Entity.fixup e !! TIM_ENABLED)
    /\ (~ is_normal_item e ->
        Entity.fixup e' !! CONN_COUNT = Entity.fixup e !! CONN_COUNT
        /\ Entity.fixup e' !! CONN_COUNT_TBEAM
           = Entity.fixup e !! CONN_COUNT_TBEAM)
    /\ (~ is_panel e -> ~ is_normal_item e -> e' = e)).
  { intros j e e' He. rewrite list_lookup_imap.
    destruct (Hframe j e He) as (e1 & -> & H1 & H2 & H3 & H4 & H5 & H6).
    cbn. intros [= <-].
    destruct (counts_at_cases E (st_graph st) rs j e1)
      as [->|(r & Hr & Hj & ->)].
    - split; [|split; [|split]].
      + unfold only_repaired, Entity.fixup_has.
        split_and!; try done.
        * intros var ? ? ?. by apply H5.
        * by rewrite H5.
        * by rewrite H5.
      + intros Hnp. by rewrite (H6 Hnp).
      + intros _. by rewrite !H5.
      + intros Hnp _. by apply H6.
    - destruct (count_update_frame E (st_graph st)
                  (items (st_graph st) !!! r) e1)
        as (C1 & C2 & C3 & C4 & C5).
      destruct (Hitem r Hr) as (e0 & He0 & Hnorm).
      rewrite Hj in He0. simplify_eq.
      split; [|split; [|split]].
      + unfold only_repaired. rewrite !count_update_has.
        unfold Entity.fixup_has. rewrite C4.
        split_and!; try congruence; try done.
        * intros var ? ? ?. rewrite C5 by done. by apply H5.
        * by rewrite H5.
        * by rewrite H5.
      + intros Hnp. rewrite C4, C5 by done. by rewrite (H6 Hnp).
      + done.
      + done. }
  split.
  - apply Forall2_same_length_lookup. split.
    + rewrite length_imap.
      apply (Forall2_length _ _ _ (b_insts _ _ _ _ _ Hb)).
    + intros j e e' He He'. by apply (Hall j e e' He He').
  - intros j e e' He He'. by apply (Hall j e e' He He').
Qed.

Lemma instances_only_repaired_witness :
  exists st,
    calc_connections demo_externals demo_types toggle_scene [] false = inr st
    /\ Forall2 only_repaired (func_instance toggle_scene)
         (st_func_instance st).
Proof.
  destruct (calc_connections demo_externals demo_types toggle_scene [] false)
    as [e|st] eqn:H.
  - exfalso. vm_compute in H. discriminate H.
  - exists st. split; [reflexivity|].
    exact (proj1 (instances_only_repaired demo_externals demo_types
                    toggle_scene [] false st H)).
Defined.
(** * The entities added for the frames *)







(** * The sets of the items after the pass *)

Lemma connect_input_registered E inputs insts item t g g' :
  fully_registered g -> t < length (items g) -> item < length (items g) ->
  connect_input E inputs insts item t g = inr g' ->
  fully_registered g' /\ length (items g') = length (items g).
Proof.
  intros (Hin & Hout & Hrange) Ht Hitem. rewrite connect_input_conn.
  destruct (conn_for E inputs insts (items g) item t) as [e|conn] eqn:Hconn;
    cbn; [done|].
  intros [= <-].
  assert (Hends : Connection.inp conn = t /\ Connection.out conn = item).
  { unfold conn_for in Hconn. cbv zeta in Hconn.
    destruct (conn_type_of _ _ _ _); cbn in Hconn; [done|].
    by injection Hconn as <-. }
  destruct Hends as [Hi Ho].
  set (g1 := mkGraph (items g) (conns g ++ [conn])).
  assert (Hc : conns g1 !! length (conns g) = Some conn).
  { unfold g1. cbn. rewrite lookup_app_r by done. by rewrite Nat.sub_diag. }
  split; [|by rewrite items_length_add].
  split_and!.
  - intros i c.
    rewrite (elem_of_inputs_of_add _ _ _ _ _ Hc) by (by rewrite Hi).
    rewrite conns_add. unfold g1 at 2. cbn.
    change (inputs_of g1 i) with (inputs_of g i). rewrite Hin. split.
    + intros [[-> ->]|(conn' & Hc' & Hi')].
      * exists conn. by rewrite lookup_app_r, Nat.sub_diag by done.
      * exists conn'. split; [|done]. by apply lookup_app_l_Some.
    + intros (conn' & [[_ Hc']|[-> <-]]%lookup_snoc_Some & Hi');
        [right; eauto|by left].
  - intros i c.
    rewrite (elem_of_outputs_of_add _ _ _ _ _ Hc) by (by rewrite Ho).
    rewrite conns_add. unfold g1 at 2. cbn.
    change (outputs_of g1 i) with (outputs_of g i). rewrite Hout. split.
    + intros [[-> ->]|(conn' & Hc' & Hi')].
      * exists conn. by rewrite lookup_app_r, Nat.sub_diag by done.
      * exists conn'. split; [|done]. by apply lookup_app_l_Some.
    + intros (conn' & [[_ Hc']|[-> <-]]%lookup_snoc_Some & Hi');
        [right; eauto|by left].
  - rewrite conns_add, items_length_add. unfold g1. cbn.
    apply Forall_app. split; [done|]. constructor; [|constructor].
    by rewrite Hi, Ho.
Qed.

Lemma connect_loop_registered E inputs insts item l g g' :
  fully_registered g -> Forall (fun t => t < length (items g)) l ->
  item < length (items g) ->
  for_each (connect_input E inputs insts item) l g = inr g' ->
  fully_registered g' /\ length (items g') = length (items g).
Proof.
  revert g. induction l as [|t l IH]; intros g Hreg Hl Hitem.
  - by intros [= <-].
  - apply Forall_cons in Hl as [Ht Hl]. rewrite for_each_cons.
    destruct (connect_input E inputs insts item t g) as [e|g1] eqn:Hstep;
      cbn; [done|].
    destruct (connect_input_registered _ _ _ _ _ _ _ Hreg Ht Hitem Hstep)
      as [Hreg1 Hlen1].
    intros Hrest.
    destruct (IH g1 Hreg1) as [Hreg' Hlen']; [by rewrite Hlen1..|done|].
    split; [done|congruence].
Qed.

Lemma set_item_sets (its : list Item.t) cs r item1 :
  Item.inputs item1 = Item.inputs (its !!! r) ->
  Item.outputs item1 = Item.outputs (its !!! r) ->
  forall i, inputs_of (mkGraph (<[r := item1]> its) cs) i
            = inputs_of (mkGraph its cs) i
            /\ outputs_of (mkGraph (<[r := item1]> its) cs) i
               = outputs_of (mkGraph its cs) i.
Proof.
  intros Hin Hout i. unfold inputs_of, outputs_of. cbn.
  destruct (decide (i = r)) as [->|Hne].
  - destruct (its !! r) as [it|] eqn:Hit.
    + rewrite list_lookup_insert_eq by (by eapply lookup_lt_Some). cbn.
      rewrite (list_lookup_total_correct _ _ _ Hit) in Hin, Hout. done.
    + rewrite list_insert_ge; [by rewrite Hit|]. by apply lookup_ge_None.
  - by rewrite list_lookup_insert_ne.
Qed.

(** X24: in the graph the pass returns every connection is registered
    at both ends and the sets hold nothing else: a connection is in the
    [inputs] set of an item exactly when the item is its target, and in
    the [outputs] set of an item exactly when the item is its source; the
    items of every connection exist. *)
Theorem pass_registers_every_connection E ITEM_TYPES vmf tex en st :
  calc_connections E ITEM_TYPES vmf tex en = inr st ->
  fully_registered (st_graph st).
Proof.
  intros (sc & sg & insts & Hscan & _ & Hbuild & _)%calc_connections_inv.
  pose proof (scan_instances_scanned _ _ _ _ Hscan) as Hsc.
  set (n := length (items (scan_graph sc))).
  assert (Hvals : forall r, r ∈ dict_values (scan_ITEMS sc) -> r < n).
  { intros r (k & Hk)%(dict_value_get _ _ (sc_keys _ _ Hsc)).
    destruct (sc_items _ _ Hsc _ _ Hk) as (it & _ & Hit & _).
    by eapply lookup_lt_Some. }
  set (P := fun s : list Entity.t * Graph =>
              fully_registered s.2 /\ length (items s.2) = n).
  assert (Hfinal : P (insts, st_graph st)); [|by destruct Hfinal].
  unfold build_items in Hbuild.
  eapply (for_each_invariant _ P); [| |exact Hbuild].
  - intros r [insts1 g1] [insts2 g2] Hr [Hreg Hlen] Hstep. cbn in Hreg, Hlen.
    rewrite build_item_unfold in Hstep.
    destruct (for_each (link_target _ _ _ _) _ _)
      as [e|[item1 input_items]] eqn:Hlink;
      cbn [mbind result_bind fst snd] in Hstep; [done|].
    destruct (for_each (connect_input _ _ _ _) _ _) as [e|g'] eqn:Hloop;
      cbn in Hstep; [done|]. injection Hstep as <- <-.
    pose proof (link_loop _ _ _ _ _ _ _ _ _ Hlink) as (_ & _ & _ & Hi & Ho).
    pose proof (link_loop_acc _ _ _ _ _ _ _ _ _ Hlink) as Hacc.
    destruct Hreg as (Hin & Hout & Hrange).
    assert (Hreg1 : fully_registered
                      (mkGraph (<[r := item1]> (items g1)) (conns g1))).
    { split_and!; cbn.
      - intros i c.
        destruct (set_item_sets (items g1) (conns g1) r item1 Hi Ho i)
          as [-> _].
        destruct g1. apply Hin.
      - intros i c.
        destruct (set_item_sets (items g1) (conns g1) r item1 Hi Ho i)
          as [_ ->].
        destruct g1. apply Hout.
      - by rewrite length_insert. }
    assert (HA : Forall (fun t => t < length
                  (items (mkGraph (<[r := item1]> (items g1)) (conns g1))))
                  input_items).
    { cbn. rewrite length_insert, Hlen. apply Forall_forall.
      intros t Ht. apply Hvals.
      destruct (Hacc t Ht) as [?%not_elem_of_nil|?]; done. }
    assert (HB : r < length
                  (items (mkGraph (<[r := item1]> (items g1)) (conns g1)))).
    { cbn. rewrite length_insert, Hlen. by apply Hvals. }
    destruct (connect_loop_registered _ _ _ _ _ _ _ Hreg1 HA HB Hloop)
      as [Hreg' Hlen'].
    split; cbn; [done|]. rewrite Hlen'. cbn. by rewrite length_insert.
  - split; cbn; [|done]. split_and!.
    + intros i c. rewrite (sc_conns _ _ Hsc). split.
      * unfold inputs_of. intros Hc.
        destruct (items (scan_graph sc) !! i) as [it|] eqn:Hit;
          cbn in Hc; [|by apply not_elem_of_empty in Hc].
        pose proof (sc_fresh _ _ Hsc) as Hf.
        eapply Forall_lookup_1 in Hf; [|exact Hit].
        destruct Hf as (j & ty & -> & _). by apply not_elem_of_empty in Hc.
      * by intros (conn & Hc & _).
    + intros i c. rewrite (sc_conns _ _ Hsc). split.
      * unfold outputs_of. intros Hc.
        destruct (items (scan_graph sc) !! i) as [it|] eqn:Hit;
          cbn in Hc; [|by apply not_elem_of_empty in Hc].
        pose proof (sc_fresh _ _ Hsc) as Hf.
        eapply Forall_lookup_1 in Hf; [|exact Hit].
        destruct Hf as (j & ty & -> & _). by apply not_elem_of_empty in Hc.
      * by intros (conn & Hc & _).
    + rewrite (sc_conns _ _ Hsc). constructor.
Qed.

Lemma pass_registers_every_connection_witness :
  exists st,
    calc_connections demo_externals demo_types door_scene [] false = inr st
    /\ fully_registered (st_graph st).
Proof.
  destruct (calc_connections demo_externals demo_types door_scene [] false)
    as [e|st] eqn:H.
  - exfalso. vm_compute in H. discriminate H.
  - exists st. split; [reflexivity|].
    exact (pass_registers_every_connection demo_externals demo_types
             door_scene [] false st H).
Defined.
(** * Panels that several items reach *)

Lemma reconcile_panel_twice E t1 t2 e :
  reconcile_panel E t2 (reconcile_panel E t1 e) = reconcile_panel E t2 e.
Proof.
  unfold reconcile_panel, Entity.fixup_set, Entity.set. cbn.
  by rewrite !insert_insert_eq.
Qed.

(** What the reconciliation writes, and what the timer of an item reads
    of it. *)
Lemma reconcile_panel_written E timer e :
  Entity.get (reconcile_panel E timer e) "file"
  = match timer with Some _ => panel_timer E | None => panel_check E end
  /\ Entity.fixup (reconcile_panel E timer e) !! TIM_ENABLED
     = Some (kv_bool E (bool_decide (timer <> None)))
  /\ Entity.fixup_int E (reconcile_panel E timer e) TIM_DELAY
     = Entity.fixup_int E e TIM_DELAY.
Proof.
  unfold reconcile_panel, Entity.get, Entity.fixup_int, Entity.fixup_get. cbn.
  rewrite !lookup_insert_eq. rewrite lookup_insert_ne by done.
  split_and!; [by destruct timer|done|done].
Qed.

Lemma same_fields_total (a b : list Item.t) j :
  Forall2 same_fields a b -> same_fields (a !!! j) (b !!! j).
Proof.
  intros H. rewrite !list_lookup_total_alt.
  destruct (a !! j) as [x|] eqn:Ha.
  - destruct (Forall2_lookup_l _ _ _ _ _ H Ha) as (y & -> & Hxy). done.
  - apply lookup_ge_None in Ha. rewrite (Forall2_length _ _ _ H) in Ha.
    apply lookup_ge_None in Ha. rewrite Ha. apply same_fields_refl.
Qed.

(** The fields of an item stay as they are while the loop builds other
    items. *)
Lemma fields_persist_total E sc ov post r :
  r ∉ post ->
  forall insts g insts' g',
    for_each (build_item E sc ov) post (insts, g) = inr (insts', g') ->
    same_fields (items g !!! r) (items g' !!! r).
Proof.
  induction post as [|r0 post IH]; intros Hr insts g insts' g'.
  - intros [= <- <-]. apply same_fields_refl.
  - apply not_elem_of_cons in Hr as [Hne Hr].
    rewrite for_each_cons.
    destruct (build_item E sc ov r0 (insts, g)) as [e|[insts1 g1]] eqn:Hstep;
      cbn; [done|].
    intros Hrest.
    apply build_item_inv in Hstep as (item1 & _ & _ & _ & Hsame & _).
    pose proof (same_fields_total _ _ r Hsame) as H1.
    rewrite list_lookup_total_insert_ne in H1 by done.
    eapply same_fields_trans; [exact H1|]. by eapply IH.
Qed.

Lemma last_reaching_snoc sc insts0 pan pre r :
  last_reaching sc insts0 pan (pre ++ [r])
  = if decide (pan ∈ linked_panels sc (out_names (source_of sc insts0 r)))
    then Some r else last_reaching sc insts0 pan pre.
Proof.
  unfold last_reaching. rewrite filter_app. case_decide as Hin.
  - rewrite filter_cons_True by done. cbn. by rewrite last_snoc.
  - rewrite filter_cons_False by done. cbn. by rewrite app_nil_r.
Qed.

Lemma last_reaching_Some sc insts0 pan rs r :
  last_reaching sc insts0 pan rs = Some r ->
  r ∈ rs /\ pan ∈ linked_panels sc (out_names (source_of sc insts0 r)).
Proof.
  unfold last_reaching. intros H%last_Some_elem_of.
  by apply list_elem_of_filter in H as [? ?].
Qed.

Lemma last_reaching_None sc insts0 pan rs :
  (forall r, r ∈ rs ->
     pan ∉ linked_panels sc (out_names (source_of sc insts0 r))) ->
  last_reaching sc insts0 pan rs = None.
Proof.
  intros H. unfold last_reaching.
  destruct (last _) as [r|] eqn:Hl; [|done].
  apply last_Some_elem_of, list_elem_of_filter in Hl as [Hin Hr].
  by destruct (H r Hr).
Qed.

(** The loop reads the outputs of an item from the instance it has in
    the map. *)
Lemma step_names E ITEM_TYPES ov insts0 sc pre r post insts g :
  scan_instances E ITEM_TYPES insts0 = inr sc ->
  dict_values (scan_ITEMS sc) = pre ++ r :: post ->
  for_each (build_item E sc ov) pre (insts0, scan_graph sc) = inr (insts, g) ->
  out_names (insts !!! Item.inst (items g !!! r))
  = out_names (source_of sc insts0 r).
Proof.
  intros Hscan Hvals Hrun.
  destruct (step_state _ _ _ _ _ _ _ _ _ _ Hscan Hvals Hrun)
    as (_ & Hinst & Houts & _).
  unfold out_names. by rewrite Hinst, Houts.
Qed.

(** A panel in the loop over the items: it is as in the map until an
    item that reaches it is built, and then as the reconciliation of the
    last such item left it. *)
Lemma panel_history E ITEM_TYPES ov insts0 sc pre post insts g pan :
  scan_instances E ITEM_TYPES insts0 = inr sc ->
  dict_values (scan_ITEMS sc) = pre ++ post ->
  for_each (build_item E sc ov) pre (insts0, scan_graph sc) = inr (insts, g) ->
  insts !! pan
  = match last_reaching sc insts0 pan pre with
    | None => insts0 !! pan
    | Some r => reconcile_panel E (Item.timer (items g !!! r)) <$> insts0 !! pan
    end.
Proof.
  intros Hscan. revert post insts g.
  induction pre as [|r pre IH] using rev_ind; intros post insts g Hvals.
  - by intros [= <- <-].
  - rewrite for_each_snoc.
    destruct (for_each _ pre _) as [e|[insts1 g1]] eqn:Hpre; cbn; [done|].
    intros Hstep. rewrite <- app_assoc in Hvals. cbn in Hvals.
    specialize (IH _ _ _ Hvals eq_refl).
    destruct (built_item_timer _ _ _ _ _ _ _ _ _ _ _ _ Hscan Hvals Hpre Hstep)
      as (item' & Hitem' & _ & Hp & -> & _).
    rewrite (step_names _ _ _ _ _ _ _ _ _ _ Hscan Hvals Hpre) in Hp.
    rewrite last_reaching_snoc, reconcile_panels_lookup, Hp.
    destruct (decide (pan ∈ linked_panels sc
                             (out_names (source_of sc insts0 r)))) as [Hin|Hin].
    + rewrite decide_True by (by apply elem_of_list_to_set).
      rewrite (list_lookup_total_correct _ _ _ Hitem'), IH.
      destruct (last_reaching sc insts0 pan pre); [|done].
      destruct (insts0 !! pan); cbn; [|done].
      by rewrite reconcile_panel_twice.
    + rewrite decide_False by (by rewrite elem_of_list_to_set).
      rewrite IH.
      destruct (last_reaching sc insts0 pan pre) as [r0|] eqn:Hlast; [|done].
      apply last_reaching_Some in Hlast as [Hr0 _].
      assert (Hne : r <> r0).
      { pose proof (sc_values _ _ (scan_instances_scanned _ _ _ _ Hscan)) as Hn.
        rewrite Hvals in Hn. apply NoDup_app in Hn as (_ & Hn & _).
        intros ->. apply (Hn _ Hr0). by left. }
      apply build_item_inv in Hstep as (item1 & _ & _ & _ & Hsame & _).
      pose proof (same_fields_total _ _ r0 Hsame) as H1.
      rewrite list_lookup_total_insert_ne in H1 by done.
      destruct H1 as (_ & _ & _ & _ & _ & _ & ->). done.
Qed.

(** The loop over the counts leaves the keys and the timer flag of every
    instance. *)
Lemma pass_instances E ITEM_TYPES vmf tex en st :
  calc_connections E ITEM_TYPES vmf tex en = inr st ->
  exists sc insts,
    scan_instances E ITEM_TYPES (func_instance vmf) = inr sc
    /\ build_items E sc (scan_overlays E (info_overlay vmf)) (func_instance vmf)
       = inr (insts, st_graph st)
    /\ forall j e, insts !! j = Some e ->
         exists e', st_func_instance st !! j = Some e'
                    /\ Entity.keys e' = Entity.keys e
                    /\ Entity.fixup e' !! TIM_ENABLED
                       = Entity.fixup e !! TIM_ENABLED.
Proof.
  intros (sc & sg & insts & Hscan & _ & Hbuild & _ & -> & _)
    %calc_connections_inv.
  exists sc, insts. split_and!; [done..|].
  pose proof (scan_instances_scanned _ _ _ _ Hscan) as Hsc.
  destruct (registry_instances _ _ _ _ _ _ _ Hscan Hbuild) as [Hinj _].
  unfold fix_all_counts.
  rewrite (fix_all_counts_imap _ _ _ _ Hinj (sc_values _ _ Hsc)).
  intros j e He. rewrite list_lookup_imap, He. cbn.
  eexists. split; [reflexivity|].
  destruct (counts_at_cases E (st_graph st) (dict_values (scan_ITEMS sc)) j e)
    as [->|(r & _ & _ & ->)]; [done|].
  destruct (count_update_frame E (st_graph st) (items (st_graph st) !!! r) e)
    as (_ & _ & _ & C4 & C5).
  split; [done|]. by apply C5.
Qed.

(** The timer of an item after the pass, from the map and the timers of
    the items built before it. *)
Lemma timer_after_pass E ITEM_TYPES vmf tex en sc st pre r post :
  scan_instances E ITEM_TYPES (func_instance vmf) = inr sc ->
  calc_connections E ITEM_TYPES vmf tex en = inr st ->
  dict_values (scan_ITEMS sc) = pre ++ r :: post ->
  Item.timer (items (st_graph st) !!! r)
  = match last (linked_panels sc
                  (out_names (source_of sc (func_instance vmf) r))) with
    | None => None
    | Some pan =>
        panel_timer_value E
          match last_reaching sc (func_instance vmf) pan pre with
          | None => func_instance vmf !!! pan
          | Some r' =>
              reconcile_panel E (Item.timer (items (st_graph st) !!! r'))
                (func_instance vmf !!! pan)
          end
    end
  /\ Item.ind_panels (items (st_graph st) !!! r)
     = list_to_set (linked_panels sc
                      (out_names (source_of sc (func_instance vmf) r))).
Proof.
  intros Hscan (sc' & sg & insts & Hscan' & _ & Hbuild & _)%calc_connections_inv
    Hvals.
  rewrite Hscan in Hscan'. injection Hscan' as <-.
  pose proof (scan_instances_scanned _ _ _ _ Hscan) as Hsc.
  pose proof (sc_values _ _ Hsc) as Hnd. rewrite Hvals in Hnd.
  apply NoDup_app in Hnd as (_ & Hpre & Hnd).
  apply NoDup_cons in Hnd as [Hpost _].
  unfold build_items in Hbuild. rewrite Hvals, for_each_app in Hbuild.
  destruct (for_each _ pre _) as [e|[insts1 g1]] eqn:Hrun;
    cbn [mbind result_bind] in Hbuild; [done|].
  pose proof Hbuild as Htail. rewrite for_each_cons in Hbuild.
  destruct (build_item E sc _ r (insts1, g1)) as [e|[insts2 g2]] eqn:Hstep;
    cbn [mbind result_bind] in Hbuild; [done|].
  destruct (built_item_timer _ _ _ _ _ _ _ _ _ _ _ _ Hscan Hvals Hrun Hstep)
    as (item' & Hitem' & Ht & Hp & _).
  rewrite (step_names _ _ _ _ _ _ _ _ _ _ Hscan Hvals Hrun) in Ht, Hp.
  pose proof (fields_persist_total E sc _ post r Hpost _ _ _ _ Hbuild)
    as (_ & _ & Hf3 & _ & _ & _ & Hf7).
  rewrite (list_lookup_total_correct _ _ _ Hitem') in Hf3, Hf7.
  split; [|by rewrite <- Hf3].
  rewrite <- Hf7, Ht.
  destruct (last _) as [pan|] eqn:Hlast; [|done].
  f_equal.
  assert (Hlt : pan < length (func_instance vmf)).
  { eapply linked_panels_in_range; [done|]. by apply last_Some_elem_of. }
  destruct (lookup_lt_is_Some_2 _ _ Hlt) as [e0 He0].
  pose proof (panel_history E ITEM_TYPES _ (func_instance vmf) sc pre
                (r :: post) insts1 g1 pan Hscan Hvals Hrun) as Hhist.
  rewrite (list_lookup_total_correct _ _ _ He0).
  apply list_lookup_total_correct. rewrite Hhist, He0.
  destruct (last_reaching sc (func_instance vmf) pan pre) as [r'|] eqn:Hr';
    [|done].
  cbn. do 2 f_equal.
  apply last_reaching_Some in Hr' as [Hin _].
  assert (Hnot : r' ∉ r :: post).
  { intros Hx. by apply (Hpre _ Hin). }
  by destruct (fields_persist_total E sc _ (r :: post) r' Hnot _ _ _ _ Htail)
    as (_ & _ & _ & _ & _ & _ & ?).
Qed.

(** A panel after the pass is as the reconciliation of the item built
    last, of those that reach it, left it, but for the counts. *)
Lemma panel_after_pass E ITEM_TYPES vmf tex en sc st pan r :
  scan_instances E ITEM_TYPES (func_instance vmf) = inr sc ->
  calc_connections E ITEM_TYPES vmf tex en = inr st ->
  last_reaching sc (func_instance vmf) pan (dict_values (scan_ITEMS sc))
  = Some r ->
  Entity.get (st_func_instance st !!! pan) "file"
  = match Item.timer (items (st_graph st) !!! r) with
    | Some _ => panel_timer E
    | None => panel_check E
    end
  /\ Entity.fixup (st_func_instance st !!! pan) !! TIM_ENABLED
     = Some (kv_bool E
               (bool_decide (Item.timer (items (st_graph st) !!! r) <> None))).
Proof.
  intros Hscan Hcalc Hlast.
  destruct (pass_instances _ _ _ _ _ _ Hcalc)
    as (sc' & insts & Hscan' & Hbuild & Hkeep).
  rewrite Hscan in Hscan'. injection Hscan' as <-.
  pose proof (scan_instances_scanned _ _ _ _ Hscan) as Hsc.
  pose proof (panel_history E ITEM_TYPES (scan_overlays E (info_overlay vmf))
                (func_instance vmf) sc
                (dict_values (scan_ITEMS sc)) [] insts (st_graph st) pan Hscan)
    as Hhist.
  rewrite Hlast in Hhist.
  destruct (last_reaching_Some _ _ _ _ _ Hlast) as [_ Hin].
  assert (Hlt : pan < length (func_instance vmf)).
  { by eapply linked_panels_in_range. }
  destruct (lookup_lt_is_Some_2 _ _ Hlt) as [e0 He0].
  rewrite He0 in Hhist. cbn in Hhist.
  destruct (Hkeep pan _ (Hhist ltac:(by rewrite app_nil_r) Hbuild))
    as (e' & He' & Hkeys & Hflag).
  rewrite (list_lookup_total_correct _ _ _ He').
  destruct (reconcile_panel_written E (Item.timer (items (st_graph st) !!! r)) e0)
    as (Hfile & Hen & _).
  split.
  - rewrite <- Hfile. unfold Entity.get. by rewrite Hkeys.
  - by rewrite Hflag.
Qed.

Lemma last_reaching_only sc insts0 pan pre r post :
  pan ∈ linked_panels sc (out_names (source_of sc insts0 r)) ->
  (forall r', r' ∈ post ->
     pan ∉ linked_panels sc (out_names (source_of sc insts0 r'))) ->
  last_reaching sc insts0 pan (pre ++ r :: post) = Some r.
Proof.
  intros Hr Hpost. unfold last_reaching.
  rewrite filter_app, filter_cons_True by done.
  assert (Hnil : filter (fun r' => pan ∈ linked_panels sc
                            (out_names (source_of sc insts0 r'))) post = []).
  { induction post as [|x post IH]; [done|].
    rewrite filter_cons_False by (apply Hpost; by left).
    apply IH. intros r' Hr'. apply Hpost. by right. }
  rewrite Hnil. by rewrite last_snoc.
Qed.

(** C3 (amended): after the pass every item has no timer or a timer from
    1 to 30.  The timer of an item is decided by the last panel its
    outputs reach, in the order the target names first appear in the
    outputs, read as the panel is when the item is built: as in the map
    when no item built before it reaches that panel, and otherwise as the
    reconciliation of the last such item left it, which wrote the
    timer-enabled fixup (whether that item has a timer) and kept the
    delay.  The timer is none when the timer-enabled fixup so read is
    false, the delay when it is true and the delay is from 1 to 30, none
    when it is true and the delay is outside; an item that reaches no
    panel has no timer. *)
Theorem timer_from_last_panel E ITEM_TYPES vmf tex en sc st :
  scan_instances E ITEM_TYPES (func_instance vmf) = inr sc ->
  calc_connections E ITEM_TYPES vmf tex en = inr st ->
  (forall it, it ∈ items (st_graph st) -> valid_timer (Item.timer it))
  /\ (forall pre r post,
        dict_values (scan_ITEMS sc) = pre ++ r :: post ->
        Item.timer (items (st_graph st) !!! r)
        = match last (linked_panels sc
                        (out_names (source_of sc (func_instance vmf) r))) with
          | None => None
          | Some pan =>
              panel_timer_value E
                match last_reaching sc (func_instance vmf) pan pre with
                | None => func_instance vmf !!! pan
                | Some r' =>
                    reconcile_panel E
                      (Item.timer (items (st_graph st) !!! r'))
                      (func_instance vmf !!! pan)
                end
          end)
  /\ (forall timer (pan : Entity.t),
        Entity.fixup (reconcile_panel E timer pan) !! TIM_ENABLED
        = Some (kv_bool E (bool_decide (timer <> None)))
        /\ Entity.fixup_int E (reconcile_panel E timer pan) TIM_DELAY
           = Entity.fixup_int E pan TIM_DELAY)
  /\ (forall pan : Entity.t,
        (Entity.fixup_bool E pan TIM_ENABLED = false ->
         panel_timer_value E pan = None)
        /\ (Entity.fixup_bool E pan TIM_ENABLED = true ->
            (1 <= Entity.fixup_int E pan TIM_DELAY <= 30)%Z ->
            panel_timer_value E pan = Some (Entity.fixup_int E pan TIM_DELAY))
        /\ (Entity.fixup_bool E pan TIM_ENABLED = true ->
            ~ (1 <= Entity.fixup_int E pan TIM_DELAY <= 30)%Z ->
            panel_timer_value E pan = None)).
Proof.
  intros Hscan Hcalc. split_and!.
  - destruct (calc_connections_inv _ _ _ _ _ _ Hcalc)
      as (sc' & sg & insts & Hscan' & _ & Hb & _).
    pose proof (build_items_built _ _ _ _ _ _ _ Hscan' Hb) as Hbuilt.
    intros it Hit. pose proof (b_timers _ _ _ _ _ Hbuilt) as Ht.
    by eapply Forall_forall in Ht.
  - intros pre r post Hvals.
    by destruct (timer_after_pass _ _ _ _ _ _ _ _ _ _ Hscan Hcalc Hvals).
  - intros timer pan.
    by destruct (reconcile_panel_written E timer pan) as (_ & ? & ?).
  - apply panel_timer_value_cases.
Qed.

Lemma timer_from_last_panel_witness :
  result_timers
    (calc_connections demo_externals demo_types shared_panel_scene [] false)
  = Some [("first", Some 5%Z); ("second", Some 7%Z)]
  /\ exists st,
      calc_connections demo_externals demo_types shared_panel_scene [] false
      = inr st
      /\ (forall it, it ∈ items (st_graph st) -> valid_timer (Item.timer it))
      /\ Item.timer (items (st_graph st) !!! 1)
         = panel_timer_value demo_externals
             (reconcile_panel demo_externals
                (Item.timer (items (st_graph st) !!! 0))
                (func_instance shared_panel_scene !!! 2)).
Proof.
  split; [vm_compute; reflexivity|].
  destruct (calc_connections demo_externals demo_types shared_panel_scene
              [] false) as [e|st] eqn:H.
  { exfalso. vm_compute in H. discriminate H. }
  exists st. split; [reflexivity|].
  destruct (timer_from_last_panel demo_externals demo_types shared_panel_scene
              [] false (scan_of demo_externals demo_types shared_panel_scene) st
              ltac:(vm_compute; reflexivity) H) as (H1 & H2 & _).
  split; [exact H1|].
  exact (H2 [0] 1 [] ltac:(vm_compute; reflexivity)).
Defined.

(** C8 (amended): right after the outputs of an item are processed,
    every indicator panel attached to the item has the timer file if the
    item has a timer and the checkmark file if it has none, and its
    timer-enabled fixup is set to whether the item has a timer.  In the
    result of the pass a panel that the outputs of several items reach
    shows this for the item built last among them.  In particular an item
    whose outputs reach last a panel that has timer-enabled true and
    delay 3 in the map, and that the outputs of no other registered item
    reach, ends with timer 3 and that panel with the timer file. *)
Theorem panels_reconciled E ITEM_TYPES vmf sc :
  scan_instances E ITEM_TYPES (func_instance vmf) = inr sc ->
  (forall ov pre r post insts g insts' g' pan,
      dict_values (scan_ITEMS sc) = pre ++ r :: post ->
      for_each (build_item E sc ov) pre (func_instance vmf, scan_graph sc)
      = inr (insts, g) ->
      build_item E sc ov r (insts, g) = inr (insts', g') ->
      pan ∈ Item.ind_panels (items g' !!! r) ->
      Entity.get (insts' !!! pan) "file"
      = match Item.timer (items g' !!! r) with
        | Some _ => panel_timer E
        | None => panel_check E
        end
      /\ Entity.fixup (insts' !!! pan) !! TIM_ENABLED
         = Some (kv_bool E (bool_decide (Item.timer (items g' !!! r) <> None))))
  /\ (forall tex en st,
        calc_connections E ITEM_TYPES vmf tex en = inr st ->
        (forall pan r,
            last_reaching sc (func_instance vmf) pan
              (dict_values (scan_ITEMS sc)) = Some r ->
            pan ∈ Item.ind_panels (items (st_graph st) !!! r)
            /\ Entity.get (st_func_instance st !!! pan) "file"
               = match Item.timer (items (st_graph st) !!! r) with
                 | Some _ => panel_timer E
                 | None => panel_check E
                 end
            /\ Entity.fixup (st_func_instance st !!! pan) !! TIM_ENABLED
               = Some (kv_bool E
                         (bool_decide
                            (Item.timer (items (st_graph st) !!! r) <> None))))
        /\ (forall r pan,
              r ∈ dict_values (scan_ITEMS sc) ->
              last (linked_panels sc
                      (out_names (source_of sc (func_instance vmf) r)))
              = Some pan ->
              (forall r', r' ∈ dict_values (scan_ITEMS sc) -> r' <> r ->
                 pan ∉ linked_panels sc
                         (out_names (source_of sc (func_instance vmf) r'))) ->
              Entity.fixup_bool E (func_instance vmf !!! pan) TIM_ENABLED
              = true ->
              Entity.fixup_int E (func_instance vmf !!! pan) TIM_DELAY = 3%Z ->
              Item.timer (items (st_graph st) !!! r) = Some 3%Z
              /\ Entity.get (st_func_instance st !!! pan) "file"
                 = panel_timer E)).
Proof.
  intros Hscan.
  pose proof (scan_instances_scanned _ _ _ _ Hscan) as Hsc.
  split.
  - intros ov pre r post insts g insts' g' pan Hvals Hrun Hb.
    destruct (built_item_timer _ _ _ _ _ _ _ _ _ _ _ _ Hscan Hvals Hrun Hb)
      as (item' & Hitem' & _ & _ & -> & Hrange).
    rewrite (list_lookup_total_correct _ _ _ Hitem'). intros Hin.
    destruct (lookup_lt_is_Some_2 insts pan) as [e He]; [by apply Hrange|].
    assert (Hpan : reconcile_panels E item' insts !!! pan
                   = reconcile_panel E (Item.timer item') e).
    { apply list_lookup_total_correct.
      rewrite reconcile_panels_lookup, decide_True by done. by rewrite He. }
    rewrite Hpan.
    by destruct (reconcile_panel_written E (Item.timer item') e) as (? & ? & _).
  - intros tex en st Hcalc. split.
    + intros pan r Hlast.
      destruct (last_reaching_Some _ _ _ _ _ Hlast) as [Hr Hin].
      apply list_elem_of_split in Hr as (pre & post & Hvals).
      destruct (timer_after_pass _ _ _ _ _ _ _ _ _ _ Hscan Hcalc Hvals)
        as [_ Hp].
      split; [rewrite Hp; by apply elem_of_list_to_set|].
      by apply (panel_after_pass E ITEM_TYPES vmf tex en sc st).
    + intros r pan Hr Hlast Honly Hen Hdelay.
      pose proof (last_Some_elem_of _ _ Hlast) as Hin.
      apply list_elem_of_split in Hr as (pre & post & Hvals).
      pose proof (sc_values _ _ Hsc) as Hnd. rewrite Hvals in Hnd.
      apply NoDup_app in Hnd as (_ & Hpre & Hnd).
      apply NoDup_cons in Hnd as [Hpost _].
      assert (Hother : forall r', r' ∈ pre \/ r' ∈ post ->
                pan ∉ linked_panels sc
                        (out_names (source_of sc (func_instance vmf) r'))).
      { intros r' Hr'. apply Honly.
        - rewrite Hvals. apply elem_of_app.
          destruct Hr' as [?|?]; [by left|right; by right].
        - intros ->. destruct Hr' as [Hx|Hx]; [|done].
          apply (Hpre _ Hx). by left. }
      destruct (timer_after_pass _ _ _ _ _ _ _ _ _ _ Hscan Hcalc Hvals)
        as [Ht _].
      rewrite Hlast, last_reaching_None in Ht
        by (intros r' Hr'; apply Hother; by left).
      assert (Htim : Item.timer (items (st_graph st) !!! r) = Some 3%Z).
      { rewrite Ht. unfold panel_timer_value. by rewrite Hen, Hdelay. }
      split; [done|].
      destruct (panel_after_pass E ITEM_TYPES vmf tex en sc st pan r Hscan Hcalc)
        as [Hfile _].
      { rewrite Hvals. apply last_reaching_only; [done|].
        intros r' Hr'. apply Hother. by right. }
      by rewrite Hfile, Htim.
Qed.

Lemma panels_reconciled_witness :
  exists st,
    calc_connections demo_externals demo_types reverser_scene [] false = inr st
    /\ Item.timer (items (st_graph st) !!! 0) = Some 3%Z
    /\ Entity.get (st_func_instance st !!! 1) "file"
       = panel_timer demo_externals.
Proof.
  destruct (calc_connections demo_externals demo_types reverser_scene [] false)
    as [e|st] eqn:H.
  { exfalso. vm_compute in H. discriminate H. }
  exists st. split; [reflexivity|].
  apply (proj2 (proj2 (panels_reconciled demo_externals demo_types
                         reverser_scene
                         (scan_of demo_externals demo_types reverser_scene)
                         ltac:(vm_compute; reflexivity))
                  [] false st H) 0 1).
  - vm_compute. left.
  - vm_compute. reflexivity.
  - intros r' Hr' Hne. vm_compute in Hr'.
    inversion Hr' as [|? ? ? Hnil]; [done|inversion Hnil].
  - vm_compute. reflexivity.
  - vm_compute. reflexivity.
Defined.

(** * Connections of the pass, one by one *)

Lemma funnel_type_Some E outs ty :
  funnel_type E outs = Some ty ->
  exists pre out post,
    outs = pre ++ out :: post
    /\ Forall (fun o => ~ recognised E o) pre /\ recognised E out
    /\ ty = if decide (input_tuple out ∈ tbeam_polarity E)
            then SECONDARY else PRIMARY.
Proof.
  induction outs as [|o outs IH]; cbn; [done|].
  fold (input_tuple o).
  destruct (decide (input_tuple o ∈ tbeam_polarity E)) as [Hp|Hp].
  { intros [= <-]. exists [], o, outs. split_and!; [done|constructor|by left|].
    by rewrite decide_True. }
  destruct (decide (input_tuple o ∈ tbeam_io E)) as [Hio|Hio].
  { intros [= <-]. exists [], o, outs. split_and!; [done|constructor|by right|].
    by rewrite decide_False. }
  intros (pre & out & post & -> & Hpre & Hout & ->)%IH.
  exists (o :: pre), out, post. split_and!; [done| |done..].
  constructor; [|done]. by intros [?|?].
Qed.

Lemma item_pairs_elem sc insts0 rs r t :
  (r, t) ∈ item_pairs sc insts0 rs
  <-> r ∈ rs /\ exists n, n ∈ out_names (source_of sc insts0 r)
                          /\ item_of sc n = Some t.
Proof.
  unfold item_pairs. rewrite list_elem_of_bind. split.
  - intros (r' & (t' & [= <- <-] & Ht)%list_elem_of_fmap & Hr).
    split; [done|]. by apply linked_items_elem.
  - intros (Hr & Ht%linked_items_elem). exists r. split; [|done].
    apply list_elem_of_fmap. by exists t.
Qed.

(** The connections of the result, against the pairs of items read off
    the map. *)
Lemma pass_conns E ITEM_TYPES vmf tex en sc st :
  scan_instances E ITEM_TYPES (func_instance vmf) = inr sc ->
  calc_connections E ITEM_TYPES vmf tex en = inr st ->
  Forall2 (fun rt conn =>
             expected_conn E sc (func_instance vmf) rt.1 rt.2 = inr conn)
          (item_pairs sc (func_instance vmf) (dict_values (scan_ITEMS sc)))
          (conns (st_graph st)).
Proof.
  intros Hscan (sc' & sg & insts & Hscan' & _ & Hbuild & _)%calc_connections_inv.
  rewrite Hscan in Hscan'. injection Hscan' as <-.
  destruct (build_run_conns E ITEM_TYPES (scan_overlays E (info_overlay vmf))
              (func_instance vmf) sc
              (dict_values (scan_ITEMS sc)) [] insts (st_graph st) Hscan)
    as [Hconns _]; [by rewrite app_nil_r|exact Hbuild|done].
Qed.

(** The connection of the result between two items the map connects. *)
Lemma pass_conn_of E ITEM_TYPES vmf tex en sc st r t :
  scan_instances E ITEM_TYPES (func_instance vmf) = inr sc ->
  calc_connections E ITEM_TYPES vmf tex en = inr st ->
  (r, t) ∈ item_pairs sc (func_instance vmf) (dict_values (scan_ITEMS sc)) ->
  exists conn,
    expected_conn E sc (func_instance vmf) r t = inr conn
    /\ conn ∈ conns (st_graph st).
Proof.
  intros Hscan Hcalc [k Hk]%list_elem_of_lookup.
  destruct (Forall2_lookup_l _ _ _ _ _ (pass_conns _ _ _ _ _ _ _ Hscan Hcalc) Hk)
    as (conn & Hconn & Hexp).
  exists conn. split; [done|]. by eapply list_elem_of_lookup_2.
Qed.

Lemma pass_conn_from E ITEM_TYPES vmf tex en sc st conn :
  scan_instances E ITEM_TYPES (func_instance vmf) = inr sc ->
  calc_connections E ITEM_TYPES vmf tex en = inr st ->
  conn ∈ conns (st_graph st) ->
  (Connection.out conn, Connection.inp conn)
    ∈ item_pairs sc (func_instance vmf) (dict_values (scan_ITEMS sc))
  /\ expected_conn E sc (func_instance vmf)
       (Connection.out conn) (Connection.inp conn) = inr conn.
Proof.
  intros Hscan Hcalc [k Hk]%list_elem_of_lookup.
  destruct (Forall2_lookup_r _ _ _ _ _ (pass_conns _ _ _ _ _ _ _ Hscan Hcalc) Hk)
    as ([r t] & Hrt & Hexp).
  cbn in Hexp. destruct (expected_conn_ends _ _ _ _ _ _ Hexp) as [-> ->].
  split; [by eapply list_elem_of_lookup_2|done].
Qed.

(** Building an item fails at the first of its target items that gets
    no connection. *)
Lemma build_item_conn_fails E ITEM_TYPES ov insts0 sc pre r post insts g
    tpre t tpost err :
  scan_instances E ITEM_TYPES insts0 = inr sc ->
  dict_values (scan_ITEMS sc) = pre ++ r :: post ->
  for_each (build_item E sc ov) pre (insts0, scan_graph sc) = inr (insts, g) ->
  (forall m, m ∈ out_names (source_of sc insts0 r) -> ~ unknown_target sc m) ->
  linked_items sc (out_names (source_of sc insts0 r)) = tpre ++ t :: tpost ->
  Forall (fun t' => is_ok (expected_conn E sc insts0 r t') = true) tpre ->
  expected_conn E sc insts0 r t = inl err ->
  build_item E sc ov r (insts, g) = inl err.
Proof.
  intros Hscan Hvals Hrun Hknown Hlinked Hpre Ht.
  rewrite build_item_unfold, (step_names _ _ _ _ _ _ _ _ _ _ Hscan Hvals Hrun).
  set (ns := out_names (source_of sc insts0 r)) in *.
  destruct (link_loop_ok E sc ov insts ns (items g !!! r, []) Hknown)
    as [[item1 input_items] Hlink].
  rewrite Hlink. cbn [mbind result_bind fst snd].
  pose proof (link_loop_items _ _ _ _ _ _ _ _ _ Hlink) as (Hitems & _).
  pose proof (link_loop _ _ _ _ _ _ _ _ _ Hlink) as (_ & _ & Hinst1 & _).
  cbn in Hitems. subst input_items. rewrite Hlinked.
  assert (Hconn : forall t',
    conn_for E (group_outputs
                  (Entity.outputs (insts !!! Item.inst (items g !!! r))))
      (reconcile_panels E item1 insts) (<[r := item1]> (items g)) r t'
    = expected_conn E sc insts0 r t').
  { intros t'. by eapply step_conn_for. }
  set (inputs := group_outputs _) in *.
  set (g1 := mkGraph (<[r := item1]> (items g)) (conns g)).
  destruct (connect_loop_ok E inputs (reconcile_panels E item1 insts) r tpre g1)
    as [gk Hgk].
  { eapply Forall_impl; [exact Hpre|]. cbn. intros t' <-. f_equal. apply Hconn. }
  assert (Hfail : for_each (connect_input E inputs
                              (reconcile_panels E item1 insts) r)
                    (tpre ++ t :: tpost) g1 = inl err).
  { eapply for_each_fails_at; [exact Hgk|].
    rewrite connect_input_conn.
    apply connect_loop_inv in Hgk as [Hsame _].
    rewrite <- (conn_for_ext _ _ _ (items g1) (items gk))
      by (by apply same_fields_inst).
    unfold g1. cbn [items]. by rewrite Hconn, Ht. }
  by rewrite Hfail.
Qed.

(** C2 (amended): take a registered item, a target name of its outputs
    that stands for an item with the funnel trait, and the outputs of the
    item to that name, in their order.  When the pass returns, one of
    these outputs has an (instance, input) pair of the polarity set or of
    the on/off set, and the connection the pass has built between the two
    items holds those outputs and has the type the first such output
    gives: secondary when its pair is in the polarity set, primary
    otherwise.  When no pair of these outputs is in either set the pass
    fails and returns nothing; and when nothing fails before the loop
    reaches this funnel (the items before this one are built, the target
    names of this item are all known, the funnels before this one among
    its targets get an output they recognise), the error it fails with
    is the [ValueError] that names this funnel. *)
Theorem funnel_classification_first_match E ITEM_TYPES vmf sc r n t :
  scan_instances E ITEM_TYPES (func_instance vmf) = inr sc ->
  r ∈ dict_values (scan_ITEMS sc) ->
  n ∈ out_names (source_of sc (func_instance vmf) r) ->
  item_of sc n = Some t ->
  "tbeam_emitter" ∈ Entity.traits (source_of sc (func_instance vmf) t) ->
  let in_outputs := outputs_to (source_of sc (func_instance vmf) r) n in
  (forall tex en st,
      calc_connections E ITEM_TYPES vmf tex en = inr st ->
      exists pre out post,
        in_outputs = pre ++ out :: post
        /\ Forall (fun o => ~ recognised E o) pre /\ recognised E out
        /\ Connection.mk t r
             (if decide (input_tuple out ∈ tbeam_polarity E)
              then SECONDARY else PRIMARY) in_outputs
           ∈ conns (st_graph st)
        /\ forall conn,
             conn ∈ conns (st_graph st) ->
             Connection.out conn = r -> Connection.inp conn = t ->
             conn = Connection.mk t r
                      (if decide (input_tuple out ∈ tbeam_polarity E)
                       then SECONDARY else PRIMARY) in_outputs)
  /\ (Forall (fun o => ~ recognised E o) in_outputs ->
      (forall tex en,
          exists err, calc_connections E ITEM_TYPES vmf tex en = inl err)
      /\ (forall tex en pre post insts g tpre tpost,
            dict_values (scan_ITEMS sc) = pre ++ r :: post ->
            for_each (build_item E sc (scan_overlays E (info_overlay vmf))) pre
              (func_instance vmf, scan_graph sc) = inr (insts, g) ->
            (forall m, m ∈ out_names (source_of sc (func_instance vmf) r) ->
                       ~ unknown_target sc m) ->
            linked_items sc (out_names (source_of sc (func_instance vmf) r))
            = tpre ++ t :: tpost ->
            Forall (fun t' =>
                      "tbeam_emitter"
                        ∈ Entity.traits (source_of sc (func_instance vmf) t') ->
                      Exists (recognised E)
                        (outputs_to (source_of sc (func_instance vmf) r)
                           (Entity.get (source_of sc (func_instance vmf) t')
                              "targetname"))) tpre ->
            calc_connections E ITEM_TYPES vmf tex en
            = inl (ValueError (funnel_msg n)))).
Proof.
  intros Hscan Hr Hn Ht Htrait in_outputs.
  pose proof (scan_instances_scanned _ _ _ _ Hscan) as Hsc.
  destruct (expected_conn_spec E sc (func_instance vmf) r t n Hsc Ht)
    as (Hname & _ & Hexp).
  fold in_outputs in Hexp.
  assert (Hpair : (r, t) ∈ item_pairs sc (func_instance vmf)
                            (dict_values (scan_ITEMS sc))).
  { apply item_pairs_elem. split; [done|]. by exists n. }
  split.
  - intros tex en st Hcalc.
    destruct (pass_conn_of _ _ _ _ _ _ _ _ _ Hscan Hcalc Hpair)
      as (conn & Hconn & Hin).
    rewrite Hexp in Hconn. unfold conn_type_of in Hconn.
    rewrite decide_True in Hconn by done.
    destruct (funnel_type E in_outputs) as [ty|] eqn:Hty; cbn in Hconn; [|done].
    injection Hconn as <-.
    apply funnel_type_Some in Hty as (pre & out & post & Heq & Hpre & Hout & ->).
    exists pre, out, post. split_and!; [done..|].
    intros conn Hc Ho Hi.
    destruct (pass_conn_from _ _ _ _ _ _ _ _ Hscan Hcalc Hc) as [_ Hc'].
    rewrite Ho, Hi, Hexp in Hc'. unfold conn_type_of in Hc'.
    rewrite decide_True in Hc' by done.
    rewrite Heq, (funnel_type_first _ _ _ _ Hpre Hout) in Hc'. cbn in Hc'.
    injection Hc' as <-. by rewrite Heq.
  - intros Hnone.
    assert (Herr : expected_conn E sc (func_instance vmf) r t
                   = inl (ValueError (funnel_msg n))).
    { rewrite Hexp. unfold conn_type_of. rewrite decide_True by done.
      by rewrite (funnel_type_none _ _ Hnone). }
    split.
    + intros tex en.
      destruct (calc_connections E ITEM_TYPES vmf tex en) as [err|st] eqn:Hcalc;
        [by exists err|].
      destruct (pass_conn_of _ _ _ _ _ _ _ _ _ Hscan Hcalc Hpair)
        as (conn & Hconn & _).
      congruence.
    + intros tex en pre post insts g tpre tpost Hvals Hrun Hknown Hlinked Hpre.
      destruct (make_shapes_run E (info_overlay vmf)) as (sg & Hsg & _).
      eapply calc_connections_build_fails; [done..|].
      unfold build_items. rewrite Hvals.
      eapply for_each_fails_at; [exact Hrun|].
      eapply build_item_conn_fails; [done..| |done].
      apply Forall_forall. intros t' Ht'.
      assert (Hin : t' ∈ linked_items sc
                             (out_names (source_of sc (func_instance vmf) r))).
      { rewrite Hlinked. apply elem_of_app. by left. }
      apply linked_items_elem in Hin as (n' & Hn' & Hitem').
      apply (expected_conn_ok _ _ _ _ _ _ Hsc Hitem').
      eapply Forall_forall in Hpre; [|exact Ht'].
      destruct (expected_conn_spec E sc (func_instance vmf) r t' n' Hsc Hitem')
        as (Hname' & _).
      by rewrite Hname' in Hpre.
Qed.

Lemma funnel_classification_first_match_witness :
  (exists st,
      calc_connections demo_externals demo_types funnel_scene [] false = inr st
      /\ Connection.mk 1 0 PRIMARY [out_io; out_polarity]
           ∈ conns (st_graph st))
  /\ calc_connections demo_externals demo_types bad_funnel_scene [] false
     = inl (ValueError (funnel_msg "funnel")).
Proof.
  split.
  - destruct (calc_connections demo_externals demo_types funnel_scene [] false)
      as [e|st] eqn:H.
    { exfalso. vm_compute in H. discriminate H. }
    exists st. split; [reflexivity|].
    destruct (proj1 (funnel_classification_first_match demo_externals
                       demo_types funnel_scene
                       (scan_of demo_externals demo_types funnel_scene)
                       0 "funnel" 1
                       ltac:(vm_compute; reflexivity)
                       ltac:(vm_compute; left)
                       ltac:(vm_compute; left)
                       ltac:(vm_compute; reflexivity)
                       ltac:(vm_compute; reflexivity))
               [] false st H)
      as (pre & out & post & Heq & Hpre & Hout & Hin & _).
    assert (Hfirst : out = out_io).
    { destruct pre as [|o pre].
      - vm_compute in Heq. by injection Heq as <- _.
      - exfalso. vm_compute in Heq. injection Heq as <- _.
        apply Forall_cons in Hpre as [Ho _]. apply Ho. right.
        vm_compute. reflexivity. }
    subst out. exact Hin.
  - apply (proj2 (proj2 (funnel_classification_first_match demo_externals
                           demo_types bad_funnel_scene
                           (scan_of demo_externals demo_types bad_funnel_scene)
                           0 "funnel" 1
                           ltac:(vm_compute; reflexivity)
                           ltac:(vm_compute; left)
                           ltac:(vm_compute; left)
                           ltac:(vm_compute; reflexivity)
                           ltac:(vm_compute; reflexivity))
                    ltac:(vm_compute; constructor;
                          [intros [H|H]; vm_compute in H; inversion H
                          |constructor]))
             [] false [] [1]
             (func_instance bad_funnel_scene)
             (scan_graph (scan_of demo_externals demo_types bad_funnel_scene))
             [] []).
    + vm_compute. reflexivity.
    + reflexivity.
    + intros m Hm [_ Hnone]. change (m ∈ ["funnel"]) in Hm.
      apply list_elem_of_singleton in Hm as ->.
      vm_compute in Hnone. discriminate Hnone.
    + vm_compute. reflexivity.
    + constructor.
Defined.

(** * Instances with the same name, in the pass *)

(** C10 (amended): when two instances that become items have the same
    name, and every instance of the map that becomes an item has an item
    type, the scan raises no error; the registry then has one entry for
    that name, the item of an instance scanned no earlier than the second
    of the two, with that name; the item of the earlier instance is not
    registered any more.  When the pass returns, its connections are
    those of the registered items: one for each registered item and each
    item a target name of its outputs stands for; none of them touches
    the item of the earlier instance, and every registered item with an
    output to the shared name (when that name reaches the lookup of items:
    no model or brush suffix, no toggle and no panel of that name) has a
    connection to the surviving item, with its outputs to that name. *)
Theorem duplicate_names_last_wins E ITEM_TYPES vmf i j a b :
  i < j ->
  func_instance vmf !! i = Some a -> func_instance vmf !! j = Some b ->
  is_normal_item a -> is_normal_item b ->
  Entity.get a "targetname" = Entity.get b "targetname" ->
  (forall k e, func_instance vmf !! k = Some e -> is_normal_item e ->
               is_Some (ITEM_TYPES !! casefold E (Entity.item_id e))) ->
  exists sc r,
    scan_instances E ITEM_TYPES (func_instance vmf) = inr sc
    /\ NoDup (dict_keys (scan_ITEMS sc))
    /\ dict_get (scan_ITEMS sc) (Entity.get a "targetname") = Some r
    /\ (exists it e,
          items (scan_graph sc) !! r = Some it /\ j <= Item.inst it
          /\ func_instance vmf !! Item.inst it = Some e
          /\ Entity.get e "targetname" = Entity.get a "targetname")
    /\ (forall r', r' ∈ dict_values (scan_ITEMS sc) ->
                   Item.inst (items (scan_graph sc) !!! r') <> i)
    /\ (forall tex en st,
          calc_connections E ITEM_TYPES vmf tex en = inr st ->
          ITEMS st = scan_ITEMS sc
          /\ (fun c => (Connection.out c, Connection.inp c))
               <$> conns (st_graph st)
             = item_pairs sc (func_instance vmf) (dict_values (scan_ITEMS sc))
          /\ (forall conn, conn ∈ conns (st_graph st) ->
                Connection.inp conn ∈ dict_values (scan_ITEMS sc)
                /\ Connection.out conn ∈ dict_values (scan_ITEMS sc)
                /\ Item.inst (items (st_graph st) !!! Connection.inp conn) <> i
                /\ Item.inst (items (st_graph st) !!! Connection.out conn) <> i)
          /\ (forall r',
                r' ∈ dict_values (scan_ITEMS sc) ->
                Entity.get a "targetname"
                  ∈ out_names (source_of sc (func_instance vmf) r') ->
                is_item_link sc (Entity.get a "targetname") = true ->
                exists conn,
                  conn ∈ conns (st_graph st)
                  /\ Connection.out conn = r' /\ Connection.inp conn = r
                  /\ Connection.outputs conn
                     = outputs_to (source_of sc (func_instance vmf) r')
                         (Entity.get a "targetname"))).
Proof.
  intros Hij Ha Hb Hna Hnb Hname Htypes.
  destruct (scan_instances_ok E ITEM_TYPES (func_instance vmf) Htypes)
    as [sc Hscan].
  pose proof (scan_instances_scanned _ _ _ _ Hscan) as Hsc.
  destruct (sc_last _ _ Hsc _ _ Hb Hnb) as (r & it & Hr & Hit & Hle).
  rewrite <- Hname in Hr.
  assert (Hreg : forall r', r' ∈ dict_values (scan_ITEMS sc) ->
                            Item.inst (items (scan_graph sc) !!! r') <> i).
  { intros r' (n & Hn)%(dict_value_get _ _ (sc_keys _ _ Hsc)).
    destruct (sc_items _ _ Hsc _ _ Hn) as (it' & e' & Hit' & He' & Hn' & _).
    rewrite (list_lookup_total_correct _ _ _ Hit'). intros Heq.
    rewrite Heq in He'. simplify_eq. lia. }
  exists sc, r. split_and!; [done|apply (sc_keys _ _ Hsc)|done| |done|].
  - destruct (sc_items _ _ Hsc _ _ Hr) as (it' & e & Hit' & He & Hn & _).
    rewrite Hit in Hit'. injection Hit' as <-. by exists it, e.
  - intros tex en st Hcalc.
    pose proof (pass_conns _ _ _ _ _ _ _ Hscan Hcalc) as Hconns.
    destruct (calc_connections_inv _ _ _ _ _ _ Hcalc)
      as (sc' & sg & insts & Hscan' & _ & Hbuild & Hitems & _).
    rewrite Hscan in Hscan'. injection Hscan' as <-.
    pose proof (build_items_built _ _ _ _ _ _ _ Hscan Hbuild) as Hbuilt.
    assert (Hinst : forall x,
              Item.inst (items (st_graph st) !!! x)
              = Item.inst (items (scan_graph sc) !!! x)).
    { intros x. symmetry. apply same_inst_total, (b_inst _ _ _ _ _ Hbuilt). }
    split_and!.
    + done.
    + symmetry. apply list_eq_Forall2, Forall2_fmap_r.
      eapply Forall2_impl; [exact Hconns|]. cbn.
      intros [r1 t1] conn [-> ->]%expected_conn_ends. done.
    + intros conn Hconn.
      destruct (pass_conn_from _ _ _ _ _ _ _ _ Hscan Hcalc Hconn)
        as [(Hout & n & _ & Hn)%item_pairs_elem _].
      destruct (expected_conn_spec E sc (func_instance vmf)
                  (Connection.out conn) _ n Hsc Hn) as (_ & Hinp & _).
      split_and!; [done..| |]; rewrite Hinst; by apply Hreg.
    + intros r' Hr' Hout Hlink.
      assert (Hitem : item_of sc (Entity.get a "targetname") = Some r).
      { unfold item_of. by rewrite Hlink. }
      destruct (pass_conn_of E ITEM_TYPES vmf tex en sc st r' r Hscan Hcalc)
        as (conn & Hexp & Hin).
      { apply item_pairs_elem. split; [done|]. eauto. }
      exists conn. destruct (expected_conn_ends _ _ _ _ _ _ Hexp) as [Ho Hi].
      split_and!; [done..|].
      destruct (expected_conn_spec E sc (func_instance vmf) r' r _ Hsc Hitem)
        as (_ & _ & Heq).
      rewrite Heq in Hexp.
      destruct (conn_type_of E _ _ _) as [err|ty]; cbn in Hexp; [done|].
      by injection Hexp as <-.
Qed.

Lemma duplicate_names_last_wins_witness :
  exists st,
    calc_connections demo_externals demo_types twin_scene [] false = inr st
    /\ dict_get (ITEMS st) "twin" = Some 1
    /\ exists conn,
        conn ∈ conns (st_graph st)
        /\ Connection.out conn = 2 /\ Connection.inp conn = 1.
Proof.
  destruct (duplicate_names_last_wins demo_externals demo_types twin_scene 0 1
              (func_instance twin_scene !!! 0) (func_instance twin_scene !!! 1))
    as (sc & r & Hscan & _ & Hr & _ & _ & Hpass).
  - lia.
  - reflexivity.
  - reflexivity.
  - split_and!; vm_compute; [discriminate|intros H; inversion H..].
  - split_and!; vm_compute; [discriminate|intros H; inversion H..].
  - reflexivity.
  - intros [|[|[|k]]] e He Hn; vm_compute in He; [injection He as <-..|discriminate He];
      vm_compute; eauto.
  - assert (Hsc : sc = scan_of demo_externals demo_types twin_scene).
    { unfold scan_of. by rewrite Hscan. }
    subst sc.
    assert (Hr1 : r = 1).
    { vm_compute in Hr. by injection Hr as <-. }
    subst r.
    destruct (calc_connections demo_externals demo_types twin_scene [] false)
      as [e|st] eqn:H.
    { exfalso. vm_compute in H. discriminate H. }
    exists st. split; [reflexivity|].
    destruct (Hpass [] false st H) as (Hitems & _ & _ & Hedge).
    split; [rewrite Hitems; vm_compute; reflexivity|].
    destruct (Hedge 2) as (conn & Hin & Ho & Hi & _).
    + vm_compute. right. left.
    + vm_compute. left.
    + vm_compute. reflexivity.
    + by exists conn.
Defined.
